(** * InnerEye-CreateDataset image-processing core: a shallow embedding

    The development follows the C++ sources under
    [Source/projects/ImageProcessing]:

    - [connectedComponents.h]: the disjoint-set node [Set<U>] with
      [find]/[unite], and [findConnectedComponents3d];
    - [convolution.h]: the pixel codec ([readerT]/[writerT]),
      [convolve_reference], the row convolver [convolve] and the volume
      dispatcher [convolve1d], once as the values they compute and once
      with every access to a vector or to the kernel array checked;
    - [connectedComponents.cpp]: the self-test [test_Set];
    - [SseConvolver.h]: the constructor of the (disabled) SSE path;
    - [GaussianKernel1D.cpp]: the kernel builder;

    and the managed entry points under [Source/projects/ImageProcessingClr]:
    [ConnectedComponents::Find3d], [Find3dWithStatistics] and
    [Convolution::Convolve].

    Integers of the program are modelled in [Z]; where the program relies
    on a bounded unsigned type the wrap-around is written out.  Raw
    buffers reached through pointers are maps from offsets to values. *)

From Stdlib Require Import ZArith Bool List Lia SpecFloat.
From stdpp Require Import base tactics option list list_numbers relations functions.

Local Open Scope Z_scope.

(** ** Outcomes of a call *)

(** The four [std::exception]s thrown by the library. *)
Inductive error :=
| GraphOverflow        (* "Connected components graph overflow." *)
| TooManyComponents    (* "Too many components during connected component analysis." *)
| DirectionOutOfRange  (* "Direction was out of range." *)
| KernelTooLarge.      (* "Kernel too big for image." *)

Global Instance error_eq_dec : EqDecision error.
Proof. solve_decision. Defined.

(** A call returns, throws, runs into undefined behaviour (an index past
    the end of a [std::vector], a float-to-int cast of a NaN), or exhausts
    the recursion bound of the model. *)
Inductive result (A : Type) :=
| Ok (a : A)
| Throw (e : error)
| Undefined
| NoFuel.
Arguments Ok {A} a.
Arguments Throw {A} e.
Arguments Undefined {A}.
Arguments NoFuel {A}.

(** Sequencing, written [x ← m; k]: a failure of [m] leaves the call. *)
Global Instance result_bind : MBind result := fun A B k m =>
  match m with
  | Ok a => k a
  | Throw e => Throw e
  | Undefined => Undefined
  | NoFuel => NoFuel
  end.

(** The way a call ends, without the value it returns. *)
Definition kind {A} (r : result A) : result unit :=
  match r with
  | Ok _ => Ok tt
  | Throw e => Throw e
  | Undefined => Undefined
  | NoFuel => NoFuel
  end.

(** The exceptions that leave a managed entry point: the one of an element
    access past the end of a managed array, the one of the length check
    of [Convolve], and the ones that carry the message of a
    [std::exception]. *)
Inductive managed_exception :=
| IndexOutOfRange   (* [&array[0]] on an array without elements *)
| ArraysLength      (* "Arrays of directions and sigmas should be of the same length." *)
| Native (e : error).

(** How a call of a managed entry point ends. *)
Inductive managed (A : Type) :=
| Returns (a : A)
| Raises (x : managed_exception)
| Unspecified.   (* undefined behaviour in the native code *)
Arguments Returns {A} a.
Arguments Raises {A} x.
Arguments Unspecified {A}.

(** [try { ... } catch (std::exception& oops) { throw gcnew
    System::Exception(gcnew System::String(oops.what())); }] *)
Definition rethrown {A} (r : result A) : managed A :=
  match r with
  | Ok a => Returns a
  | Throw e => Raises (Native e)
  | Undefined | NoFuel => Unspecified
  end.

(** [for (x : l) s = body(x, s)], leaving at the first failure. *)
Fixpoint for_loop {A S} (l : list A) (body : A -> S -> result S) (s : S) : result S :=
  match l with
  | [] => Ok s
  | x :: l' => s' ← body x s; for_loop l' body s'
  end.

(** [all_from f n a]: [f] holds of [a], [a + 1], ..., [a + n - 1]. *)
Fixpoint all_from (f : Z -> bool) (n : nat) (a : Z) : bool :=
  match n with
  | O => true
  | S n' => f a && all_from f n' (a + 1)
  end.

(** ** connectedComponents.h: [Set<U>] *)

Module DisjointSet.

(** [std::numeric_limits<RANK_TYPE>::max()] for [unsigned short]. *)
Definition RANK_MAX : Z := 65535.

(** A node; [parent_] is a pointer into the node array, here the index
    of the node pointed to, [None] for the null pointer. *)
Record Set_ := mkSet {
  rank_ : Z;
  hasLabel_ : bool;
  label_ : Z;
  parent_ : option Z
}.

(** The node array, addressed by node index. *)
Abbreviation store := (Z -> Set_).

(** What the zeroed memory of [findConnectedComponents3d] (and the
    constructor) holds: rank 0, no parent, no label. *)
Definition zero_node : Set_ :=
  {| rank_ := 0; hasLabel_ := false; label_ := 0; parent_ := None |}.
Definition zeroed : store := fun _ => zero_node.

Definition set_parent (n : Set_) (p : option Z) : Set_ :=
  {| rank_ := rank_ n; hasLabel_ := hasLabel_ n; label_ := label_ n; parent_ := p |}.
Definition set_rank (n : Set_) (r : Z) : Set_ :=
  {| rank_ := r; hasLabel_ := hasLabel_ n; label_ := label_ n; parent_ := parent_ n |}.
Definition set_label (n : Set_) (l : Z) : Set_ :=
  {| rank_ := rank_ n; hasLabel_ := true; label_ := l; parent_ := parent_ n |}.

(** The body of [Set::find]; [self] is the recursive call. *)
Definition find_body (self : store -> Z -> result (Z * store)) (c : store) (n : Z)
  : result (Z * store) :=
  match parent_ (c n) with
  | None => Ok (n, c)
  | Some p =>
      '(r, c') ← self c p;
      Ok (r, <[n := set_parent (c' n) (Some r)]> c')
  end.

(** [find_body] unrolled [fuel] times. *)
Definition find_rec (fuel : nat) : store -> Z -> result (Z * store) :=
  Nat.iter fuel find_body (fun _ _ => NoFuel).

(** [Set::find].  Ranks grow strictly along parent links and stop at
    [RANK_MAX], so the chain above a node of rank [k] has at most
    [RANK_MAX + 1 - k] nodes; the recursion is unrolled that many times. *)
Definition find (c : store) (n : Z) : result (Z * store) :=
  Pos.iter find_body (fun _ _ => NoFuel) (Z.to_pos (RANK_MAX + 1 - rank_ (c n))) c n.

(** [Set::unite].  On equal ranks the parent link is written before the
    overflow test, and the increment is that of an [unsigned short]. *)
Definition unite (c : store) (x y : Z) : result store :=
  '(xRoot, c1) ← find c x;
  '(yRoot, c2) ← find c1 y;
  if rank_ (c2 yRoot) <? rank_ (c2 xRoot) then
    Ok (<[yRoot := set_parent (c2 yRoot) (Some xRoot)]> c2)
  else if rank_ (c2 xRoot) <? rank_ (c2 yRoot) then
    Ok (<[xRoot := set_parent (c2 xRoot) (Some yRoot)]> c2)
  else if negb (xRoot =? yRoot) then
    let c3 := <[yRoot := set_parent (c2 yRoot) (Some xRoot)]> c2 in
    if rank_ (c3 xRoot) =? RANK_MAX then Throw GraphOverflow
    else Ok (<[xRoot := set_rank (c3 xRoot) ((rank_ (c3 xRoot) + 1) mod (RANK_MAX + 1))]> c3)
  else Ok c2.

(** *** Forests *)

(** [root c n r]: following the parent links from [n] ends in [r], a node
    without parent. *)
Inductive root (c : store) : Z -> Z -> Prop :=
| root_here n : parent_ (c n) = None -> root c n n
| root_step n p r : parent_ (c n) = Some p -> root c p r -> root c n r.

(** [on_chain c n m]: [m] is met when following the parent links from [n]. *)
Definition on_chain (c : store) : Z -> Z -> Prop :=
  rtc (fun a b => parent_ (c a) = Some b).

Definition same_root (c : store) (a b : Z) : Prop :=
  exists r, root c a r /\ root c b r.

(** The forests that [unite] builds: ranks fit the rank type and grow
    strictly along parent links. *)
Definition wf (c : store) : Prop :=
  forall n, 0 <= rank_ (c n) <= RANK_MAX /\
            forall p, parent_ (c n) = Some p -> rank_ (c n) < rank_ (c p).

(** What path compression may do to a forest: nothing but redirect a
    parent link to the root of its node. *)
Definition compressed (c c' : store) : Prop :=
  forall m, rank_ (c' m) = rank_ (c m) /\ hasLabel_ (c' m) = hasLabel_ (c m) /\
            label_ (c' m) = label_ (c m) /\
            (parent_ (c' m) = parent_ (c m) \/
             (parent_ (c m) <> None /\ exists r, parent_ (c' m) = Some r /\ root c m r)).

(** [sized D c]: the parent links end in nodes of [D], and the tree under
    a root of rank [k] has at least [2 ^ k] nodes. *)
Definition sized (D : Z -> Prop) (c : store) : Prop :=
  (forall n p, parent_ (c n) = Some p -> D p) /\
  forall r, D r -> parent_ (c r) = None ->
    exists l, NoDup l /\ (forall m, m ∈ l -> D m /\ root c m r) /\
              2 ^ rank_ (c r) <= Z.of_nat (length l).

(** [at_most D N]: there are at most [N] nodes in [D]. *)
Definition at_most (D : Z -> Prop) (N : Z) : Prop :=
  forall l, NoDup l -> (forall m, m ∈ l -> D m) -> Z.of_nat (length l) <= N.

(** A client that calls [unite] on the pairs [l], one after the other. *)
Definition unites (l : list (Z * Z)) (c : store) : result store :=
  for_loop l (fun xy c => unite c xy.1 xy.2) c.

(** *** connectedComponents.cpp: [test_Set] *)

(** [a.find() == b.find()]; the language leaves open which operand is
    evaluated first, and [find] writes, so the order is a parameter. *)
Definition same_set (left_first : bool) c (a b : Z) : result (bool * store) :=
  if left_first then
    '(ra, c1) ← find c a;
    '(rb, c2) ← find c1 b;
    Ok (ra =? rb, c2)
  else
    '(rb, c1) ← find c b;
    '(ra, c2) ← find c1 a;
    Ok (ra =? rb, c2).

(** The self-test returns or throws "Internal error in Set.", an
    exception of its own that is kept apart from the library's. *)
Inductive self_test := Passed | InternalError.

(** [test_Set]; [s1] .. [s4] are the addresses of its four local nodes,
    which their constructor zeroes, and [order i] tells whether the
    comparison number [i] evaluates its left operand first. *)
Definition test_Set (order : nat -> bool) (s1 s2 s3 s4 : Z) : result self_test :=
  '(e, c) ← same_set (order 0%nat) zeroed s1 s2;
  if (e : bool) then Ok InternalError else
  c ← unite c s1 s2;
  '(e, c) ← same_set (order 1%nat) c s1 s2;
  if negb (e : bool) then Ok InternalError else
  c ← unite c s2 s3;
  '(e, c) ← same_set (order 2%nat) c s2 s1;
  if negb (e : bool) then Ok InternalError else
  '(e, c) ← same_set (order 3%nat) c s3 s2;
  if negb (e : bool) then Ok InternalError else
  c ← unite c s4 s3;
  '(e, c) ← same_set (order 4%nat) c s4 s3;
  if negb (e : bool) then Ok InternalError else
  '(e, c) ← same_set (order 5%nat) c s3 s1;
  if negb (e : bool) then Ok InternalError else
  '(e, c) ← same_set (order 6%nat) c s3 s2;
  if negb (e : bool) then Ok InternalError else
  Ok Passed.

End DisjointSet.

(** ** connectedComponents.h: [findConnectedComponents3d] *)

Module Components.
Import DisjointSet.

(** A voxel position [(u, v, w)]. *)
Definition voxel : Type := Z * Z * Z.

(** Face connectivity: back, left, up; the rows are [(du[i], dv[i], dw[i])]. *)
Definition N : Z := 3.
Definition du : list Z := [0; -1; 0].
Definition dv : list Z := [0; 0; -1].
Definition dw : list Z := [-1; 0; 0].
Definition at_ (l : list Z) (i : Z) : Z := nth (Z.to_nat i) l 0.

(** [unsigned long] is 32 bits wide on the target of this library. *)
Definition ULONG_MAX : Z := 4294967295.

Section Engine.
Context {T : Type} `{EqDecision T}.

(** [std::numeric_limits<U>::max()] of the label type [U]. *)
Variable U_MAX : Z.

Record ComponentStatistics := mkStat {
  pixelCount_ : Z;
  inputLabel_ : T
}.

Variables width height depth : Z.
(** The input buffer, read at offsets counted in elements of [T]. *)
Variable inputBuffer : Z -> T.
Variables inputLeap inputStride : Z.
Variable backgroundColor : T.
Variables outputLeap outputStride : Z.
Variable backgroundLabel : Z.

(** [&components[w*width*height + v*width] + u] *)
Definition node (p : voxel) : Z :=
  let '(u, v, w) := p in w * width * height + v * width + u.
(** [(T* )((unsigned char* )inputBuffer + w*inputLeap + v*inputStride) + u] *)
Definition in_at (p : voxel) : Z :=
  let '(u, v, w) := p in w * inputLeap + v * inputStride + u.
Definition out_at (p : voxel) : Z :=
  let '(u, v, w) := p in w * outputLeap + v * outputStride + u.

(** The triple loop [for w .. for v .. for u ..] in scan order. *)
Definition scan {S} (body : voxel -> S -> result S) (s : S) : result S :=
  for_loop (seqZ 0 depth) (fun w =>
    for_loop (seqZ 0 height) (fun v =>
      for_loop (seqZ 0 width) (fun u => body (u, v, w)))) s.

(** The body of the first pass for direction [i]. *)
Definition link (p : voxel) (i : Z) (c : store) : result store :=
  let '(u, v, w) := p in
  if (0 <=? u + at_ du i) && (u + at_ du i <? width)
     && (0 <=? v + at_ dv i) && (v + at_ dv i <? height)
     && (0 <=? w + at_ dw i) && (w + at_ dw i <? depth) then
    if decide (inputBuffer (in_at p + at_ dw i * inputLeap + at_ dv i * inputStride + at_ du i)
               = inputBuffer (in_at p)) then
      unite c (node p)
        ((w + at_ dw i) * width * height + (v + at_ dv i) * width + u + at_ du i)
    else Ok c
  else Ok c.

Definition pass1_body (p : voxel) (c : store) : result store :=
  if decide (inputBuffer (in_at p) = backgroundColor) then Ok c
  else for_loop (seqZ 0 N) (link p) c.

(** The state of the second pass. *)
Record labelling := mkLabelling {
  components : store;
  label : Z;
  statistics : list ComponentStatistics;
  outputBuffer : Z -> Z
}.

(** [statistics.push_back({ 0, color })] *)
Definition push_back (st : list ComponentStatistics) (color : T) :=
  st ++ [mkStat 0 color].

(** [label++] on the unsigned type [U]. *)
Definition incr (l : Z) : Z := (l + 1) mod (U_MAX + 1).

(** [statistics[i].pixelCount_++] *)
Definition count (st : list ComponentStatistics) (i : Z) : result (list ComponentStatistics) :=
  if (0 <=? i) && (i <? Z.of_nat (length st)) then
    Ok (alter (fun s => mkStat ((pixelCount_ s + 1) mod (ULONG_MAX + 1)) (inputLabel_ s))
          (Z.to_nat i) st)
  else Undefined.

(** The branch taken for a root that has no label yet. *)
Definition take_label (root : Z) (o : T) (s : labelling) : result labelling :=
  let c := <[root := set_label (components s root) (label s)]> (components s) in
  if label s =? U_MAX then Throw TooManyComponents
  else
    let l1 := incr (label s) in
    let st1 := push_back (statistics s) o in
    if l1 =? backgroundLabel then
      if l1 =? U_MAX then Throw TooManyComponents
      else Ok (mkLabelling c (incr l1) (push_back st1 backgroundColor) (outputBuffer s))
    else Ok (mkLabelling c l1 st1 (outputBuffer s)).

(** The [if]/[else] of the second pass: the label of [p] is written to
    the output volume. *)
Definition assign_label (p : voxel) (s : labelling) : result labelling :=
  let o := inputBuffer (in_at p) in
  if decide (o = backgroundColor) then
    Ok (mkLabelling (components s) (label s) (statistics s)
          (<[out_at p := backgroundLabel]> (outputBuffer s)))
  else
    '(root, c) ← find (components s) (node p);
    let s0 := mkLabelling c (label s) (statistics s) (outputBuffer s) in
    s' ← (if hasLabel_ (c root) then Ok s0 else take_label root o s0);
    Ok (mkLabelling (components s') (label s') (statistics s')
          (<[out_at p := label_ (components s' root)]> (outputBuffer s'))).

Definition pass2_body (p : voxel) (s : labelling) : result labelling :=
  s1 ← assign_label p s;
  st ← count (statistics s1) (outputBuffer s1 (out_at p));
  Ok (mkLabelling (components s1) (label s1) st (outputBuffer s1)).

(** The state in which the second pass starts. *)
Definition pass2_init (c : store) (outputBuffer0 : Z -> Z) : labelling :=
  if 0 =? backgroundLabel
  then mkLabelling c (incr 0) (push_back [] backgroundColor) outputBuffer0
  else mkLabelling c 0 [] outputBuffer0.

(** The call returns the statistics; the output volume is its effect on
    [outputBuffer].  The node array is the map [zeroed]: the address
    [&components_[0]] that the code takes of it is not modelled, so that
    a volume without voxels, where the array is empty, is outside what
    this definition covers. *)
Definition findConnectedComponents3d (outputBuffer0 : Z -> Z)
  : result (list ComponentStatistics * (Z -> Z)) :=
  c ← scan pass1_body zeroed;
  s ← scan pass2_body (pass2_init c outputBuffer0);
  Ok (statistics s, outputBuffer s).

(** *** The volume and its 6-connectivity *)

Definition in_volume (p : voxel) : Prop :=
  let '(u, v, w) := p in 0 <= u < width /\ 0 <= v < height /\ 0 <= w < depth.

(** The input value of a voxel. *)
Definition value (p : voxel) : T := inputBuffer (in_at p).

(** Face neighbours: the coordinates differ by exactly 1 in exactly one axis. *)
Definition face_neighbor (p q : voxel) : Prop :=
  let '(u, v, w) := p in
  let '(u', v', w') := q in
  (Z.abs (u - u') = 1 /\ v = v' /\ w = w') \/
  (u = u' /\ Z.abs (v - v') = 1 /\ w = w') \/
  (u = u' /\ v = v' /\ Z.abs (w - w') = 1).

(** [is_path p l q]: stepping from [p] through the voxels [l], each a face
    neighbour of the one before, ends in [q]. *)
Fixpoint is_path (p : voxel) (l : list voxel) (q : voxel) : Prop :=
  match l with
  | [] => p = q
  | x :: l' => face_neighbor p x /\ is_path x l' q
  end.

(** A path between [p] and [q] on which every voxel has the input value of [p]. *)
Definition connected (p q : voxel) : Prop :=
  exists l, is_path p l q /\ Forall (fun x => in_volume x /\ value x = value p) l.

(** Distinct voxels of the volume occupy distinct cells of the output buffer. *)
Definition distinct_cells : Prop :=
  forall p q, in_volume p -> in_volume q -> out_at p = out_at q -> p = q.

(** The voxels in scan order. *)
Definition voxels : list voxel :=
  w ← seqZ 0 depth; v ← seqZ 0 height; u ← seqZ 0 width; [(u, v, w)].

(** The neighbour of [p] in direction [i]. *)
Definition neighbor (p : voxel) (i : Z) : voxel :=
  let '(u, v, w) := p in (u + at_ du i, v + at_ dv i, w + at_ dw i).

(** The pairs of nodes that the first pass unites while it visits the
    voxels [vs]; at [p] the directions [is]. *)
Definition united_at (p : voxel) (dirs : list Z) (a b : Z) : Prop :=
  exists i, i ∈ dirs /\ value p <> backgroundColor /\ in_volume (neighbor p i) /\
            value (neighbor p i) = value p /\ a = node p /\ b = node (neighbor p i).
Definition united (vs : list voxel) (a b : Z) : Prop :=
  exists p, p ∈ vs /\ united_at p (seqZ 0 N) a b.

(** The forest of the first pass: no node is labelled, and two nodes
    have the same root exactly if a chain of the pairs [E] joins them. *)
Definition forest_of (E : relation Z) (c : store) : Prop :=
  wf c /\ (forall m, hasLabel_ (c m) = false) /\
  forall a b, same_root c a b <-> rtsc E a b.

(** What the second pass maintains; [c1] is the forest of the first pass
    and [pre] the voxels already labelled. *)
Record labelled (c1 : store) (pre : list voxel) (s : labelling) : Prop := {
  lab_wf : wf (components s);
  lab_roots : forall m r, root (components s) m r <-> root c1 m r;
  lab_counter : 0 <= label s <= U_MAX /\ label s <> backgroundLabel;
  lab_fresh : forall m, hasLabel_ (components s m) = true ->
      0 <= label_ (components s m) < label s /\ label_ (components s m) <> backgroundLabel;
  lab_inj : forall m m', hasLabel_ (components s m) = true ->
      hasLabel_ (components s m') = true ->
      label_ (components s m) = label_ (components s m') -> m = m';
  lab_bg : forall p, p ∈ pre -> value p = backgroundColor ->
      outputBuffer s (out_at p) = backgroundLabel;
  lab_fg : forall p, p ∈ pre -> value p <> backgroundColor ->
      exists r, root c1 (node p) r /\ hasLabel_ (components s r) = true /\
                outputBuffer s (out_at p) = label_ (components s r);
  lab_stats_len : Z.of_nat (length (statistics s)) = label s;
  lab_stats_bg : 0 <= backgroundLabel < label s ->
      exists st, statistics s !! Z.to_nat backgroundLabel = Some st /\
                 inputLabel_ st = backgroundColor
}.

(** The label handed out last is in the output volume, unless it is the
    reserved one. *)
Definition last_used (pre : list voxel) (s : labelling) : Prop :=
  label s = 0 \/ label s - 1 = backgroundLabel \/
  exists p, p ∈ pre /\ outputBuffer s (out_at p) = label s - 1.

(** The labels in the output volume index the statistics. *)
Definition labels_in_range (pre : list voxel) (s : labelling) : Prop :=
  forall p, p ∈ pre -> 0 <= outputBuffer s (out_at p) < label s.

(** The sum of the pixel counts. *)
Definition total_count (st : list ComponentStatistics) : Z :=
  foldr (fun s n => pixelCount_ s + n) 0 st.

(** The counts cover the voxels [pre] (as long as an [unsigned long] can
    count them). *)
Definition counted (pre : list voxel) (st : list ComponentStatistics) : Prop :=
  Forall (fun s => 0 <= pixelCount_ s) st /\
  (Z.of_nat (length pre) <= ULONG_MAX -> total_count st = Z.of_nat (length pre)).

(** The largest label in the output volume (0 for an empty volume). *)
Definition max_label (out : Z -> Z) : Z :=
  foldr (fun p m => Z.max (out (out_at p)) m) 0 voxels.

(** The number of voxels among [vs] that carry the label [l] in [out]. *)
Definition labelled_with (out : Z -> Z) (l : Z) (vs : list voxel) : Z :=
  Z.of_nat (length (filter (fun p => out (out_at p) = l) vs)).

(** What the second pass maintains about the statistics: an entry counts
    the voxels of its label and carries their input value; every label
    below the counter, the reserved one apart, is in the output volume;
    the counter has grown by at most one per voxel, and by one for the
    reserved label. *)
Record described (c1 : store) (pre : list voxel) (s : labelling) : Prop := {
  des_count : Z.of_nat (length pre) <= ULONG_MAX ->
      forall l st, 0 <= l -> statistics s !! Z.to_nat l = Some st ->
        pixelCount_ st = labelled_with (outputBuffer s) l pre;
  des_value : forall x st, x ∈ pre ->
      statistics s !! Z.to_nat (outputBuffer s (out_at x)) = Some st ->
      inputLabel_ st = value x;
  des_used : forall l, 0 <= l < label s -> l <> backgroundLabel ->
      exists x, x ∈ pre /\ value x <> backgroundColor /\ outputBuffer s (out_at x) = l;
  des_counter : label s <= Z.of_nat (length pre) + 1 /\
      (label s <= backgroundLabel -> label s <= Z.of_nat (length pre));
  des_roots : forall m, hasLabel_ (components s m) = true ->
      exists x, x ∈ pre /\ value x <> backgroundColor /\ root c1 (node x) m /\
                outputBuffer s (out_at x) = label_ (components s m)
}.

(** The nodes of the voxels of the volume. *)
Definition is_node (m : Z) : Prop := exists p, in_volume p /\ m = node p.

End Engine.

(** [int] is 32 bits wide. *)
Definition INT_MAX : Z := 2147483647.

(** *** ConnectedComponentsClr.cpp *)

(** [std::numeric_limits<unsigned short>::max()] *)
Definition USHRT_MAX : Z := 65535.

(** [ConnectedComponents::Find3dWithStatistics]: [unsigned char] voxels,
    [unsigned short] labels, both volumes dense, the reserved label 0. *)
Definition Find3dWithStatistics (image : Z -> Z) (width height depth : Z)
    (backgroundColour : Z) (output : Z -> Z)
  : result (list (@ComponentStatistics Z) * (Z -> Z)) :=
  findConnectedComponents3d USHRT_MAX width height depth
    image (width * height) width backgroundColour
    (width * height) width 0 output.

(** [ConnectedComponents::Find3d]: the number of statistics entries,
    [(int)(result.size())].  The two managed arrays are given by their
    elements and their [Length]; the native code is handed the address
    of their first elements, which is what the lengths are looked at for. *)
Definition Find3d (image : Z -> Z) (image_length : nat) (width height depth : Z)
    (backgroundColour : Z) (output : Z -> Z) (output_length : nat)
  : managed (Z * (Z -> Z)) :=
  if decide (image_length = 0%nat) then Raises IndexOutOfRange
  else if decide (output_length = 0%nat) then Raises IndexOutOfRange
  else rethrown (
    '(result, out) ← findConnectedComponents3d USHRT_MAX width height depth
                       image (width * height) width backgroundColour
                       (width * height) width 0 output;
    Ok (Z.of_nat (length result), out)).

(** A buffer holding the elements [l] from offset 0 on. *)
Definition buffer_of (l : list Z) : Z -> Z := fun a => nth (Z.to_nat a) l 0.

(** What a run leaves in the given cells of the output buffer, and the
    statistics it returns as pairs (pixel count, input label). *)
Definition labels_of {T} (r : result (list (@ComponentStatistics T) * (Z -> Z)))
    (cells : list Z) : option (list Z) :=
  match r with
  | Ok (_, out) => Some (out <$> cells)
  | _ => None
  end.
Definition statistics_of {T} (r : result (list (@ComponentStatistics T) * (Z -> Z)))
  : option (list (Z * T)) :=
  match r with
  | Ok (stats, _) => Some ((fun s => (pixelCount_ s, inputLabel_ s)) <$> stats)
  | _ => None
  end.

End Components.

(** ** IEEE 754 arithmetic of [float] and [double] *)

(** [float] values are the binary32 numbers of the Standard Library's
    executable IEEE 754 specification; [+], [*], [/], [sqrt] and the
    comparisons are its correctly rounded operations. *)
Module Float32.

Definition prec : Z := 24.
Definition emax : Z := 128.
Definition float : Type := spec_float.

Definition add : float -> float -> float := SFadd prec emax.
Definition mul : float -> float -> float := SFmul prec emax.
Definition div : float -> float -> float := SFdiv prec emax.
Definition sqrt : float -> float := SFsqrt prec emax.
Definition opp : float -> float := SFopp.
Definition leb : float -> float -> bool := SFleb.
Definition ltb : float -> float -> bool := SFltb.

(** The number [m * 2^e], rounded to binary32. *)
Definition dyadic (m e : Z) : float := binary_normalize prec emax m e false.
(** [float(z)] for an integer [z]. *)
Definition of_Z (z : Z) : float := dyadic z 0.
Definition zero : float := S754_zero false.

Definition is_finite (x : float) : bool :=
  match x with
  | S754_zero _ | S754_finite _ _ _ => true
  | S754_infinity _ | S754_nan => false
  end.

(** The integer part of [x], rounding toward zero: the value of a cast to
    an integer type that can hold it.  (The cast of an infinity or a NaN,
    which C++ leaves undefined, reads as 0 here.) *)
Definition trunc (x : float) : Z :=
  match x with
  | S754_finite s m e =>
      cond_Zopp s (match e with
                   | Zneg k => Z.pos m / 2 ^ Z.pos k
                   | _ => Z.pos m * 2 ^ e
                   end)
  | _ => 0
  end.

(** [floor(x)] *)
Definition floor (x : float) : float :=
  match x with
  | S754_finite s m (Zneg k) =>
      binary_normalize prec emax (cond_Zopp s (Z.pos m) / 2 ^ Z.pos k) 0 s
  | _ => x
  end.

(** [static_cast<int>(x)]: undefined unless the truncated value fits. *)
Definition to_int (x : float) : result Z :=
  if is_finite x && (-2147483648 <=? trunc x) && (trunc x <=? 2147483647)
  then Ok (trunc x) else Undefined.

Global Instance float_inhabited : Inhabited float := populate zero.

(** The whole millionths in [x]: [floor(x * 10^6)] computed exactly, by
    which a coefficient is read to six decimals. *)
Definition millionths (x : float) : Z :=
  match x with
  | S754_finite s m e =>
      match e with
      | Zneg k => (cond_Zopp s (Z.pos m) * 1000000) / 2 ^ Z.pos k
      | _ => cond_Zopp s (Z.pos m) * 1000000 * 2 ^ e
      end
  | _ => 0
  end.

(** [x] is one of the nine positive numbers [m * 2^e] with [m] within 4
    of [m0]: a result of the math library that is accurate to 4 units in
    the last place, when [m0 * 2^e] is the exact result rounded. *)
Definition near (m0 e : Z) (x : spec_float) : Prop :=
  exists m, m0 - 4 <= m <= m0 + 4 /\ x = S754_finite false (Z.to_pos m) e.

(** [x] is a NaN or carries the sign [s]. *)
Definition has_sign (s : bool) (x : float) : Prop :=
  match x with
  | S754_zero s' | S754_infinity s' | S754_finite s' _ _ => s' = s
  | S754_nan => True
  end.

(** Zeros of either sign, positive numbers, [+inf] and NaN. *)
Definition not_negative (x : float) : Prop :=
  match x with
  | S754_infinity true | S754_finite true _ _ => False
  | _ => True
  end.

End Float32.

Module Float64.

Definition prec : Z := 53.
Definition emax : Z := 1024.

Definition mul : spec_float -> spec_float -> spec_float := SFmul prec emax.
Definition dyadic (m e : Z) : spec_float := binary_normalize prec emax m e false.

(** The implicit conversion [float] to [double] is exact. *)
Definition of_float (x : Float32.float) : spec_float :=
  match x with
  | S754_finite s m e => binary_round prec emax s m e
  | _ => x
  end.

(** [static_cast<float>(x)] rounds to nearest. *)
Definition to_float (x : spec_float) : Float32.float :=
  match x with
  | S754_finite s m e => binary_round Float32.prec Float32.emax s m e
  | _ => x
  end.

(** [x] is a [double] between 0 and 1: what [exp] returns for an argument
    that is not positive, when the math library keeps it in range. *)
Definition unit_interval (x : spec_float) : bool :=
  valid_binary prec emax x && SFleb (S754_zero false) x && SFleb x (dyadic 1 0).

End Float64.

(** ** convolution.h *)

Module Convolution.
Import Float32.

(** The pixel codec: [readerT<T>] and [writerT<T>], one instance per
    explicit specialisation. *)
Class Pixel (T : Type) := {
  readerT : T -> float;
  writerT : float -> T
}.

Global Instance Pixel_float : Pixel float := {|
  readerT x := x;
  writerT x := x
|}.

(** [unsigned char] *)
Definition readerT_uchar (x : Z) : float := of_Z x.
Definition writerT_uchar (x : float) : Z :=
  if leb x (of_Z 0) then 0
  else if ltb (of_Z 255) x then 255
  else trunc (add x (dyadic 1 (-1))) mod 256.

(** [short] *)
Definition SHRT_MIN : Z := -32768.
Definition SHRT_MAX : Z := 32767.
Definition readerT_short (x : Z) : float := of_Z x.
Definition writerT_short (x : float) : Z :=
  let minimum := SHRT_MIN in
  let maximum := SHRT_MAX in
  if leb x (of_Z minimum) then minimum
  else if ltb (of_Z maximum) x then maximum
  else trunc (add x (dyadic 1 (-1))).

(** The two integer pixel types are both carried by [Z]; the wrappers
    keep their codecs apart. *)
Record uchar := UChar { uchar_val : Z }.
Record short := Short { short_val : Z }.

Global Instance Pixel_uchar : Pixel uchar := {|
  readerT x := readerT_uchar (uchar_val x);
  writerT x := UChar (writerT_uchar x)
|}.

Global Instance Pixel_short : Pixel short := {|
  readerT x := readerT_short (short_val x);
  writerT x := Short (writerT_short x)
|}.

(** The inner loop of [convolve_reference]: the kernel against the window
    of [input] that starts at [u]. *)
Definition window_sum (kernel input : list float) (kernelRadius u : nat) : float :=
  foldl (fun sum k => add sum (mul (kernel !!! k) (input !!! (u + k)%nat)))
        zero (seq 0 (2 * kernelRadius + 1)).

(** [convolve_reference]; [width] is the length of [input]. *)
Definition convolve_reference (input : list float) (width : nat)
    (kernel : list float) (kernelRadius : nat) (output : list float) : list float :=
  foldl (fun o u => <[u := window_sum kernel input kernelRadius u]> o)
        output (seq 0 (width - 2 * kernelRadius)).

(** The scratch rows of one worker. *)
Record ThreadData := mkThreadData {
  inputRow : list float;
  outputRow : list float
}.

(** [ThreadData(width, kernel, kernelRadius)] *)
Definition ThreadData_new (width kernelRadius : nat) : ThreadData :=
  mkThreadData (replicate (width + 2 * kernelRadius) zero) (replicate width zero).

Section Convolve.
Context {T : Type} `{Pixel T}.

(** The gather loop: [*p++ = Reader(q); q += hop] from [q = buffer + v*stride]. *)
Definition gather (width kernelRadius : nat) (buffer : Z -> T) (q hop : Z)
    (row : list float) : list float :=
  foldl (fun row u => <[(kernelRadius + u)%nat := readerT (buffer (q + Z.of_nat u * hop))]> row)
        row (seq 0 width).

(** The loop under [// mirror edges]. *)
Definition mirror (width kernelRadius : nat) (row : list float) : list float :=
  foldl (fun row u =>
           let row1 := <[(kernelRadius - 1 - u)%nat := row !!! (kernelRadius + u)%nat]> row in
           <[(kernelRadius + width + u)%nat := row1 !!! (kernelRadius + width - 1 - u)%nat]> row1)
        row (seq 0 kernelRadius).

(** The scatter loop: [Writer( *s++, r); r += hop] from [r = buffer + v*stride]. *)
Definition scatter (width : nat) (out : list float) (r hop : Z) (buffer : Z -> T) : Z -> T :=
  foldl (fun b u => <[r + Z.of_nat u * hop := writerT (out !!! u)]> b) buffer (seq 0 width).

(** One iteration of the row loop of [convolve], run by a worker that
    owns the scratch rows [t]. *)
Definition convolve_row (width : nat) (base hop stride : Z)
    (kernel : list float) (kernelRadius : nat) (v : nat)
    (s : ThreadData * (Z -> T)) : ThreadData * (Z -> T) :=
  let '(t, buffer) := s in
  let q := base + Z.of_nat v * stride in
  let input := mirror width kernelRadius (gather width kernelRadius buffer q hop (inputRow t)) in
  let output := convolve_reference input (width + 2 * kernelRadius) kernel kernelRadius (outputRow t) in
  (mkThreadData input output, scatter width output q hop buffer).

(** [convolve<T>] on the slice that starts [base] bytes into [buffer].
    The rows are independent of each other; they are run here by a single
    worker in increasing order. *)
Definition convolve (width height : nat) (buffer : Z -> T) (base hop stride : Z)
    (kernel : list float) (kernelRadius : nat) : Z -> T :=
  snd (foldl (fun s v => convolve_row width base hop stride kernel kernelRadius v s)
         (ThreadData_new width kernelRadius, buffer) (seq 0 height)).

(** [convolve1d<T>] *)
Definition convolve1d (width height depth : nat) (buffer : Z -> T) (leap stride hop : Z)
    (direction : Z) (kernel : list float) (kernelWidth : nat) : result (Z -> T) :=
  match direction with
  | 0 => Ok (foldl (fun b z => convolve width height b (Z.of_nat z * leap) hop stride kernel kernelWidth)
               buffer (seq 0 depth))
  | 1 => Ok (foldl (fun b z => convolve height width b (Z.of_nat z * leap) stride hop kernel kernelWidth)
               buffer (seq 0 depth))
  | 2 => Ok (foldl (fun b y => convolve depth width b (Z.of_nat y * stride) leap hop kernel kernelWidth)
               buffer (seq 0 height))
  | _ => Throw DirectionOutOfRange
  end.

(** The rows of [convolve], run in the order [order] (the rows of the
    parallel loop may be run in any order). *)
Definition convolve_in (order : list nat) (width : nat) (buffer : Z -> T)
    (base hop stride : Z) (kernel : list float) (kernelRadius : nat) : Z -> T :=
  snd (foldl (fun s v => convolve_row width base hop stride kernel kernelRadius v s)
         (ThreadData_new width kernelRadius, buffer) order).

(** *** The same loops, every access checked

    The definitions above read a [std::vector] or the kernel array past
    its end as a default value and skip a write past the end.  The ones
    below follow the same code and make each such access undefined, as
    the language does: [v[i]] and the address [&v[i]] of an element of a
    vector of [size() <= i], a read or write through a pointer that has
    left the vector, and [kernel[k]] past the coefficients that the
    caller has passed. *)

(** [v[i]], read *)
Definition at_ (v : list float) (i : nat) : result float :=
  match v !! i with
  | Some x => Ok x
  | None => Undefined
  end.











(** *** What a sweep computes *)

(** The samples at [start], [start + step], ... of a line of [n] voxels. *)
Definition line (buffer : Z -> T) (start step : Z) (n : nat) : list float :=
  (fun u => readerT (buffer (start + Z.of_nat u * step))) <$> seq 0 n.

(** Distinct voxels of the volume have distinct offsets in the buffer. *)
Definition distinct_samples (width height depth : nat) (leap stride hop : Z) : Prop :=
  forall x y z x' y' z' : nat,
    (x < width)%nat -> (y < height)%nat -> (z < depth)%nat ->
    (x' < width)%nat -> (y' < height)%nat -> (z' < depth)%nat ->
    Z.of_nat z * leap + Z.of_nat y * stride + Z.of_nat x * hop
    = Z.of_nat z' * leap + Z.of_nat y' * stride + Z.of_nat x' * hop ->
    x = x' /\ y = y' /\ z = z'.

End Convolve.

(** A row with [r] samples mirrored outward at either end, the sample at
    the edge first. *)
Definition mirror_pad (r : nat) (row : list float) : list float :=
  reverse (take r row) ++ row ++ reverse (drop (length row - r) row).

(** The kernel against the mirror-padded row, for the sample [u]. *)
Definition filtered (kernel : list float) (r : nat) (row : list float) (u : nat) : float :=
  window_sum kernel (mirror_pad r row) r u.

(** The elements that a run leaves at the given offsets of the buffer. *)
Definition cells_of {T} (r : result (Z -> T)) (cells : list Z) : option (list T) :=
  match r with
  | Ok b => Some (b <$> cells)
  | _ => None
  end.

(** Dense buffers of [float] (4 bytes), [short] (2 bytes) and
    [unsigned char] elements, addressed by byte offset. *)
Definition float_buffer (l : list float) : Z -> float :=
  fun a => nth (Z.to_nat (a / 4)) l zero.
Definition short_buffer (l : list Z) : Z -> short :=
  fun a => Short (nth (Z.to_nat (a / 2)) l 0).
Definition uchar_buffer (l : list Z) : Z -> uchar :=
  fun a => UChar (nth (Z.to_nat a) l 0).

(** *** SseConvolver.h: the constructor *)

(** The scalar members; the aligned SIMD copies of kernel and input hold
    the same numbers and are left out. *)
Record SseConvolver := mkSseConvolver {
  kernel_ : list float;
  kernel_radius_ : nat;
  padBytes_ : nat;
  length_ : nat
}.

Definition SseConvolver_new (kernel : list float) (kernel_length length : nat)
  : result SseConvolver :=
  if (length <=? kernel_length)%nat then Throw KernelTooLarge
  else
    let padBytes := ((4 - kernel_length mod 4) mod 4)%nat in
    Ok {| kernel_ := take kernel_length kernel ++ replicate padBytes zero;
          kernel_radius_ := (kernel_length / 2)%nat;
          padBytes_ := padBytes;
          length_ := length |}.

End Convolution.

(** ** GaussianKernel1D.cpp *)

Module Kernel.
Import Float32.

Record GaussianKernel1D := mkKernel {
  _radius : Z;
  _data : list float
}.

Section Builder.
(** The C math library is not part of the repository: [log] on [float],
    [pow] from [float] and [int] to [double], [exp] on [double]. *)
Variable libm_log : float -> float.
Variable libm_pow : float -> Z -> spec_float.
Variable libm_exp : spec_float -> spec_float.

(** [3.141592f], the binary32 number nearest to 3141592/1000000. *)
Definition PACKAGE_PI : float := div (of_Z 3141592) (of_Z 1000000).

(** The coefficient stored at [_data[_radius + x]].  (The constructor also
    adds the coefficients up in a local [sum], which it never reads.) *)
Definition coefficient (sigma : float) (x : Z) : float :=
  Float64.to_float
    (Float64.mul
       (Float64.of_float (div (of_Z 1) (mul sigma (sqrt (mul (of_Z 2) PACKAGE_PI)))))
       (libm_exp (Float64.mul (SFopp (Float64.dyadic 1 (-1)))
                    (libm_pow (div (of_Z x) sigma) 2)))).

Definition GaussianKernel1D_new (sigma tol : float) : result GaussianKernel1D :=
  let sigma := if ltb sigma zero then opp sigma else sigma in
  let tol := if ltb tol zero then opp tol else tol in
  radius ← to_int (floor (mul sigma (sqrt (mul (of_Z 2) (libm_log (div (of_Z 1) tol))))));
  (* [2 * _radius + 1] is computed in [int] *)
  if Components.INT_MAX <? 2 * radius + 1 then Undefined else
  Ok (mkKernel radius (coefficient sigma <$> seqZ (- radius) (2 * radius + 1))).

End Builder.
End Kernel.

(** ** ImageProcessingClr/ConvolutionClr.cpp *)

Module ConvolutionClr.
Import Float32 Convolution Kernel.

(** The default [tol = 0.001] of the kernel builder: a [double] literal
    converted to [float]. *)
Definition default_tol : float :=
  Float64.to_float (SFdiv Float64.prec Float64.emax (Float64.dyadic 1 0) (Float64.dyadic 1000 0)).

Section Convolve.
Variable libm_log : float -> float.
Variable libm_pow : float -> Z -> spec_float.
Variable libm_exp : spec_float -> spec_float.
Context {T : Type} `{Pixel T}.
(** [sizeof(T)] *)
Variable size : Z.
Variables width height depth : nat.

(** One round of the loop: the kernel for [sigmas[d]], then the sweep in
    the direction [directions[d]] over the dense volume. *)
Definition pass (data : Z -> T) (direction : Z) (sigma : float) : result (Z -> T) :=
  kernel ← GaussianKernel1D_new libm_log libm_pow libm_exp sigma default_tol;
  convolve1d width height depth data
    (Z.of_nat width * Z.of_nat height * size) (Z.of_nat width * size) size
    direction (_data kernel) (Z.to_nat (_radius kernel)).

(** The loop over [d].  The array is filtered in place, so that the
    passes made before an exception stay in it. *)
Fixpoint passes (data : Z -> T) (l : list (Z * float)) : (Z -> T) * managed unit :=
  match l with
  | [] => (data, Returns tt)
  | (direction, sigma) :: l' =>
      match pass data direction sigma with
      | Ok data' => passes data' l'
      | Throw e => (data, Raises (Native e))
      | Undefined | NoFuel => (data, Unspecified)
      end
  end.

(** [Convolution::Convolve], for each of the three pixel types; [data]
    holds the elements of the array by their byte offset, and
    [data_length] is its [Length]. *)
Definition Convolve (data : Z -> T) (data_length : nat) (directions : list Z)
    (sigmas : list float) : (Z -> T) * managed unit :=
  if decide (length directions = length sigmas)
  then if decide (data_length = 0%nat) then (data, Raises IndexOutOfRange)
       else passes data (zip directions sigmas)
  else (data, Raises ArraysLength).

(** The volume lies in the array and its size in bytes is an [int]: what
    the native code relies on and does not check. *)
Definition volume_fits (data_length : nat) : Prop :=
  (0 < width)%nat /\ (0 < height)%nat /\ (0 < depth)%nat /\ 0 < size /\
  (width * height * depth <= data_length)%nat /\
  Z.of_nat width * Z.of_nat height * Z.of_nat depth * size <= Components.INT_MAX.

End Convolve.
End ConvolutionClr.
(** * Facts *)

(** ** The disjoint-set forest *)

Module DisjointSetFacts.
Import DisjointSet.

Lemma result_bind_Ok {A B} (m : result A) (k : A -> result B) b :
  (m ≫= k) = Ok b -> exists a, m = Ok a /\ k a = Ok b.
Proof. destruct m; simpl; intros; try discriminate. eauto. Qed.

Lemma root_det c n r r' : root c n r -> root c n r' -> r = r'.
Proof.
  induction 1 as [n Hn|n p r Hp _ IH]; inversion 1; subst; try congruence.
  apply IH. congruence.
Qed.

Lemma root_is_root c n r : root c n r -> parent_ (c r) = None.
Proof. induction 1; auto. Qed.

Lemma root_of_root c r : parent_ (c r) = None -> forall r', root c r r' -> r' = r.
Proof. intros Hr r' H. inversion H; subst; congruence. Qed.

Lemma root_rank c n r : wf c -> root c n r -> rank_ (c n) <= rank_ (c r).
Proof.
  intros Hwf. induction 1 as [|n p r Hp _ IH]; [lia|].
  destruct (Hwf n) as [_ H]. specialize (H _ Hp). lia.
Qed.

Lemma root_rank_lt c n r :
  wf c -> root c n r -> parent_ (c n) <> None -> rank_ (c n) < rank_ (c r).
Proof.
  intros Hwf H Hn. inversion H as [|? p ? Hp Hr]; subst; [congruence|].
  destruct (Hwf n) as [_ Hlt]. specialize (Hlt _ Hp).
  pose proof (root_rank _ _ _ Hwf Hr). lia.
Qed.

Lemma root_ext c c' :
  (forall m, parent_ (c' m) = parent_ (c m)) -> forall n r, root c n r -> root c' n r.
Proof.
  intros Hp n r. induction 1 as [n Hn|n p r Hn _ IH].
  - apply root_here. by rewrite Hp.
  - eapply root_step; [by rewrite Hp|done].
Qed.

Lemma find_rec_total c : wf c ->
  forall fuel n, RANK_MAX - rank_ (c n) < Z.of_nat fuel ->
    exists r c', find_rec fuel c n = Ok (r, c').
Proof.
  intros Hwf. induction fuel as [|fuel IH]; intros n Hn.
  - destruct (Hwf n) as [? _]. lia.
  - change (find_rec (S fuel)) with (find_body (find_rec fuel)). unfold find_body.
    destruct (parent_ (c n)) as [p|] eqn:Hp; [|eauto].
    destruct (Hwf n) as [_ Hlt]. specialize (Hlt _ Hp).
    destruct (IH p) as (r & c' & ->); [lia|]. simpl. eauto.
Qed.

Lemma find_unroll c n :
  find c n = find_rec (Pos.to_nat (Z.to_pos (RANK_MAX + 1 - rank_ (c n)))) c n.
Proof. unfold find, find_rec, Nat.iter. by rewrite Pos2Nat.inj_iter. Qed.

Lemma find_total c n : wf c -> exists r c', find c n = Ok (r, c').
Proof.
  intros Hwf. rewrite find_unroll. apply find_rec_total; [done|].
  destruct (Hwf n) as [? _]. rewrite positive_nat_Z. lia.
Qed.

Lemma compressed_refl c : compressed c c.
Proof. intros m. auto. Qed.

Lemma find_rec_Ok fuel : forall c n r c',
  find_rec fuel c n = Ok (r, c') ->
  root c n r /\ compressed c c' /\
  (forall m, on_chain c n m -> m <> r -> parent_ (c' m) = Some r).
Proof.
  induction fuel as [|fuel IH]; intros c n r c' Hf; [discriminate|].
  change (find_rec (S fuel)) with (find_body (find_rec fuel)) in Hf. unfold find_body in Hf.
  destruct (parent_ (c n)) as [p|] eqn:Hp.
  - apply result_bind_Ok in Hf as ([r0 c0] & Hrec & Hf). injection Hf as -> <-.
    destruct (IH _ _ _ _ Hrec) as (Hroot & Hc & Hchain).
    split; [eapply root_step; eauto|]. split.
    + intros m. destruct (decide (n = m)) as [->|Hne].
      * rewrite fn_lookup_insert. simpl. destruct (Hc m) as (-> & -> & -> & _).
        repeat split; auto. right. split; [congruence|].
        exists r. split; [done|]. eapply root_step; eauto.
      * rewrite fn_lookup_insert_ne by done. apply Hc.
    + intros m Hm Hne. destruct (decide (n = m)) as [->|Hnm].
      * by rewrite fn_lookup_insert.
      * rewrite fn_lookup_insert_ne by done. apply Hchain; [|done].
        apply rtc_inv in Hm as [?|(q & Hq & Hm)]; [done|].
        by assert (q = p) as -> by congruence.
  - injection Hf as <- <-. split; [by apply root_here|]. split; [apply compressed_refl|].
    intros m Hm Hne. apply rtc_inv in Hm as [?|(q & Hq & _)]; congruence.
Qed.

Lemma find_Ok c n r c' :
  find c n = Ok (r, c') ->
  root c n r /\ compressed c c' /\
  (forall m, on_chain c n m -> m <> r -> parent_ (c' m) = Some r).
Proof. rewrite find_unroll. apply find_rec_Ok. Qed.

Lemma compressed_root_fwd c c' :
  compressed c c' -> forall m r, root c m r -> root c' m r.
Proof.
  intros Hc m r. induction 1 as [n Hn|n p r Hn Hr IH].
  - apply root_here. destruct (Hc n) as (_ & _ & _ & [->|[? _]]); done.
  - destruct (Hc n) as (_ & _ & _ & [Heq|(_ & r0 & Hr0 & Hroot)]).
    + eapply root_step; [by rewrite Heq|done].
    + assert (r0 = r) as -> by (eapply root_det; [done|]; eapply root_step; eauto).
      eapply root_step; [done|]. apply root_here.
      pose proof (root_is_root _ _ _ Hr) as Hrr.
      destruct (Hc r) as (_ & _ & _ & [->|[? _]]); done.
Qed.

Lemma root_total c n : wf c -> exists r, root c n r.
Proof.
  intros Hwf. destruct (find_total c n Hwf) as (r & c' & Hf).
  exists r. by apply find_Ok in Hf as (? & _).
Qed.

Lemma compressed_root c c' :
  wf c -> compressed c c' -> forall m r, root c' m r <-> root c m r.
Proof.
  intros Hwf Hc m r. split; [|by apply compressed_root_fwd].
  intros H'. destruct (root_total c m Hwf) as [r0 Hr0].
  pose proof (compressed_root_fwd _ _ Hc _ _ Hr0) as H0.
  by rewrite (root_det _ _ _ _ H' H0).
Qed.

Lemma compressed_wf c c' : wf c -> compressed c c' -> wf c'.
Proof.
  intros Hwf Hc n. destruct (Hc n) as (Hr & _ & _ & Hp). rewrite Hr.
  split; [apply Hwf|]. intros p Hn. destruct (Hc p) as (-> & _).
  destruct Hp as [Heq|(Hnn & r & Hr' & Hroot)].
  - apply Hwf. congruence.
  - assert (p = r) as -> by congruence. by apply root_rank_lt.
Qed.

Lemma compressed_trans c1 c2 c3 :
  wf c1 -> compressed c1 c2 -> compressed c2 c3 -> compressed c1 c3.
Proof.
  intros Hwf H12 H23 m.
  destruct (H12 m) as (R1 & L1 & B1 & P1), (H23 m) as (R2 & L2 & B2 & P2).
  repeat split; try congruence.
  destruct P2 as [E2|(Hn & r & Hr & Hroot)]; [by rewrite E2|].
  right. split.
  - destruct P1 as [<-|[? _]]; done.
  - exists r. split; [done|]. by apply (compressed_root c1 c2 Hwf H12).
Qed.

(** Hanging the root [b] under the root [a]. *)
Lemma root_link c a b : a <> b ->
  parent_ (c a) = None -> parent_ (c b) = None ->
  forall m r, root (<[b := set_parent (c b) (Some a)]> c) m r <->
              (root c m r /\ r <> b) \/ (root c m b /\ r = a).
Proof.
  intros Hab Ha Hb m r. set (c' := <[b := _]> c).
  assert (Hpa : parent_ (c' a) = None).
  { unfold c'. by rewrite fn_lookup_insert_ne. }
  assert (Hpb : parent_ (c' b) = Some a).
  { unfold c'. by rewrite fn_lookup_insert. }
  assert (Hpo : forall n, n <> b -> parent_ (c' n) = parent_ (c n)).
  { intros n Hn. unfold c'. by rewrite fn_lookup_insert_ne. }
  split.
  - induction 1 as [n Hn|n p r Hn Hr IH].
    + assert (n <> b) by congruence. left. split; [|done].
      apply root_here. by rewrite <- Hpo.
    + destruct (decide (n = b)) as [->|Hnb].
      * assert (p = a) as -> by congruence.
        apply root_of_root in Hr as ->; [|done]. right. split; [by apply root_here|done].
      * rewrite Hpo in Hn by done.
        destruct IH as [[H1 H2]|[H1 H2]]; [left|right]; (split; [eapply root_step; eauto|done]).
  - intros [[H Hne]|[H ->]].
    + induction H as [n Hn|n p r Hn Hr IH].
      * apply root_here. by rewrite Hpo.
      * eapply root_step; [|by apply IH]. rewrite Hpo; [done|]. congruence.
    + remember b as b' eqn:Eb in H. induction H as [n Hn|n p r Hn Hr IH]; subst.
      * eapply root_step; [done|]. by apply root_here.
      * eapply root_step; [|by apply IH]. rewrite Hpo; [done|]. congruence.
Qed.


Lemma same_root_refl c a : wf c -> same_root c a a.
Proof. intros Hwf. destruct (root_total c a Hwf) as [r Hr]. by exists r. Qed.

Lemma same_root_sym c a b : same_root c a b -> same_root c b a.
Proof. intros (r & ? & ?). by exists r. Qed.

Lemma same_root_trans c a b d : same_root c a b -> same_root c b d -> same_root c a d.
Proof.
  intros (r & Ha & Hb) (r' & Hb' & Hd). exists r. split; [done|].
  by rewrite (root_det _ _ _ _ Hb Hb').
Qed.

Lemma same_root_compressed c c' :
  wf c -> compressed c c' -> forall a b, same_root c' a b <-> same_root c a b.
Proof.
  intros Hwf Hc a b. unfold same_root.
  split; intros (r & Ha & Hb); exists r; split; by apply (compressed_root c c' Hwf Hc).
Qed.

Lemma same_root_link c l w : wf c -> w <> l ->
  parent_ (c w) = None -> parent_ (c l) = None ->
  forall a b, same_root (<[l := set_parent (c l) (Some w)]> c) a b <->
    same_root c a b \/ (root c a w /\ root c b l) \/ (root c a l /\ root c b w).
Proof.
  intros Hwf Hwl Hw Hl a b. unfold same_root. setoid_rewrite (root_link c w l Hwl Hw Hl).
  split.
  - intros (r & [[Ha Hr]|[Ha ->]] & [[Hb Hr']|[Hb Er]]); eauto 7.
    subst. eauto 7.
  - intros [(r & Ha & Hb)|[[Ha Hb]|[Ha Hb]]].
    + destruct (decide (r = l)) as [->|Hne]; [exists w|exists r]; eauto 7.
    + exists w. eauto 7.
    + exists w. eauto 7.
Qed.

Lemma wf_link c l w : wf c ->
  parent_ (c l) = None -> rank_ (c l) < rank_ (c w) ->
  wf (<[l := set_parent (c l) (Some w)]> c).
Proof.
  intros Hwf Hl Hlt n. assert (l <> w) by (intros ->; lia).
  destruct (decide (l = n)) as [->|Hn].
  - rewrite fn_lookup_insert. simpl. split; [apply Hwf|].
    intros p [= <-]. by rewrite fn_lookup_insert_ne.
  - rewrite fn_lookup_insert_ne by done. split; [apply Hwf|].
    intros p Hp. destruct (decide (l = p)) as [->|Hlp].
    + rewrite fn_lookup_insert. simpl. by apply Hwf.
    + rewrite fn_lookup_insert_ne by done. by apply Hwf.
Qed.

Lemma wf_link_bump c l w : wf c -> w <> l ->
  parent_ (c l) = None -> parent_ (c w) = None ->
  rank_ (c l) = rank_ (c w) -> rank_ (c w) <> RANK_MAX ->
  let c3 := <[l := set_parent (c l) (Some w)]> c in
  wf (<[w := set_rank (c3 w) (rank_ (c3 w) + 1)]> c3).
Proof.
  intros Hwf Hwl Hl Hw Heq Hmax c3 n.
  assert (Hc3w : c3 w = c w) by (unfold c3; by rewrite fn_lookup_insert_ne).
  rewrite Hc3w. pose proof (Hwf w) as [Hbw _].
  assert (Hrank : forall m, rank_ (c m) <= rank_ ((<[w := set_rank (c w) (rank_ (c w) + 1)]> c3) m)).
  { intros m. destruct (decide (w = m)) as [->|Hm].
    - rewrite fn_lookup_insert. simpl. lia.
    - rewrite fn_lookup_insert_ne by done. unfold c3.
      destruct (decide (l = m)) as [->|Hm'].
      + rewrite fn_lookup_insert. simpl. lia.
      + rewrite fn_lookup_insert_ne by done. lia. }
  destruct (decide (w = n)) as [->|Hn].
  - rewrite fn_lookup_insert. simpl. split; [lia|]. congruence.
  - rewrite fn_lookup_insert_ne by done. unfold c3 in *.
    destruct (decide (l = n)) as [->|Hln].
    + rewrite fn_lookup_insert. simpl. split; [apply Hwf|].
      intros p [= <-]. rewrite fn_lookup_insert. simpl. lia.
    + rewrite fn_lookup_insert_ne by done. split; [apply Hwf|].
      intros p Hp. destruct (Hwf n) as [_ Hlt]. specialize (Hlt _ Hp).
      specialize (Hrank p). lia.
Qed.

(** The shape of every run of [unite] on a forest: both [find]s return,
    and what follows depends on the two roots and their ranks only. *)
Lemma unite_finds c x y : wf c ->
  exists xRoot c1 yRoot c2,
    find c x = Ok (xRoot, c1) /\ find c1 y = Ok (yRoot, c2) /\
    wf c1 /\ wf c2 /\ compressed c c1 /\ compressed c1 c2 /\ compressed c c2 /\
    root c x xRoot /\ root c y yRoot /\
    parent_ (c2 xRoot) = None /\ parent_ (c2 yRoot) = None.
Proof.
  intros Hwf.
  destruct (find_total c x Hwf) as (xr & c1 & Hfx).
  pose proof (find_Ok _ _ _ _ Hfx) as (Hx & Hc1 & _).
  pose proof (compressed_wf _ _ Hwf Hc1) as Hwf1.
  destruct (find_total c1 y Hwf1) as (yr & c2 & Hfy).
  pose proof (find_Ok _ _ _ _ Hfy) as (Hy & Hc2 & _).
  pose proof (compressed_wf _ _ Hwf1 Hc2) as Hwf2.
  pose proof (compressed_trans _ _ _ Hwf Hc1 Hc2) as Hc.
  exists xr, c1, yr, c2. split_and!; try done.
  - by apply (compressed_root c c1 Hwf Hc1).
  - apply (root_is_root c2 x). by apply (compressed_root c c2 Hwf Hc).
  - apply (root_is_root c2 y). by apply (compressed_root c1 c2 Hwf1 Hc2).
Qed.

Ltac fn_cases :=
  repeat match goal with
    | |- context [(<[?a := _]> _) ?b] =>
        destruct (decide (a = b)) as [->|?];
        [rewrite fn_lookup_insert | rewrite fn_lookup_insert_ne by done]
    end.

Lemma unite_Ok c x y c' : wf c -> unite c x y = Ok c' ->
  wf c' /\
  (forall m, rank_ (c m) <= rank_ (c' m)) /\
  (forall m, hasLabel_ (c' m) = hasLabel_ (c m) /\ label_ (c' m) = label_ (c m)) /\
  (forall a b, same_root c' a b <->
     same_root c a b \/ (same_root c a x /\ same_root c y b)
                     \/ (same_root c a y /\ same_root c x b)).
Proof.
  intros Hwf Hu.
  destruct (unite_finds c x y Hwf)
    as (xr & c1 & yr & c2 & Hfx & Hfy & Hwf1 & Hwf2 & Hc1 & Hc12 & Hc & Hx & Hy & Hpx & Hpy).
  unfold unite in Hu. rewrite Hfx in Hu. cbn [mbind result_bind] in Hu.
  rewrite Hfy in Hu. cbn [mbind result_bind] in Hu.
  assert (Hrk : forall m, rank_ (c2 m) = rank_ (c m)) by (intros m; apply Hc).
  assert (Hlb : forall m, hasLabel_ (c2 m) = hasLabel_ (c m) /\ label_ (c2 m) = label_ (c m))
    by (intros m; destruct (Hc m) as (_ & ? & ? & _); done).
  assert (Hsr : forall a b, same_root c2 a b <-> same_root c a b)
    by (apply same_root_compressed; done).
  assert (Hrt : forall m r, root c2 m r <-> root c m r)
    by (apply compressed_root; done).
  assert (Hax : forall a, root c2 a xr <-> same_root c a x).
  { intros a. rewrite Hrt. split; [intros ?; by exists xr|].
    intros (r & Ha & Hr). by rewrite (root_det _ _ _ _ Hx Hr). }
  assert (Hay : forall a, root c2 a yr <-> same_root c a y).
  { intros a. rewrite Hrt. split; [intros ?; by exists yr|].
    intros (r & Ha & Hr). by rewrite (root_det _ _ _ _ Hy Hr). }
  assert (Hsym : forall a b, same_root c a b <-> same_root c b a)
    by (split; apply same_root_sym).
  destruct (Z.ltb_spec (rank_ (c2 yr)) (rank_ (c2 xr))) as [Hlt|Hge].
  { injection Hu as <-. split; [by apply wf_link|]. split; [|split].
    - intros m. rewrite <- Hrk. fn_cases; simpl; lia.
    - intros m. rewrite <- !(proj1 (Hlb m)), <- !(proj2 (Hlb m)). fn_cases; done.
    - intros a b. rewrite same_root_link; [|done|intros ->; lia|done|done].
      rewrite !Hax, !Hay, Hsr, (Hsym y b), (Hsym x b).
      rewrite (Hsym b y), (Hsym b x). tauto. }
  destruct (Z.ltb_spec (rank_ (c2 xr)) (rank_ (c2 yr))) as [Hlt|Hge'].
  { injection Hu as <-. split; [by apply wf_link|]. split; [|split].
    - intros m. rewrite <- Hrk. fn_cases; simpl; lia.
    - intros m. rewrite <- !(proj1 (Hlb m)), <- !(proj2 (Hlb m)). fn_cases; done.
    - intros a b. rewrite same_root_link; [|done|intros ->; lia|done|done].
      rewrite !Hax, !Hay, Hsr, (Hsym y b), (Hsym x b).
      rewrite (Hsym b y), (Hsym b x). tauto. }
  destruct (Z.eqb_spec xr yr) as [->|Hne]; simpl in Hu.
  { injection Hu as <-. split; [done|]. split; [intros m; rewrite Hrk; lia|].
    split; [done|].
    intros a b. rewrite Hsr. split; [tauto|].
    intros [?|[[Ha Hb]|[Ha Hb]]]; [done| |].
    - apply Hax in Ha. apply Hsym, Hay in Hb. apply Hsr. by exists yr.
    - apply Hay in Ha. apply Hsym, Hax in Hb. apply Hsr. by exists yr. }
  rewrite (fn_lookup_insert_ne _ yr xr) in Hu by done.
  destruct (Z.eqb_spec (rank_ (c2 xr)) RANK_MAX) as [Hmax|Hmax]; [discriminate|].
  pose proof (Hwf2 xr) as [Hb _].
  rewrite Z.mod_small in Hu by (unfold RANK_MAX in *; lia).
  injection Hu as <-.
  pose proof (wf_link_bump c2 yr xr Hwf2 Hne Hpy Hpx ltac:(lia) Hmax) as Hwf'.
  simpl in Hwf'. rewrite (fn_lookup_insert_ne _ yr xr) in Hwf' by done.
  split; [done|]. split; [|split].
  - intros m. rewrite <- Hrk. fn_cases; simpl; lia.
  - intros m. rewrite <- !(proj1 (Hlb m)), <- !(proj2 (Hlb m)). fn_cases; done.
  - intros a b.
    set (c3 := <[yr := set_parent (c2 yr) (Some xr)]> c2).
    assert (Hc3 : forall m r, root (<[xr := set_rank (c2 xr) (rank_ (c2 xr) + 1)]> c3) m r
                            <-> root c3 m r).
    { intros m r. split; apply root_ext; intros n; (destruct (decide (xr = n)) as [->|Hn];
        [rewrite fn_lookup_insert; simpl; unfold c3; by rewrite fn_lookup_insert_ne
        |by rewrite fn_lookup_insert_ne]). }
    unfold same_root at 1. setoid_rewrite Hc3. fold (same_root c3 a b). unfold c3.
    rewrite same_root_link; [|done..].
    rewrite !Hax, !Hay, Hsr, (Hsym y b), (Hsym x b).
    rewrite (Hsym b y), (Hsym b x). tauto.
Qed.

Lemma unite_unfold c x y xRoot c1 yRoot c2 :
  find c x = Ok (xRoot, c1) -> find c1 y = Ok (yRoot, c2) ->
  unite c x y =
  if rank_ (c2 yRoot) <? rank_ (c2 xRoot) then
    Ok (<[yRoot := set_parent (c2 yRoot) (Some xRoot)]> c2)
  else if rank_ (c2 xRoot) <? rank_ (c2 yRoot) then
    Ok (<[xRoot := set_parent (c2 xRoot) (Some yRoot)]> c2)
  else if negb (xRoot =? yRoot) then
    let c3 := <[yRoot := set_parent (c2 yRoot) (Some xRoot)]> c2 in
    if rank_ (c3 xRoot) =? RANK_MAX then Throw GraphOverflow
    else Ok (<[xRoot := set_rank (c3 xRoot) ((rank_ (c3 xRoot) + 1) mod (RANK_MAX + 1))]> c3)
  else Ok c2.
Proof.
  intros Hfx Hfy. unfold unite. rewrite Hfx. cbn [mbind result_bind]. by rewrite Hfy.
Qed.

(** On a forest [unite] returns or throws: its recursion bound suffices. *)
Lemma unite_kind c x y : wf c ->
  (exists c', unite c x y = Ok c') \/ unite c x y = Throw GraphOverflow.
Proof.
  intros Hwf.
  destruct (unite_finds c x y Hwf) as (xr & c1 & yr & c2 & Hfx & Hfy & _).
  rewrite (unite_unfold _ _ _ _ _ _ _ Hfx Hfy). cbv zeta.
  repeat (match goal with |- context [if ?b then _ else _] => destruct b end; eauto).
Qed.

Lemma find_contract c n : wf c ->
  exists r c', find c n = Ok (r, c') /\ parent_ (c' r) = None /\
    (forall m, on_chain c n m -> m <> r -> parent_ (c' m) = Some r) /\
    (forall m, rank_ (c' m) = rank_ (c m)) /\ wf c'.
Proof.
  intros Hwf. destruct (find_total c n Hwf) as (r & c' & Hf).
  pose proof (find_Ok _ _ _ _ Hf) as (Hr & Hc & Hchain).
  exists r, c'. split_and!; try done.
  - apply (root_is_root c' n). by apply (compressed_root c c' Hwf Hc).
  - intros m. apply Hc.
  - by eapply compressed_wf.
Qed.

(** C3.  On a forest built by [unite] (ranks within the [unsigned short]
    range and strictly growing along parent links):
    - [find(n)] returns; the node it returns has no parent, every other
      node on the chain from [n] points directly at it afterwards, and
      all ranks are as before;
    - [unite(x, y)] runs both [find]s; if they return the same root it
      changes nothing more; if the ranks of the two roots differ it hangs
      the root of lower rank under the other and leaves every rank as it
      was; if the ranks are equal (and the roots differ) it hangs the
      root of [y] under the root of [x] and adds one to the rank of the
      root of [x], and it throws [GraphOverflow] exactly when that rank
      is already [RANK_MAX];
    - no run of [unite] that returns lowers a rank, and it leaves a
      forest of the same kind. *)
Theorem unite_find_contract (c : store) :
  wf c ->
  (forall n, exists r c',
      find c n = Ok (r, c') /\ parent_ (c' r) = None /\
      (forall m, on_chain c n m -> m <> r -> parent_ (c' m) = Some r) /\
      (forall m, rank_ (c' m) = rank_ (c m)) /\ wf c') /\
  (forall x y, exists xRoot c1 yRoot c2,
      find c x = Ok (xRoot, c1) /\ find c1 y = Ok (yRoot, c2) /\
      (xRoot = yRoot -> unite c x y = Ok c2) /\
      (rank_ (c2 yRoot) < rank_ (c2 xRoot) ->
         let c' := <[yRoot := set_parent (c2 yRoot) (Some xRoot)]> c2 in
         unite c x y = Ok c' /\ forall m, rank_ (c' m) = rank_ (c m)) /\
      (rank_ (c2 xRoot) < rank_ (c2 yRoot) ->
         let c' := <[xRoot := set_parent (c2 xRoot) (Some yRoot)]> c2 in
         unite c x y = Ok c' /\ forall m, rank_ (c' m) = rank_ (c m)) /\
      (xRoot <> yRoot -> rank_ (c2 xRoot) = rank_ (c2 yRoot) ->
         rank_ (c2 xRoot) <> RANK_MAX ->
         unite c x y =
         Ok (<[xRoot := set_rank (c2 xRoot) (rank_ (c2 xRoot) + 1)]>
               (<[yRoot := set_parent (c2 yRoot) (Some xRoot)]> c2))) /\
      (unite c x y = Throw GraphOverflow <->
         xRoot <> yRoot /\ rank_ (c2 xRoot) = rank_ (c2 yRoot) /\
         rank_ (c2 xRoot) = RANK_MAX) /\
      (forall c', unite c x y = Ok c' ->
         wf c' /\ forall m, rank_ (c m) <= rank_ (c' m))).
Proof.
  intros Hwf. split; [intros n; by apply find_contract|].
  intros x y.
  destruct (unite_finds c x y Hwf)
    as (xr & c1 & yr & c2 & Hfx & Hfy & Hwf1 & Hwf2 & Hc1 & Hc12 & Hc & Hx & Hy & Hpx & Hpy).
  exists xr, c1, yr, c2. split; [done|]. split; [done|].
  pose proof (unite_unfold _ _ _ _ _ _ _ Hfx Hfy) as Hu.
  assert (Hrk : forall m, rank_ (c2 m) = rank_ (c m)) by (intros m; apply Hc).
  pose proof (Hwf2 xr) as [Hbx _].
  split_and!.
  - intros <-. rewrite Hu, Z.ltb_irrefl, Z.eqb_refl. done.
  - intros Hlt. simpl. split.
    + rewrite Hu. by destruct (Z.ltb_spec (rank_ (c2 yr)) (rank_ (c2 xr))); [|lia].
    + intros m. rewrite <- Hrk. fn_cases; done.
  - intros Hlt. simpl. split.
    + rewrite Hu. destruct (Z.ltb_spec (rank_ (c2 yr)) (rank_ (c2 xr))); [lia|].
      by destruct (Z.ltb_spec (rank_ (c2 xr)) (rank_ (c2 yr))); [|lia].
    + intros m. rewrite <- Hrk. fn_cases; done.
  - intros Hne Heq Hmax. rewrite Hu, Heq, Z.ltb_irrefl.
    destruct (Z.eqb_spec xr yr) as [|_]; [done|]. simpl.
    rewrite (fn_lookup_insert_ne _ yr xr) by done. rewrite <- Heq.
    destruct (Z.eqb_spec (rank_ (c2 xr)) RANK_MAX) as [|_]; [done|].
    rewrite Z.mod_small by (unfold RANK_MAX in *; lia). done.
  - rewrite Hu.
    destruct (Z.ltb_spec (rank_ (c2 yr)) (rank_ (c2 xr))); [split; [done|lia]|].
    destruct (Z.ltb_spec (rank_ (c2 xr)) (rank_ (c2 yr))); [split; [done|lia]|].
    destruct (Z.eqb_spec xr yr) as [->|Hne]; simpl; [split; [done|tauto]|].
    rewrite (fn_lookup_insert_ne _ yr xr) by done.
    destruct (Z.eqb_spec (rank_ (c2 xr)) RANK_MAX); split; try done; try lia.
  - intros c' Hc'. destruct (unite_Ok c x y c' Hwf Hc') as (? & ? & _). done.
Qed.

Lemma wf_zeroed : wf zeroed.
Proof. intros n. simpl. unfold RANK_MAX. split; [lia|discriminate]. Qed.

Lemma unites_wf pairs c c' : wf c -> unites pairs c = Ok c' -> wf c'.
Proof.
  revert c. induction pairs as [|[x y] pairs IH]; intros c Hwf Hu.
  - by injection Hu as <-.
  - unfold unites in Hu. simpl in Hu.
    apply result_bind_Ok in Hu as (c1 & H1 & Hu).
    apply (IH c1); [|done]. by destruct (unite_Ok c x y c1 Hwf H1).
Qed.

(** The contract on the forest that [unite(0, 1)], [unite(2, 3)] and
    [unite(1, 3)] build from zeroed nodes, where 3 hangs under 2 and 2
    under 0, of rank 2: [find(3)] returns 0 and hangs 3 under 0;
    [unite(3, 4)] hangs the root 4, of rank 0, under the root 0 and keeps
    all ranks; [unite(4, 5)], of two roots of rank 0, hangs 5 under 4 and
    gives 4 the rank 1. *)
Lemma unite_find_contract_witness :
  exists c c1 c2 c3,
    unites [(0, 1); (2, 3); (1, 3)] zeroed = Ok c /\ wf c /\
    parent_ (c 3) = Some 2 /\ parent_ (c 2) = Some 0 /\ parent_ (c 0) = None /\
    find c 3 = Ok (0, c1) /\
    parent_ (c1 3) = Some 0 /\ parent_ (c1 2) = Some 0 /\ parent_ (c1 0) = None /\
    (forall m, rank_ (c1 m) = rank_ (c m)) /\
    unite c 3 4 = Ok c2 /\ parent_ (c2 4) = Some 0 /\
    (forall m, rank_ (c2 m) = rank_ (c m)) /\
    unite c 4 5 = Ok c3 /\ parent_ (c3 5) = Some 4 /\ rank_ (c3 4) = 1 /\
    (forall m, rank_ (c m) <= rank_ (c3 m)).
Proof.
  destruct (unites [(0, 1); (2, 3); (1, 3)] zeroed) as [c| | |] eqn:Hc;
    try (vm_compute in Hc; discriminate).
  pose proof (unites_wf _ _ _ wf_zeroed Hc) as Hwf.
  destruct (unite_find_contract c Hwf) as [Hfind Hunite].
  destruct (Hfind 3) as (r & c1 & Hf & Hroot & Hchain & Hrank & _).
  destruct (Hunite 3 4) as (xr & ca & yr & cb & Hfx & Hfy & _ & Hhang & _ & _ & _ & _).
  destruct (Hunite 4 5) as (xr' & ca' & yr' & cb' & Hfx' & Hfy' & _ & _ & _ & Hbump & _ & Hkeep).
  vm_compute in Hc. injection Hc as Hc. subst c.
  vm_compute in Hf. injection Hf as Hr Hc1. subst r.
  vm_compute in Hfx. injection Hfx as Hxr Hca. subst xr ca.
  vm_compute in Hfy. injection Hfy as Hyr Hcb. subst yr.
  vm_compute in Hfx'. injection Hfx' as Hxr' Hca'. subst xr' ca'.
  vm_compute in Hfy'. injection Hfy' as Hyr' Hcb'. subst yr'.
  destruct Hhang as [Hu Hranks]; [subst cb; vm_compute; reflexivity|].
  specialize (Hbump ltac:(discriminate) ltac:(subst cb'; reflexivity)
                     ltac:(subst cb'; vm_compute; discriminate)).
  eexists _, c1, _, _. split; [reflexivity|]. split; [exact Hwf|].
  split; [reflexivity|]. split; [reflexivity|]. split; [reflexivity|].
  split; [by rewrite <- Hc1|].
  split; [apply Hchain; [apply rtc_refl|discriminate]|].
  split; [apply Hchain; [by apply rtc_once|discriminate]|].
  split; [exact Hroot|]. split; [exact Hrank|].
  split; [exact Hu|]. split; [subst cb; reflexivity|]. split; [exact Hranks|].
  split; [exact Hbump|]. split; [subst cb'; reflexivity|]. split; [subst cb'; reflexivity|].
  exact (proj2 (Hkeep _ Hbump)).
Defined.

(** *** How the calls end *)

Lemma find_rec_S fuel c n :
  find_rec (S fuel) c n =
  match parent_ (c n) with
  | None => Ok (n, c)
  | Some p => '(r, c') ← find_rec fuel c p; Ok (r, <[n := set_parent (c' n) (Some r)]> c')
  end.
Proof. reflexivity. Qed.

Lemma find_rec_kind fuel : forall c n,
  (exists r c', find_rec fuel c n = Ok (r, c')) \/ find_rec fuel c n = NoFuel.
Proof.
  induction fuel as [|fuel IH]; intros c n; [by right|].
  rewrite find_rec_S.
  destruct (parent_ (c n)) as [p|]; [|left; by eexists _, _].
  destruct (IH c p) as [(r & c' & ->)| ->]; [left|right; reflexivity].
  simpl. by eexists _, _.
Qed.

Lemma find_kind c n : (exists r c', find c n = Ok (r, c')) \/ find c n = NoFuel.
Proof. rewrite find_unroll. apply find_rec_kind. Qed.

(** The one exception that [unite] throws is the overflow of a rank. *)
Lemma unite_throws c x y e : unite c x y = Throw e -> e = GraphOverflow.
Proof.
  unfold unite.
  destruct (find_kind c x) as [(xr & c1 & ->)| ->]; [|done]. simpl.
  destruct (find_kind c1 y) as [(yr & c2 & ->)| ->]; [|done]. simpl.
  repeat (match goal with |- context [if ?b then _ else _] => destruct b end; try done).
  by intros [= <-].
Qed.

Lemma unite_defined c x y : unite c x y <> Undefined.
Proof.
  unfold unite.
  destruct (find_kind c x) as [(xr & c1 & ->)| ->]; [|done]. simpl.
  destruct (find_kind c1 y) as [(yr & c2 & ->)| ->]; [|done]. simpl.
  repeat (match goal with |- context [if ?b then _ else _] => destruct b end; try done).
Qed.

(** *** Queries *)

Lemma find_rec_root fuel c r :
  parent_ (c r) = None -> find_rec (S fuel) c r = Ok (r, c).
Proof. intros Hr. unfold find_rec. simpl. unfold find_body at 1. by rewrite Hr. Qed.

Lemma find_root c r : parent_ (c r) = None -> find c r = Ok (r, c).
Proof.
  intros Hr. rewrite find_unroll.
  destruct (Pos2Nat.is_succ (Z.to_pos (RANK_MAX + 1 - rank_ (c r)))) as [k ->].
  by apply find_rec_root.
Qed.

Lemma set_parent_same (n : Set_) : set_parent n (parent_ n) = n.
Proof. by destruct n. Qed.

Lemma find_direct c n r :
  wf c -> parent_ (c n) = Some r -> parent_ (c r) = None ->
  exists c', find c n = Ok (r, c') /\ forall m, c' m = c m.
Proof.
  intros Hwf Hn Hr. rewrite find_unroll.
  destruct (Hwf n) as [Hrk Hup]. specialize (Hup r Hn). destruct (Hwf r) as [Hrr _].
  assert (Hfuel : (2 <= Pos.to_nat (Z.to_pos (RANK_MAX + 1 - rank_ (c n))))%nat).
  { rewrite <- Z2Nat.inj_pos. rewrite Z2Pos.id by lia. lia. }
  destruct (Pos.to_nat _) as [|[|k]]; [lia|lia|].
  unfold find_rec. rewrite Nat.iter_succ. unfold find_body at 1. rewrite Hn.
  change (Nat.iter (S k) find_body (fun _ _ => NoFuel)) with (find_rec (S k)).
  rewrite find_rec_root by done. simpl.
  eexists. split; [reflexivity|].
  intros m. destruct (decide (n = m)) as [<-|Hne].
  - rewrite fn_lookup_insert. rewrite <- Hn. apply set_parent_same.
  - by rewrite fn_lookup_insert_ne.
Qed.

(** X2.  After [find(n)] has returned [r]: the nodes are in the same sets as
    before; [find(r)] returns [r] and changes nothing; a second [find(n)]
    returns [r] again and leaves every node as it is. *)
Theorem find_twice c n r c' :
  wf c -> find c n = Ok (r, c') ->
  (forall a b, same_root c' a b <-> same_root c a b) /\
  find c' r = Ok (r, c') /\
  exists c'', find c' n = Ok (r, c'') /\ forall m, c'' m = c' m.
Proof.
  intros Hwf Hf. destruct (find_Ok _ _ _ _ Hf) as (Hroot & Hc & Hchain).
  pose proof (compressed_wf _ _ Hwf Hc) as Hwf'.
  assert (Hr : parent_ (c' r) = None).
  { apply (root_is_root c' n). by apply (compressed_root c c' Hwf Hc). }
  split_and!.
  - by apply same_root_compressed.
  - by apply find_root.
  - destruct (decide (n = r)) as [->|Hne].
    + exists c'. split; [by apply find_root|done].
    + apply find_direct; [done| |done]. apply Hchain; [apply rtc_refl|done].
Qed.

(** On the forest that [unite(0, 1)], [unite(2, 3)] and [unite(1, 3)]
    build, where 3 hangs under 2 and 2 under 0: [find(3)] returns 0 and
    hangs 3 under 0; after it [find(0)] changes nothing, and a second
    [find(3)] returns 0 again and leaves every node as it is. *)
Lemma find_twice_witness :
  exists c c', unites [(0, 1); (2, 3); (1, 3)] zeroed = Ok c /\ wf c /\
    parent_ (c 3) = Some 2 /\ parent_ (c 2) = Some 0 /\
    find c 3 = Ok (0, c') /\ parent_ (c' 3) = Some 0 /\
    (forall a b, same_root c' a b <-> same_root c a b) /\
    find c' 0 = Ok (0, c') /\
    exists c'', find c' 3 = Ok (0, c'') /\ forall m, c'' m = c' m.
Proof.
  destruct (unites [(0, 1); (2, 3); (1, 3)] zeroed) as [c| | |] eqn:Hc;
    try (vm_compute in Hc; discriminate).
  pose proof (unites_wf _ _ _ wf_zeroed Hc) as Hwf.
  destruct (find c 3) as [[r c']| | |] eqn:Hf;
    try (vm_compute in Hc; injection Hc as Hc; subst c; vm_compute in Hf; discriminate).
  pose proof (find_twice c 3 r c' Hwf Hf) as Htwice.
  assert (Hr : r = 0 /\ parent_ (c' 3) = Some 0 /\
               parent_ (c 3) = Some 2 /\ parent_ (c 2) = Some 0).
  { vm_compute in Hc. injection Hc as Hc. subst c.
    vm_compute in Hf. injection Hf as Hr Hc'. subst r c'. by vm_compute. }
  destruct Hr as (-> & Hp' & Hp3 & Hp2).
  exists c, c'. split; [reflexivity|]. split; [exact Hwf|].
  split; [exact Hp3|]. split; [exact Hp2|]. split; [exact Hf|].
  split; [exact Hp'|]. exact Htwice.
Defined.

(** X1.  [unite(x, y)] merges the set of [x] with the set of [y] and nothing
    else: afterwards two nodes are in the same set exactly if they were
    before, or one was with [x] and the other with [y]; the labels kept
    in the nodes are untouched. *)
Theorem unite_merges c x y c' :
  wf c -> unite c x y = Ok c' ->
  same_root c' x y /\
  (forall a b, same_root c' a b <->
     same_root c a b \/ (same_root c a x /\ same_root c y b)
                     \/ (same_root c a y /\ same_root c x b)) /\
  (forall m, hasLabel_ (c' m) = hasLabel_ (c m) /\ label_ (c' m) = label_ (c m)).
Proof.
  intros Hwf Hu. destruct (unite_Ok c x y c' Hwf Hu) as (_ & _ & Hl & Hs).
  split_and!; [|done|done].
  apply Hs. right. left. split; by apply same_root_refl.
Qed.

Lemma unite_merges_witness :
  exists c', unite zeroed 1 2 = Ok c' /\
    same_root c' 1 2 /\
    (forall a b, same_root c' a b <->
       same_root zeroed a b \/ (same_root zeroed a 1 /\ same_root zeroed 2 b)
                            \/ (same_root zeroed a 2 /\ same_root zeroed 1 b)) /\
    (forall m, hasLabel_ (c' m) = hasLabel_ (zeroed m) /\ label_ (c' m) = label_ (zeroed m)).
Proof.
  assert (Hwf : wf zeroed).
  { intros n. simpl. unfold RANK_MAX. split; [lia|discriminate]. }
  destruct (unite zeroed 1 2) as [c'| | |] eqn:Hu; try (vm_compute in Hu; discriminate).
  exists c'. split; [reflexivity|]. exact (unite_merges zeroed 1 2 c' Hwf Hu).
Defined.

(** *** Ranks and tree sizes *)

Lemma pow2_succ k : 0 <= k -> 2 ^ (k + 1) = 2 ^ k + 2 ^ k.
Proof. intros Hk. rewrite Z.pow_add_r by lia. change (2 ^ 1) with 2. lia. Qed.

Lemma pow2_lt_inv k R : 0 <= k -> 0 <= R -> 2 ^ (k + 1) < 2 ^ (R + 1) -> k < R.
Proof. intros Hk HR H. apply Z.pow_lt_mono_r_iff in H; lia. Qed.

Lemma root_in (D : Z -> Prop) c :
  (forall n p, parent_ (c n) = Some p -> D p) ->
  forall n r, D n -> root c n r -> D r.
Proof.
  intros Hlinks n r Hn Hroot. induction Hroot as [n Hp|n p r Hp _ IH]; [done|].
  apply IH. by eapply Hlinks.
Qed.

Lemma sized_zeroed D : sized D zeroed.
Proof.
  split; [intros n p; discriminate|].
  intros r Hr _. exists [r]. split_and!.
  - apply NoDup_singleton.
  - intros m ->%list_elem_of_singleton. split; [done|]. by apply root_here.
  - simpl. lia.
Qed.

Lemma sized_compressed D c c' : wf c -> compressed c c' -> sized D c -> sized D c'.
Proof.
  intros Hwf Hc [Hlinks Hsize]. split.
  - intros n p Hp. destruct (Hc n) as (_ & _ & _ & [Heq|(Hne & r & Hr & Hroot)]).
    + apply (Hlinks n). congruence.
    + assert (p = r) as -> by congruence.
      inversion Hroot as [? Hnone|? q ? Hq Hroot']; subst; [done|].
      eapply root_in; [done| |done]. by eapply Hlinks.
  - intros r Hr Hnone.
    assert (Hnone' : parent_ (c r) = None).
    { destruct (Hc r) as (_ & _ & _ & [Heq|(_ & r' & Hr' & _)]); congruence. }
    destruct (Hsize r Hr Hnone') as (l & Hnd & Hl & Hlen).
    exists l. split_and!; [done| |].
    + intros m Hm. destruct (Hl m Hm). split; [done|]. by apply (compressed_root c c').
    + destruct (Hc r) as (-> & _). done.
Qed.

(** Hanging the root [l] under the root [w]: the tree of [w] takes the
    nodes of both. *)
Lemma sized_link D c l w :
  sized D c -> D l -> D w -> w <> l ->
  parent_ (c l) = None -> parent_ (c w) = None ->
  let c' := <[l := set_parent (c l) (Some w)]> c in
  (forall n p, parent_ (c' n) = Some p -> D p) /\
  (forall r, D r -> parent_ (c' r) = None -> r <> w ->
     exists k, NoDup k /\ (forall m, m ∈ k -> D m /\ root c' m r) /\
               2 ^ rank_ (c' r) <= Z.of_nat (length k)) /\
  exists k, NoDup k /\ (forall m, m ∈ k -> D m /\ root c' m w) /\
            2 ^ rank_ (c w) + 2 ^ rank_ (c l) <= Z.of_nat (length k).
Proof.
  intros [Hlinks Hsize] Hl Hw Hne Hpl Hpw c'.
  assert (Hroot' : forall m r, root c' m r <-> (root c m r /\ r <> l) \/ (root c m l /\ r = w)).
  { intros m r. by apply root_link. }
  split_and!.
  - intros n p. unfold c'. destruct (decide (l = n)) as [<-|Hn].
    + rewrite fn_lookup_insert. simpl. by intros [= <-].
    + rewrite fn_lookup_insert_ne by done. apply Hlinks.
  - intros r Hr Hnone Hrw.
    assert (Hrl : r <> l).
    { intros ->. unfold c' in Hnone. by rewrite fn_lookup_insert in Hnone. }
    unfold c' in Hnone |- *. rewrite fn_lookup_insert_ne in Hnone |- * by done.
    destruct (Hsize r Hr Hnone) as (k & Hnd & Hk & Hlen).
    exists k. split_and!; [done| |done].
    intros m Hm. destruct (Hk m Hm). split; [done|]. apply Hroot'. by left.
  - destruct (Hsize w Hw Hpw) as (kw & Hndw & Hkw & Hlenw).
    destruct (Hsize l Hl Hpl) as (kl & Hndl & Hkl & Hlenl).
    exists (kw ++ kl). split_and!.
    + apply list.NoDup_app. split_and!; [done| |done].
      intros m Hmw Hml. destruct (Hkw m Hmw) as [_ Hr1], (Hkl m Hml) as [_ Hr2].
      apply Hne. by eapply root_det.
    + intros m [Hm|Hm]%elem_of_app.
      * destruct (Hkw m Hm). split; [done|]. apply Hroot'. by left.
      * destruct (Hkl m Hm). split; [done|]. apply Hroot'. by right.
    + rewrite length_app. lia.
Qed.

Lemma unite_sized D N c x y :
  at_most D N -> N < 2 ^ (RANK_MAX + 1) ->
  wf c -> sized D c -> D x -> D y ->
  exists c', unite c x y = Ok c' /\ wf c' /\ sized D c'.
Proof.
  intros HN Hbound Hwf Hsized Hx Hy.
  destruct (unite_finds c x y Hwf)
    as (xr & c1 & yr & c2 & Hfx & Hfy & Hwf1 & Hwf2 & Hc1 & Hc12 & Hc & Hrx & Hry & Hpx & Hpy).
  pose proof (sized_compressed D c c2 Hwf Hc Hsized) as Hs2.
  assert (Hxr : D xr) by (eapply root_in; [apply Hsized|exact Hx|exact Hrx]).
  assert (Hyr : D yr) by (eapply root_in; [apply Hsized|exact Hy|exact Hry]).
  assert (Hok : forall c', unite c x y = Ok c' -> sized D c' -> 
            exists c', unite c x y = Ok c' /\ wf c' /\ sized D c').
  { intros c' Hu Hs. exists c'. split_and!; [done| |done].
    by destruct (unite_Ok c x y c' Hwf Hu). }
  pose proof (unite_unfold _ _ _ _ _ _ _ Hfx Hfy) as Hu.
  destruct (Z.ltb_spec (rank_ (c2 yr)) (rank_ (c2 xr))) as [Hlt|Hge].
  { eapply Hok; [exact Hu|].
    destruct (sized_link D c2 yr xr Hs2 Hyr Hxr ltac:(intros ->; lia) Hpy Hpx)
      as (Hlinks & Hother & k & Hnd & Hk & Hlen).
    split; [done|]. intros r Hr Hnone.
    destruct (decide (r = xr)) as [->|Hne]; [|by apply Hother].
    exists k. split_and!; [done|done|].
    rewrite fn_lookup_insert_ne by (intros ->; lia).
    pose proof (Z.pow_pos_nonneg 2 (rank_ (c2 yr)) ltac:(lia)
                  ltac:(destruct (Hwf2 yr); lia)). lia. }
  destruct (Z.ltb_spec (rank_ (c2 xr)) (rank_ (c2 yr))) as [Hlt|Hge'].
  { eapply Hok; [exact Hu|].
    destruct (sized_link D c2 xr yr Hs2 Hxr Hyr ltac:(intros ->; lia) Hpx Hpy)
      as (Hlinks & Hother & k & Hnd & Hk & Hlen).
    split; [done|]. intros r Hr Hnone.
    destruct (decide (r = yr)) as [->|Hne]; [|by apply Hother].
    exists k. split_and!; [done|done|].
    rewrite fn_lookup_insert_ne by (intros ->; lia).
    pose proof (Z.pow_pos_nonneg 2 (rank_ (c2 xr)) ltac:(lia)
                  ltac:(destruct (Hwf2 xr); lia)). lia. }
  destruct (Z.eqb_spec xr yr) as [Heq|Hne]; simpl in Hu.
  { eapply Hok; [exact Hu|done]. }
  assert (Hrk : rank_ (c2 xr) = rank_ (c2 yr)) by lia.
  destruct (sized_link D c2 yr xr Hs2 Hyr Hxr Hne Hpy Hpx)
    as (Hlinks & Hother & k & Hnd & Hk & Hlen).
  destruct (Hwf2 xr) as [Hrange _].
  assert (Hsmall : rank_ (c2 xr) < RANK_MAX).
  { assert (Hk' : Z.of_nat (length k) <= N).
    { apply HN; [done|]. intros m Hm. by destruct (Hk m Hm). }
    assert (Hpow : 2 ^ (rank_ (c2 xr) + 1) < 2 ^ (RANK_MAX + 1)).
    { rewrite pow2_succ by lia. rewrite <- Hrk in Hlen. lia. }
    apply (pow2_lt_inv (rank_ (c2 xr)) RANK_MAX); [lia|lia|exact Hpow]. }
  set (c3 := <[yr := set_parent (c2 yr) (Some xr)]> c2) in *.
  assert (Hc3 : c3 xr = c2 xr) by (unfold c3; by rewrite fn_lookup_insert_ne).
  rewrite Hc3 in Hu.
  destruct (Z.eqb_spec (rank_ (c2 xr)) RANK_MAX) as [|_]; [lia|].
  rewrite Z.mod_small in Hu by lia.
  eapply Hok; [exact Hu|].
  set (c4 := <[xr := set_rank (c2 xr) (rank_ (c2 xr) + 1)]> c3).
  assert (Hpar : forall m, parent_ (c4 m) = parent_ (c3 m)).
  { intros m. unfold c4. destruct (decide (xr = m)) as [<-|?].
    - rewrite fn_lookup_insert. by rewrite Hc3.
    - by rewrite fn_lookup_insert_ne. }
  assert (Hroots : forall m r, root c3 m r -> root c4 m r).
  { apply root_ext. intros m. apply Hpar. }
  split.
  - intros n p. rewrite Hpar. apply Hlinks.
  - intros r Hr. rewrite Hpar. intros Hnone.
    destruct (decide (r = xr)) as [->|Hner].
    + exists k. split_and!; [done| |].
      * intros m Hm. destruct (Hk m Hm). split; [done|]. by apply Hroots.
      * unfold c4. rewrite fn_lookup_insert. simpl. rewrite pow2_succ by lia.
        rewrite <- Hrk in Hlen. lia.
    + destruct (Hother r Hr Hnone Hner) as (k' & Hnd' & Hk' & Hlen').
      exists k'. split_and!; [done| |].
      * intros m Hm. destruct (Hk' m Hm). split; [done|]. by apply Hroots.
      * unfold c4. by rewrite fn_lookup_insert_ne.
Qed.

Lemma at_most_range N : 0 <= N -> at_most (fun m => 0 <= m < N) N.
Proof.
  intros HN0 l Hnd Hl.
  assert (Hsub : l ⊆+ seqZ 0 N).
  { apply NoDup_submseteq; [done|]. intros m Hm. apply elem_of_seqZ. specialize (Hl m Hm). lia. }
  apply submseteq_length in Hsub. rewrite length_seqZ in Hsub. lia.
Qed.

Lemma at_most_list (k : list Z) : at_most (fun m => m ∈ k) (Z.of_nat (length k)).
Proof.
  intros l Hnd Hl.
  assert (Hsub : l ⊆+ k) by (by apply NoDup_submseteq).
  apply submseteq_length in Hsub. lia.
Qed.

Lemma sized_rank D N c n :
  at_most D N -> wf c -> sized D c -> D n -> 2 ^ rank_ (c n) <= N.
Proof.
  intros HN Hwf Hs Hn. destruct (root_total c n Hwf) as [r Hr].
  assert (HDr : D r) by (eapply root_in; [apply Hs|exact Hn|exact Hr]).
  destruct Hs as [_ Hsize].
  destruct (Hsize r HDr (root_is_root _ _ _ Hr)) as (l & Hnd & Hl & Hlen).
  assert (Hle : 2 ^ rank_ (c n) <= 2 ^ rank_ (c r)).
  { apply Z.pow_le_mono_r; [lia|]. by apply root_rank. }
  assert (Z.of_nat (length l) <= N); [|lia].
  apply HN; [done|]. intros m Hm. by destruct (Hl m Hm).
Qed.

(** X3.  With fewer than [2 ^ 65536] nodes no rank reaches the ceiling: a
    client that starts from zeroed nodes [0 .. N-1] and calls [unite] on
    any pairs of them never meets the overflow exception; every call
    returns, and a node of rank [k] stands for [2 ^ k <= N]. *)
Theorem unite_never_overflows (N : Z) (pairs : list (Z * Z)) :
  N < 2 ^ (RANK_MAX + 1) ->
  Forall (fun xy => (0 <= xy.1 < N) /\ (0 <= xy.2 < N)) pairs ->
  exists c, unites pairs zeroed = Ok c /\ wf c /\
            forall n, 0 <= n < N -> 2 ^ rank_ (c n) <= N.
Proof.
  intros HN Hpairs.
  destruct (decide (0 <= N)) as [HN0|HN0]; last first.
  { destruct Hpairs as [|[x y] l [Hx _] _]; [|simpl in Hx; lia].
    exists zeroed. split_and!; [done| |lia].
    intros n. simpl. split; [|discriminate]. pose proof (eq_refl : RANK_MAX = 65535). lia. }
  set (D := fun m : Z => 0 <= m < N).
  assert (Hgen : forall c, wf c -> sized D c ->
            exists c', unites pairs c = Ok c' /\ wf c' /\ sized D c').
  { unfold unites. induction Hpairs as [|[x y] l [Hx Hy] _ IH]; intros c Hwf Hs.
    - by exists c.
    - destruct (unite_sized D N c x y (at_most_range N HN0) HN Hwf Hs Hx Hy)
        as (c1 & Hu & Hwf1 & Hs1).
      destruct (IH c1 Hwf1 Hs1) as (c' & Hl & Hwf' & Hs').
      exists c'. simpl. rewrite Hu. simpl. done. }
  destruct (Hgen zeroed) as (c & Hc & Hwf & Hs).
  { intros n. simpl. split; [|discriminate]. pose proof (eq_refl : RANK_MAX = 65535). lia. }
  { apply sized_zeroed. }
  exists c. split_and!; [done|done|].
  intros n Hn. by apply (sized_rank D N c n (at_most_range N HN0)).
Qed.

Lemma unite_never_overflows_witness :
  exists c, unites [(0, 1); (2, 3); (1, 3)] zeroed = Ok c /\ wf c /\
            forall n, 0 <= n < 4 -> 2 ^ rank_ (c n) <= 4.
Proof.
  apply (unite_never_overflows 4 [(0, 1); (2, 3); (1, 3)]).
  - pose proof (Z.pow_gt_lin_r 2 (RANK_MAX + 1) ltac:(lia) ltac:(unfold RANK_MAX; lia)) as H.
    pose proof (eq_refl : RANK_MAX = 65535). lia.
  - repeat constructor; simpl; lia.
Defined.

(** *** The self-test *)

Lemma same_root_zeroed a b : same_root zeroed a b <-> a = b.
Proof.
  split.
  - intros (r & Ha & Hb). inversion Ha; subst; [|discriminate].
    inversion Hb; subst; [done|discriminate].
  - intros ->. exists b. split; by apply root_here.
Qed.

Lemma same_set_left D c a b :
  wf c -> sized D c ->
  exists e c', same_set true c a b = Ok (e, c') /\ (e = true <-> same_root c a b) /\
    wf c' /\ sized D c' /\ forall x y, same_root c' x y <-> same_root c x y.
Proof.
  intros Hwf Hs. unfold same_set.
  destruct (find_total c a Hwf) as (ra & c1 & Hfa). rewrite Hfa. simpl.
  destruct (find_Ok _ _ _ _ Hfa) as (Hra & Hc1 & _).
  pose proof (compressed_wf _ _ Hwf Hc1) as Hwf1.
  destruct (find_total c1 b Hwf1) as (rb & c2 & Hfb). rewrite Hfb. simpl.
  destruct (find_Ok _ _ _ _ Hfb) as (Hrb & Hc2 & _).
  apply (compressed_root c c1 Hwf Hc1) in Hrb.
  pose proof (compressed_trans _ _ _ Hwf Hc1 Hc2) as Hc.
  eexists _, _. split; [reflexivity|]. split_and!.
  - rewrite Z.eqb_eq. split.
    + intros ->. by exists rb.
    + intros (r & Ha & Hb). rewrite (root_det _ _ _ _ Hra Ha). by eapply root_det.
  - exact (compressed_wf c c2 Hwf Hc).
  - exact (sized_compressed D c c2 Hwf Hc Hs).
  - by apply same_root_compressed.
Qed.

Lemma same_set_flip c a b : same_set false c a b = same_set true c b a.
Proof.
  unfold same_set. destruct (find c b) as [[rb c1]| | |]; [simpl|done..].
  destruct (find c1 a) as [[ra c2]| | |]; [simpl|done..].
  by rewrite Z.eqb_sym.
Qed.

Lemma same_set_spec o D c a b :
  wf c -> sized D c ->
  exists e c', same_set o c a b = Ok (e, c') /\ (e = true <-> same_root c a b) /\
    wf c' /\ sized D c' /\ forall x y, same_root c' x y <-> same_root c x y.
Proof.
  intros Hwf Hs. destruct o; [by apply same_set_left|].
  rewrite same_set_flip.
  destruct (same_set_left D c b a Hwf Hs) as (e & c' & -> & He & ?).
  exists e, c'. split; [done|]. split; [|done].
  rewrite He. split; apply same_root_sym.
Qed.

Lemma unite_step D N c x y :
  at_most D N -> N < 2 ^ (RANK_MAX + 1) ->
  wf c -> sized D c -> D x -> D y ->
  exists c', unite c x y = Ok c' /\ wf c' /\ sized D c' /\ same_root c' x y /\
             forall a b, same_root c a b -> same_root c' a b.
Proof.
  intros HN Hb Hwf Hs Hx Hy.
  destruct (unite_sized D N c x y HN Hb Hwf Hs Hx Hy) as (c' & Hu & Hwf' & Hs').
  destruct (unite_Ok c x y c' Hwf Hu) as (_ & _ & _ & Hsame).
  exists c'. split_and!; try done.
  - apply Hsame. right. left. split; by apply same_root_refl.
  - intros a b Hab. apply Hsame. by left.
Qed.

(** X4.  [test_Set] passes: run on four distinct nodes it returns, without
    the exception "Internal error in Set." and without an overflow, in
    whatever order the operands of its comparisons are evaluated. *)
Theorem test_Set_passes (order : nat -> bool) (s1 s2 s3 s4 : Z) :
  NoDup [s1; s2; s3; s4] -> test_Set order s1 s2 s3 s4 = Ok Passed.
Proof.
  intros Hnd.
  set (D := fun m : Z => m ∈ [s1; s2; s3; s4]).
  assert (H1 : D s1) by (unfold D; repeat constructor).
  assert (H2 : D s2) by (unfold D; repeat constructor).
  assert (H3 : D s3) by (unfold D; repeat constructor).
  assert (H4 : D s4) by (unfold D; repeat constructor).
  pose proof (at_most_list [s1; s2; s3; s4] : at_most D 4) as HN.
  assert (Hb : 4 < 2 ^ (RANK_MAX + 1)).
  { pose proof (Z.pow_gt_lin_r 2 (RANK_MAX + 1) ltac:(lia) ltac:(unfold RANK_MAX; lia)) as H.
    pose proof (eq_refl : RANK_MAX = 65535). lia. }
  assert (Hwf0 : wf zeroed).
  { intros n. simpl. split; [|discriminate]. pose proof (eq_refl : RANK_MAX = 65535). lia. }
  unfold test_Set.
  destruct (same_set_spec (order 0%nat) D zeroed s1 s2 Hwf0 (sized_zeroed D))
    as (e & ca & -> & He & Hwfa & Hsa & Ha). simpl.
  destruct e.
  { exfalso. apply list.NoDup_cons in Hnd as [Hn1 _]. apply Hn1.
    assert (s1 = s2) as -> by (apply same_root_zeroed, He; done). constructor. }
  destruct (unite_step D 4 ca s1 s2 HN Hb Hwfa Hsa H1 H2)
    as (cb & -> & Hwfb & Hsb & Hb12 & _). simpl.
  destruct (same_set_spec (order 1%nat) D cb s1 s2 Hwfb Hsb)
    as (e & cc & -> & He' & Hwfc & Hsc & Hc). simpl.
  assert (e = true) as -> by (by apply He'). simpl.
  assert (Hc12 : same_root cc s1 s2) by (by apply Hc).
  destruct (unite_step D 4 cc s2 s3 HN Hb Hwfc Hsc H2 H3)
    as (cd & -> & Hwfd & Hsd & Hd23 & Hkeep). simpl.
  assert (Hd21 : same_root cd s2 s1) by (by apply same_root_sym, Hkeep).
  destruct (same_set_spec (order 2%nat) D cd s2 s1 Hwfd Hsd)
    as (e & ce & -> & He'' & Hwfe & Hse & Hee). simpl.
  assert (e = true) as -> by (by apply He''). simpl.
  destruct (same_set_spec (order 3%nat) D ce s3 s2 Hwfe Hse)
    as (e & cf & -> & He3 & Hwff & Hsf & Hf). simpl.
  assert (e = true) as -> by (by apply He3, Hee, same_root_sym). simpl.
  assert (Hf32 : same_root cf s3 s2) by (by apply Hf, Hee, same_root_sym).
  assert (Hf21 : same_root cf s2 s1) by (by apply Hf, Hee).
  destruct (unite_step D 4 cf s4 s3 HN Hb Hwff Hsf H4 H3)
    as (cg & -> & Hwfg & Hsg & Hg43 & Hkeep'). simpl.
  destruct (same_set_spec (order 4%nat) D cg s4 s3 Hwfg Hsg)
    as (e & ch & -> & He4 & Hwfh & Hsh & Hh). simpl.
  assert (e = true) as -> by (by apply He4). simpl.
  assert (Hh32 : same_root ch s3 s2) by (by apply Hh, Hkeep').
  assert (Hh21 : same_root ch s2 s1) by (by apply Hh, Hkeep').
  destruct (same_set_spec (order 5%nat) D ch s3 s1 Hwfh Hsh)
    as (e & ci & -> & He5 & Hwfi & Hsi & Hi). simpl.
  assert (e = true) as -> by (apply He5; by eapply same_root_trans). simpl.
  destruct (same_set_spec (order 6%nat) D ci s3 s2 Hwfi Hsi)
    as (e & cj & -> & He6 & Hwfj & Hsj & Hj). simpl.
  assert (e = true) as -> by (by apply He6, Hi). simpl.
  reflexivity.
Qed.

Lemma test_Set_passes_witness :
  NoDup [0; 16; 32; 48] /\ test_Set (fun i => Nat.even i) 0 16 32 48 = Ok Passed.
Proof.
  assert (Hnd : NoDup [0; 16; 32; 48]) by (by apply (bool_decide_unpack _)).
  split; [exact Hnd|]. by apply test_Set_passes.
Defined.
End DisjointSetFacts.
(** ** Loops *)

Lemma for_loop_app {A S} (l1 l2 : list A) (body : A -> S -> result S) s :
  for_loop (l1 ++ l2) body s = (for_loop l1 body s ≫= for_loop l2 body).
Proof.
  revert s. induction l1 as [|x l1 IH]; intros s; [done|].
  simpl. destruct (body x s); simpl; auto.
Qed.

Lemma for_loop_bind {A B S} (l : list A) (f : A -> list B) (body : B -> S -> result S) s :
  for_loop (l ≫= f) body s = for_loop l (fun x => for_loop (f x) body) s.
Proof.
  revert s. induction l as [|x l IH]; intros s; [done|].
  change ((x :: l) ≫= f) with (f x ++ (l ≫= f)). rewrite for_loop_app. simpl.
  destruct (for_loop (f x) body s); simpl; auto.
Qed.

(** The invariant rule: [I pre s] relates the state to the elements
    already visited. *)
Lemma for_loop_inv {A S} (I : list A -> S -> Prop) (body : A -> S -> result S) l s0 s' :
  I [] s0 ->
  (forall pre x post s s1, l = pre ++ x :: post -> I pre s -> body x s = Ok s1 -> I (pre ++ [x]) s1) ->
  for_loop l body s0 = Ok s' -> I l s'.
Proof.
  intros H0 Hstep. 
  assert (Hgen : forall post pre s, l = pre ++ post -> I pre s ->
            for_loop post body s = Ok s' -> I l s').
  { induction post as [|x post IH]; intros pre s Hl Hpre Hrun.
    - simpl in Hrun. injection Hrun as <-. by rewrite Hl, app_nil_r.
    - simpl in Hrun. apply DisjointSetFacts.result_bind_Ok in Hrun as (s1 & Hb & Hrun).
      apply (IH (pre ++ [x]) s1); [by rewrite <- app_assoc| |done].
      by eapply Hstep. }
  by apply (Hgen l [] s0).
Qed.

(** A loop does not end in the way [bad] if no round does. *)
Lemma for_loop_kind {A S} (I : list A -> S -> Prop) (bad : result unit)
    (body : A -> S -> result S) l s0 :
  bad <> Ok tt -> I [] s0 ->
  (forall pre x post s, l = pre ++ x :: post -> I pre s ->
     kind (body x s) <> bad /\ forall s1, body x s = Ok s1 -> I (pre ++ [x]) s1) ->
  kind (for_loop l body s0) <> bad.
Proof.
  intros Hbad H0 Hstep.
  assert (Hgen : forall post pre s, l = pre ++ post -> I pre s ->
            kind (for_loop post body s) <> bad).
  { induction post as [|x post IH]; intros pre s Hl Hpre.
    - simpl. congruence.
    - simpl. destruct (Hstep pre x post s Hl Hpre) as [Hk Hok].
      destruct (body x s) as [s1| | |] eqn:Hb; simpl in *; try done.
      apply (IH (pre ++ [x])); [by rewrite <- app_assoc|by apply Hok]. }
  by apply (Hgen l [] s0).
Qed.

Lemma for_loop_ext {A S} (l : list A) (f g : A -> S -> result S) s :
  (forall x s, f x s = g x s) -> for_loop l f s = for_loop l g s.
Proof.
  intros Hfg. revert s. induction l as [|x l IH]; intros s; [done|].
  simpl. rewrite Hfg. destruct (g x s); simpl; auto.
Qed.

Lemma for_loop_singleton {A S} (x : A) (body : A -> S -> result S) s :
  for_loop [x] body s = body x s.
Proof. simpl. by destruct (body x s). Qed.

Module ComponentsFacts.
Import DisjointSet DisjointSetFacts Components.



Lemma rtsc_ext (E E' : relation Z) :
  (forall a b, E a b <-> E' a b) -> forall a b, rtsc E a b <-> rtsc E' a b.
Proof.
  intros HE a b. unfold rtsc.
  split; apply rtc_subrel; intros x y [?|?]; [left|right|left|right]; by apply HE.
Qed.

Lemma forest_of_ext (E E' : relation Z) c :
  (forall a b, E a b <-> E' a b) -> forest_of E c -> forest_of E' c.
Proof.
  intros HE (Hwf & Hl & Hs). split; [done|]. split; [done|].
  intros a b. rewrite Hs. by apply rtsc_ext.
Qed.

Lemma forest_of_zeroed : forest_of (fun _ _ => False) zeroed.
Proof.
  split; [|split]; [| done |].
  - intros n. simpl. unfold RANK_MAX. split; [lia|done].
  - intros a b. split.
    + intros (r & Ha & Hb). inversion Ha; subst; [|done]. inversion Hb; subst; done.
    + intros Hab. apply rtc_inv in Hab as [->|(m & [[]|[]] & _)].
      exists b. split; by apply root_here.
Qed.

Lemma forest_of_unite E c x y c' :
  forest_of E c -> unite c x y = Ok c' ->
  forest_of (fun a b => E a b \/ (a = x /\ b = y)) c'.
Proof.
  intros (Hwf & Hl & Hs) Hu.
  destruct (unite_Ok c x y c' Hwf Hu) as (Hwf' & _ & Hlab & Hs').
  split; [done|]. split; [intros m; by rewrite (proj1 (Hlab m))|].
  set (E' := fun a b => E a b \/ (a = x /\ b = y)).
  assert (Hmono : forall a b, rtsc E a b -> rtsc E' a b).
  { intros a b. apply rtc_subrel. intros ? ? [?|?]; [left|right]; by left. }
  assert (Hxy : rtsc E' x y) by (apply rtsc_lr; by right).
  intros a b. split.
  - intros H. apply Hs' in H. rewrite !Hs in H.
    destruct H as [?|[[Ha Hb]|[Ha Hb]]]; [by apply Hmono|..].
    + trans x; [by apply Hmono|]. trans y; [done|by apply Hmono].
    + trans y; [by apply Hmono|]. trans x; [by symmetry|by apply Hmono].
  - intros Hab. clear Hmono Hxy.
    induction Hab as [a|a m b Ham _ IH].
    + by apply same_root_refl.
    + eapply same_root_trans; [|done].
      assert (Hstep : forall u v, E' u v -> same_root c' u v).
      { intros u v [Huv|[-> ->]]; apply Hs'.
        - left. apply Hs. by apply rtsc_lr.
        - right. left. split; by apply same_root_refl. }
      destruct Ham as [?|?]; [|apply same_root_sym]; by apply Hstep.
Qed.

Section Volume.
Context {T : Type} `{EqDecision T}.
Variable U_MAX : Z.
Variables width height depth : Z.
Variable inputBuffer : Z -> T.
Variables inputLeap inputStride : Z.
Variable backgroundColor : T.
Variables outputLeap outputStride : Z.
Variable backgroundLabel : Z.

Local Abbreviation node := (node width height).
Local Abbreviation in_at := (in_at inputLeap inputStride).
Local Abbreviation out_at := (out_at outputLeap outputStride).
Local Abbreviation in_volume := (in_volume width height depth).
Local Abbreviation value := (value inputBuffer inputLeap inputStride).
Local Abbreviation voxels := (voxels width height depth).
Local Abbreviation connected := (connected width height depth inputBuffer inputLeap inputStride).
Local Abbreviation united_at := (united_at width height depth inputBuffer inputLeap inputStride backgroundColor).
Local Abbreviation united := (united width height depth inputBuffer inputLeap inputStride backgroundColor).
Local Abbreviation link := (link width height depth inputBuffer inputLeap inputStride).
Local Abbreviation pass1_body := (pass1_body width height depth inputBuffer inputLeap inputStride backgroundColor).

Local Abbreviation labelled := (labelled U_MAX width height inputBuffer inputLeap inputStride
  backgroundColor outputLeap outputStride backgroundLabel).
Local Abbreviation last_used := (last_used outputLeap outputStride backgroundLabel).
Local Abbreviation labels_in_range := (labels_in_range outputLeap outputStride).
Local Abbreviation assign_label := (assign_label U_MAX width height inputBuffer inputLeap
  inputStride backgroundColor outputLeap outputStride backgroundLabel).
Local Abbreviation pass2_body := (pass2_body U_MAX width height inputBuffer inputLeap
  inputStride backgroundColor outputLeap outputStride backgroundLabel).
Local Abbreviation take_label := (take_label U_MAX backgroundColor backgroundLabel).
Local Abbreviation pass2_init := (pass2_init U_MAX backgroundColor backgroundLabel).
Local Abbreviation incr := (incr U_MAX).
Local Abbreviation distinct_cells := (distinct_cells width height depth outputLeap outputStride).
Local Abbreviation max_label := (max_label width height depth outputLeap outputStride).
Local Abbreviation findConnectedComponents3d := (findConnectedComponents3d U_MAX width height
  depth inputBuffer inputLeap inputStride backgroundColor outputLeap outputStride backgroundLabel).

Lemma scan_voxels {S} (body : voxel -> S -> result S) s :
  scan width height depth body s = for_loop voxels body s.
Proof.
  unfold scan, Components.voxels. rewrite for_loop_bind.
  apply for_loop_ext. intros w s1. rewrite for_loop_bind.
  apply for_loop_ext. intros v s2. rewrite for_loop_bind.
  apply for_loop_ext. intros u s3. by rewrite for_loop_singleton.
Qed.

Lemma elem_of_voxels p : p ∈ voxels <-> in_volume p.
Proof.
  destruct p as [[u v] w]. unfold Components.voxels, Components.in_volume.
  rewrite list_elem_of_bind. setoid_rewrite list_elem_of_bind.
  setoid_rewrite list_elem_of_bind. setoid_rewrite elem_of_seqZ.
  setoid_rewrite list_elem_of_singleton. split.
  - intros (w' & (v' & (u' & [= -> -> ->] & ?) & ?) & ?). lia.
  - intros (? & ? & ?). exists w. split; [|lia]. exists v. split; [|lia].
    exists u. split; [done|lia].
Qed.

Lemma NoDup_voxels : NoDup voxels.
Proof.
  unfold Components.voxels.
  apply NoDup_bind; [|intros w _|apply NoDup_seqZ].
  - intros w1 w2 p _ _. rewrite !list_elem_of_bind.
    setoid_rewrite list_elem_of_bind. setoid_rewrite list_elem_of_singleton.
    intros (? & (? & -> & _) & _) (? & (? & [= _ _ ->] & _) & _). done.
  - apply NoDup_bind; [|intros v _|apply NoDup_seqZ].
    + intros v1 v2 p _ _. rewrite !list_elem_of_bind.
      setoid_rewrite list_elem_of_singleton.
      intros (? & -> & _) (? & [= _ ->] & _). done.
    + apply NoDup_bind; [|intros u _; apply NoDup_singleton|apply NoDup_seqZ].
      intros u1 u2 p _ _. rewrite !list_elem_of_singleton. intros -> [= ->]. done.
Qed.

Lemma node_inj p q : in_volume p -> in_volume q -> node p = node q -> p = q.
Proof.
  destruct p as [[u v] w], q as [[u' v'] w']. unfold Components.in_volume, Components.node.
  intros (Hu & Hv & Hw) (Hu' & Hv' & Hw') Heq.
  assert (Hdiv : forall a b a' b' n, 0 <= b < n -> 0 <= b' < n ->
            a * n + b = a' * n + b' -> a = a' /\ b = b').
  { intros a b a' b' n Hb Hb' E. assert (a = a') by nia. subst. lia. }
  destruct (Hdiv (w * height + v) u (w' * height + v') u' width) as [E1 ->]; [done|done|lia|].
  destruct (Hdiv w v w' v' height) as [-> ->]; [done|done|lia|]. done.
Qed.

Lemma in_at_neighbor p i :
  in_at p + at_ dw i * inputLeap + at_ dv i * inputStride + at_ du i = in_at (neighbor p i).
Proof. destruct p as [[u v] w]. unfold Components.in_at, neighbor. lia. Qed.

Lemma node_neighbor u v w i :
  (w + at_ dw i) * width * height + (v + at_ dv i) * width + u + at_ du i
  = node (neighbor (u, v, w) i).
Proof. unfold Components.node, neighbor. lia. Qed.

Lemma united_at_nil p a b : united_at p [] a b <-> False.
Proof. split; [|done]. intros (i & Hi & _). by apply elem_of_nil in Hi. Qed.

Lemma united_at_snoc p l i a b :
  united_at p (l ++ [i]) a b <-> united_at p l a b \/ united_at p [i] a b.
Proof.
  unfold Components.united_at. split.
  - intros (j & Hj & H'). apply elem_of_app in Hj as [Hj|Hj]; [left|right]; eauto.
  - intros [(j & Hj & H')|(j & Hj & H')]; exists j; (split; [|done]);
      apply elem_of_app; auto.
Qed.

Lemma link_forest E p i c c' :
  value p <> backgroundColor ->
  forest_of E c -> link p i c = Ok c' ->
  forest_of (fun a b => E a b \/ united_at p [i] a b) c'.
Proof.
  intros Hfg HE Hl. destruct p as [[u v] w]. unfold Components.link in Hl.
  rewrite in_at_neighbor, node_neighbor in Hl.
  assert (Hno : ~ (in_volume (neighbor (u, v, w) i)
                   /\ value (neighbor (u, v, w) i) = value (u, v, w)) ->
          forall a b, E a b <-> E a b \/ united_at (u, v, w) [i] a b).
  { intros Hn a b. split; [by left|]. intros [?|(j & Hj & _ & ? & ? & _)]; [done|].
    apply list_elem_of_singleton in Hj as ->. destruct Hn. done. }
  match type of Hl with (if ?t then _ else _) = _ => destruct t eqn:Ht end.
  - assert (Hin : in_volume (neighbor (u, v, w) i)) by (simpl; lia).
    destruct (decide _) as [Hv|Hv] in Hl.
    + eapply forest_of_ext; [|by eapply forest_of_unite].
      intros a b. simpl. split; (intros [?|H']; [by left|right]).
      * destruct H' as [-> ->]. exists i. split; [by apply list_elem_of_singleton|done].
      * destruct H' as (j & Hj & _ & _ & _ & -> & ->).
        by apply list_elem_of_singleton in Hj as ->.
    + injection Hl as <-. eapply forest_of_ext; [|done]. apply Hno. by intros [_ ?].
  - injection Hl as <-. eapply forest_of_ext; [|done]. apply Hno.
    intros [Hin _]. simpl in Hin. lia.
Qed.

Lemma pass1_body_forest pre p c c' :
  forest_of (united pre) c -> pass1_body p c = Ok c' ->
  forest_of (united (pre ++ [p])) c'.
Proof.
  intros HE Hb. unfold Components.pass1_body in Hb.
  assert (Hsplit : forall a b, united (pre ++ [p]) a b
                     <-> united pre a b \/ united_at p (seqZ 0 N) a b).
  { intros a b. unfold Components.united. split.
    - intros (q & Hq & H'). apply elem_of_app in Hq as [Hq|Hq]; [left; eauto|].
      apply list_elem_of_singleton in Hq as ->. by right.
    - intros [(q & Hq & H')|H']; [exists q|exists p]; (split; [|done]);
        apply elem_of_app; [by left|right; by apply list_elem_of_singleton]. }
  destruct (decide _) as [Hbg|Hfg] in Hb.
  - injection Hb as <-. eapply forest_of_ext; [|done].
    intros a b. rewrite Hsplit. split; [by left|].
    intros [?|(i & _ & Hne & _)]; done.
  - eapply forest_of_ext; [intros a b; symmetry; apply Hsplit|].
    revert Hb. apply (for_loop_inv
      (fun dirs c => forest_of (fun a b => united pre a b \/ united_at p dirs a b) c)).
    + eapply forest_of_ext; [|done]. intros a b. rewrite united_at_nil. tauto.
    + intros dirs i post s s1 _ Hs Hl.
      eapply forest_of_ext; [|by eapply link_forest].
      intros a b. simpl. rewrite united_at_snoc. tauto.
Qed.

Lemma pass1_forest c :
  scan width height depth pass1_body zeroed = Ok c -> forest_of (united voxels) c.
Proof.
  rewrite scan_voxels. apply (for_loop_inv (fun pre c => forest_of (united pre) c)).
  - eapply forest_of_ext; [|apply forest_of_zeroed].
    intros a b. split; [done|]. intros (p & Hp & _). by apply elem_of_nil in Hp.
  - intros pre p post s s1 _. apply pass1_body_forest.
Qed.

Lemma voxel_eq (u v w u' v' w' : Z) :
  u = u' -> v = v' -> w = w' -> (u, v, w) = (u', v', w').
Proof. congruence. Qed.

Lemma face_neighbor_sym p q : face_neighbor p q -> face_neighbor q p.
Proof. destruct p as [[u v] w], q as [[u' v'] w']. unfold face_neighbor. lia. Qed.

Lemma face_neighbor_neighbor p i : 0 <= i < N -> face_neighbor p (neighbor p i).
Proof.
  destruct p as [[u v] w]. unfold N. intros Hi.
  assert (i = 0 \/ i = 1 \/ i = 2) as [-> | [-> | ->]] by lia;
    unfold face_neighbor, neighbor, at_; simpl; lia.
Qed.

Lemma neighbor_of_face p q :
  face_neighbor p q ->
  exists i, 0 <= i < N /\ (q = neighbor p i \/ p = neighbor q i).
Proof.
  destruct p as [[u v] w], q as [[u' v'] w']. unfold face_neighbor, N.
  intros [(Hu & -> & ->)|[(-> & Hv & ->)|(-> & -> & Hw)]].
  - exists 1. split; [lia|]. unfold neighbor, at_. simpl.
    destruct (decide (u' = u - 1)); [left|right]; apply voxel_eq; lia.
  - exists 2. split; [lia|]. unfold neighbor, at_. simpl.
    destruct (decide (v' = v - 1)); [left|right]; apply voxel_eq; lia.
  - exists 0. split; [lia|]. unfold neighbor, at_. simpl.
    destruct (decide (w' = w - 1)); [left|right]; apply voxel_eq; lia.
Qed.

Lemma united_step a a' :
  united voxels a a' ->
  exists p p', in_volume p /\ in_volume p' /\ a = node p /\ a' = node p' /\
               face_neighbor p p' /\ value p' = value p /\ value p <> backgroundColor.
Proof.
  intros (p & Hp & i & Hi & Hfg & Hin & Hv & -> & ->).
  apply elem_of_voxels in Hp. apply elem_of_seqZ in Hi.
  exists p, (neighbor p i). split_and!; try done. apply face_neighbor_neighbor. lia.
Qed.

Lemma step_united p p' :
  in_volume p -> in_volume p' -> face_neighbor p p' ->
  value p' = value p -> value p <> backgroundColor ->
  sc (united voxels) (node p) (node p').
Proof.
  intros Hp Hp' Hf Hv Hfg.
  destruct (neighbor_of_face p p' Hf) as (i & Hi & [-> | ->]); [left|right].
  - exists p. split; [by apply elem_of_voxels|]. exists i.
    split_and!; try done. apply elem_of_seqZ. lia.
  - exists p'. split; [by apply elem_of_voxels|]. exists i.
    split_and!; try done; [apply elem_of_seqZ; lia|congruence].
Qed.

Lemma united_connected p q :
  in_volume p -> in_volume q -> value p <> backgroundColor ->
  rtsc (united voxels) (node p) (node q) <-> connected p q.
Proof.
  intros Hp Hq Hfg. split.
  - intros Hr. remember (node p) as a eqn:Ea. remember (node q) as b eqn:Eb.
    revert p Hp Hfg Ea. induction Hr as [a|a m b Ham _ IH]; intros p Hp Hfg Ea.
    + assert (p = q) as -> by (apply node_inj; congruence). by exists [].
    + assert (exists p', in_volume p' /\ m = node p' /\ face_neighbor p p'
                         /\ value p' = value p) as (p' & Hp' & -> & Hf & Hv).
      { destruct Ham as [Hu|Hu]; apply united_step in Hu
          as (p0 & p1 & H0 & H1 & E0 & E1 & Hf & Hv & _).
        - assert (p = p0) as -> by (apply node_inj; congruence). eauto.
        - assert (p = p1) as -> by (apply node_inj; congruence).
          exists p0. split_and!; try done. by apply face_neighbor_sym. }
      destruct (IH Eb p' Hp') as (l & Hl & Hall); [congruence|done|].
      exists (p' :: l). split; [done|]. constructor; [done|].
      eapply List.Forall_impl; [|exact Hall]. simpl. intros x [? ?]. split; [done|congruence].
  - intros (l & Hl & Hall). revert p Hp Hfg Hl Hall.
    induction l as [|x l IH]; intros p Hp Hfg Hl Hall.
    + simpl in Hl. by subst.
    + destruct Hl as [Hf Hl]. apply List.Forall_cons_iff in Hall as [[Hx Hv] Hall].
      apply (rtc_l (sc (united voxels)) _ (node x)); [by apply step_united|].
      apply IH; [done|congruence|done|].
      eapply List.Forall_impl; [|exact Hall]. simpl. intros y [? ?]. split; [done|congruence].
Qed.

(** *** The second pass *)

Lemma root_set_label (c : store) r l m r' :
  root (<[r := set_label (c r) l]> c) m r' <-> root c m r'.
Proof.
  split; apply root_ext; intros n; fn_cases; done.
Qed.

Lemma wf_set_label (c : store) r l : wf c -> wf (<[r := set_label (c r) l]> c).
Proof.
  intros Hwf n. destruct (Hwf n) as [Hb Hp].
  split.
  - fn_cases; done.
  - intros p. fn_cases; simpl; intros Hn; fn_cases; simpl; by apply Hp.
Qed.

Lemma labelled_compressed c1 pre s c :
  labelled c1 pre s -> compressed (components s) c ->
  labelled c1 pre (mkLabelling c (label s) (statistics s) (outputBuffer s)).
Proof.
  intros [Hwf Hroots Hcnt Hfr Hinj Hbg Hfg Hlen Hsbg] Hc.
  assert (Hh : forall m, hasLabel_ (c m) = hasLabel_ (components s m))
    by (intros m; apply Hc).
  assert (Hl : forall m, label_ (c m) = label_ (components s m))
    by (intros m; apply Hc).
  constructor; simpl; try done.
  - by eapply compressed_wf.
  - intros m r. rewrite <- Hroots. by apply compressed_root.
  - intros m. rewrite Hh, Hl. apply Hfr.
  - intros m m'. rewrite !Hh, !Hl. apply Hinj.
  - intros p Hp Hv. destruct (Hfg p Hp Hv) as (r & ? & ? & ?).
    exists r. by rewrite Hh, Hl.
Qed.

Lemma labelled_write_bg c1 pre p s :
  (forall x, x ∈ pre -> out_at x <> out_at p) ->
  value p = backgroundColor -> labelled c1 pre s ->
  labelled c1 (pre ++ [p])
    (mkLabelling (components s) (label s) (statistics s)
       (<[out_at p := backgroundLabel]> (outputBuffer s))).
Proof.
  intros Hnew Hv [Hwf Hroots Hcnt Hfr Hinj Hbg Hfg Hlen Hsbg].
  constructor; simpl; try done.
  - intros x Hx Hxv. apply elem_of_app in Hx as [Hx|Hx].
    + rewrite fn_lookup_insert_ne by (apply not_eq_sym; auto). auto.
    + apply list_elem_of_singleton in Hx as ->. by rewrite fn_lookup_insert.
  - intros x Hx Hxv. apply elem_of_app in Hx as [Hx|Hx].
    + rewrite fn_lookup_insert_ne by (apply not_eq_sym; auto). auto.
    + apply list_elem_of_singleton in Hx as ->. done.
Qed.

Lemma labelled_write_fg c1 pre p s r :
  (forall x, x ∈ pre -> out_at x <> out_at p) ->
  value p <> backgroundColor -> root c1 (node p) r ->
  hasLabel_ (components s r) = true -> labelled c1 pre s ->
  labelled c1 (pre ++ [p])
    (mkLabelling (components s) (label s) (statistics s)
       (<[out_at p := label_ (components s r)]> (outputBuffer s))).
Proof.
  intros Hnew Hv Hr Hh [Hwf Hroots Hcnt Hfr Hinj Hbg Hfg Hlen Hsbg].
  constructor; simpl; try done.
  - intros x Hx Hxv. apply elem_of_app in Hx as [Hx|Hx].
    + rewrite fn_lookup_insert_ne by (apply not_eq_sym; auto). auto.
    + apply list_elem_of_singleton in Hx as ->. done.
  - intros x Hx Hxv. apply elem_of_app in Hx as [Hx|Hx].
    + rewrite fn_lookup_insert_ne by (apply not_eq_sym; auto). auto.
    + apply list_elem_of_singleton in Hx as ->. exists r. by rewrite fn_lookup_insert.
Qed.

Lemma last_used_write pre p (s : @labelling T) c l :
  (forall x, x ∈ pre -> out_at x <> out_at p) -> last_used pre s ->
  last_used (pre ++ [p])
    (mkLabelling c (label s) (statistics s) (<[out_at p := l]> (outputBuffer s))).
Proof.
  intros Hnew [?|[?|(x & Hx & Ho)]]; [by left|by right; left|].
  right. right. exists x. split; [apply elem_of_app; by left|]. simpl.
  rewrite fn_lookup_insert_ne by (apply not_eq_sym; auto). done.
Qed.

Lemma incr_small l : 0 <= l < U_MAX -> incr l = l + 1.
Proof. intros Hl. unfold Components.incr. apply Z.mod_small. lia. Qed.

Lemma labelled_take c1 pre s r o s2 :
  labelled c1 pre s -> hasLabel_ (components s r) = false ->
  take_label r o s = Ok s2 ->
  labelled c1 pre s2 /\
  hasLabel_ (components s2 r) = true /\ label_ (components s2 r) = label s /\
  outputBuffer s2 = outputBuffer s /\ label s < label s2 /\
  (label s2 - 1 = label s \/ label s2 - 1 = backgroundLabel) /\
  exists extra, statistics s2 = statistics s ++ extra /\
                Forall (fun st => pixelCount_ st = 0) extra.
Proof.
  intros [Hwf Hroots Hcnt Hfr Hinj Hbg Hfg Hlen Hsbg] Hh Ht.
  unfold Components.take_label in Ht.
  destruct (Z.eqb_spec (label s) U_MAX) as [|Hmax]; [discriminate|].
  rewrite (incr_small (label s)) in Ht by lia.
  set (c := <[r := set_label (components s r) (label s)]> (components s)) in *.
  assert (Hcr : c r = set_label (components s r) (label s))
    by (unfold c; by rewrite fn_lookup_insert).
  assert (Hco : forall m, m <> r -> c m = components s m)
    by (intros m Hm; unfold c; by rewrite fn_lookup_insert_ne).
  assert (Hfresh' : forall l', label s < l' -> forall m, hasLabel_ (c m) = true ->
            0 <= label_ (c m) < l' /\ label_ (c m) <> backgroundLabel).
  { intros l' Hl' m. destruct (decide (m = r)) as [->|Hm].
    - rewrite Hcr. simpl. lia.
    - rewrite Hco by done. intros Hm'. destruct (Hfr m Hm'). lia. }
  assert (Hinj' : forall m m', hasLabel_ (c m) = true -> hasLabel_ (c m') = true ->
            label_ (c m) = label_ (c m') -> m = m').
  { intros m m'. destruct (decide (m = r)) as [->|Hm], (decide (m' = r)) as [->|Hm'];
      rewrite ?Hcr, ?Hco by done; simpl; try done.
    - intros _ H' E. destruct (Hfr m' H'). lia.
    - intros H' _ E. destruct (Hfr m H'). lia.
    - apply Hinj. }
  assert (Hfg' : forall p, p ∈ pre -> value p <> backgroundColor ->
            exists r0, root c1 (node p) r0 /\ hasLabel_ (c r0) = true /\
                       outputBuffer s (out_at p) = label_ (c r0)).
  { intros p Hp Hv. destruct (Hfg p Hp Hv) as (r0 & ? & H0 & ?). exists r0.
    assert (r0 <> r) by congruence. by rewrite Hco. }
  assert (Hwf' : wf c) by by apply wf_set_label.
  assert (Hroots' : forall m r0, root c m r0 <-> root c1 m r0).
  { intros m r0. unfold c. rewrite root_set_label. apply Hroots. }
  destruct (Z.eqb_spec (label s + 1) backgroundLabel) as [Hskip|Hskip].
  - destruct (Z.eqb_spec (label s + 1) U_MAX) as [|Hmax']; [discriminate|].
    rewrite incr_small in Ht by lia. injection Ht as <-. simpl.
    split; [|rewrite Hcr; simpl; split_and!; try done; [lia|lia|]].
    + constructor; simpl; try done.
      * lia.
      * apply Hfresh'. lia.
      * unfold push_back. rewrite !length_app. simpl. lia.
      * intros _. exists (mkStat 0 backgroundColor). split; [|done].
        apply list_lookup_middle. unfold push_back. rewrite length_app. simpl. lia.
    + eexists. split; [unfold push_back; by rewrite <- app_assoc|].
      repeat constructor.
  - injection Ht as <-. simpl.
    split; [|rewrite Hcr; simpl; split_and!; try done; [lia|lia|]].
    + constructor; simpl; try done.
      * lia.
      * apply Hfresh'. lia.
      * unfold push_back. rewrite !length_app. simpl. lia.
      * intros Hb. destruct Hsbg as (st & Hst & ?); [lia|].
        exists st. split; [|done]. unfold push_back. by apply lookup_app_l_Some.
    + eexists. split; [done|]. repeat constructor.
Qed.

Lemma total_count_app (l1 l2 : list (@ComponentStatistics T)) :
  total_count (l1 ++ l2) = total_count l1 + total_count l2.
Proof. induction l1 as [|x l1 IH]; simpl; [done|]. rewrite IH. lia. Qed.

Lemma total_count_zero (l : list (@ComponentStatistics T)) :
  Forall (fun st => pixelCount_ st = 0) l -> total_count l = 0.
Proof. induction 1 as [|x l Hx _ IH]; simpl; [done|]. lia. Qed.

Lemma counted_app pre (st extra : list (@ComponentStatistics T)) :
  Forall (fun st => pixelCount_ st = 0) extra ->
  counted pre st -> counted pre (st ++ extra).
Proof.
  intros Hz [Hpos Hsum]. split.
  - apply Forall_app. split; [done|]. eapply List.Forall_impl; [|exact Hz]. simpl. lia.
  - intros Hl. rewrite total_count_app, (total_count_zero extra Hz), Hsum by done. lia.
Qed.

Lemma assign_label_step c1 pre p s s1 :
  (forall x, x ∈ pre -> out_at x <> out_at p) ->
  labelled c1 pre s -> last_used pre s -> counted pre (statistics s) ->
  assign_label p s = Ok s1 ->
  labelled c1 (pre ++ [p]) s1 /\ last_used (pre ++ [p]) s1 /\ counted pre (statistics s1) /\
  label s <= label s1 /\
  forall x, x ∈ pre -> outputBuffer s1 (out_at x) = outputBuffer s (out_at x).
Proof.
  intros Hnew Hlab Hlast Hcnt Ha. unfold Components.assign_label in Ha.
  assert (Hframe : forall l (out : Z -> Z) x, x ∈ pre ->
            (<[out_at p := l]> out) (out_at x) = out (out_at x)).
  { intros l out x Hx. rewrite fn_lookup_insert_ne; [done|]. apply not_eq_sym. auto. }
  destruct (decide _) as [Hv|Hv] in Ha.
  - injection Ha as <-.
    split_and!; [by apply labelled_write_bg|by apply last_used_write|done|done|].
    simpl. auto.
  - apply result_bind_Ok in Ha as ([r c] & Hfind & Ha). simpl in Ha.
    apply result_bind_Ok in Ha as (s2 & Hs2 & Ha). injection Ha as <-.
    apply find_Ok in Hfind as (Hr & Hc & _).
    apply (lab_roots _ _ _ _ _ _ _ _ _ _ _ _ _ Hlab) in Hr.
    pose proof (labelled_compressed _ _ _ _ Hlab Hc) as Hlab0.
    destruct (hasLabel_ (c r)) eqn:Hh.
    + injection Hs2 as <-. simpl.
      split_and!; [|by apply (last_used_write pre p s)|done|done|auto].
      by apply (labelled_write_fg c1 pre p
                  (mkLabelling c (label s) (statistics s) (outputBuffer s)) r).
    + apply (labelled_take c1 pre _ r) in Hs2
        as (Hlab2 & Hh2 & Hl2 & Ho2 & Hlt & Hnext & extra & Hst & Hz); [|done|done].
      simpl in *. split_and!.
      * by apply (labelled_write_fg c1 pre p s2 r).
      * destruct Hnext as [Hn|Hn]; [|by right; left].
        right. right. exists p. split; [apply elem_of_app; right; by apply list_elem_of_singleton|].
        simpl. rewrite fn_lookup_insert. lia.
      * rewrite Hst. by apply counted_app.
      * lia.
      * rewrite Ho2. auto.
Qed.

Lemma total_count_alter (f : @ComponentStatistics T -> _) l i x :
  l !! i = Some x ->
  total_count (alter f i l) = total_count l - pixelCount_ x + pixelCount_ (f x).
Proof.
  revert i. induction l as [|y l IH]; intros [|i] Hi; simplify_eq/=; [lia|].
  rewrite (IH i Hi). lia.
Qed.

Lemma total_count_ge (l : list (@ComponentStatistics T)) i x :
  Forall (fun s => 0 <= pixelCount_ s) l -> l !! i = Some x -> pixelCount_ x <= total_count l.
Proof.
  intros Hl. revert i. induction Hl as [|y l Hy Hl IH]; intros [|i] Hi; simplify_eq/=.
  - assert (0 <= total_count l); [|lia]. clear -Hl. induction Hl; simpl; lia.
  - specialize (IH i Hi). lia.
Qed.

Lemma count_Ok (st : list (@ComponentStatistics T)) i st' :
  count st i = Ok st' ->
  0 <= i < Z.of_nat (length st) /\ length st' = length st /\
  forall j x, st !! j = Some x -> exists x', st' !! j = Some x' /\ inputLabel_ x' = inputLabel_ x.
Proof.
  unfold count. intros Hc.
  destruct (Z.leb_spec 0 i), (Z.ltb_spec i (Z.of_nat (length st))); simplify_eq/=.
  split; [lia|]. split; [by rewrite length_alter|].
  intros j x Hj. destruct (decide (Z.to_nat i = j)) as [<-|Hne].
  - rewrite list_lookup_alter_eq, Hj. simpl. eexists. split; reflexivity.
  - rewrite list_lookup_alter_ne by done. eauto.
Qed.

Lemma counted_count pre p (st : list (@ComponentStatistics T)) i st' :
  counted pre st -> count st i = Ok st' -> counted (pre ++ [p]) st'.
Proof.
  intros [Hpos Hsum] Hc. pose proof (count_Ok _ _ _ Hc) as (Hi & _).
  unfold count in Hc.
  destruct (Z.leb_spec 0 i), (Z.ltb_spec i (Z.of_nat (length st))); simplify_eq/=.
  destruct (lookup_lt_is_Some_2 st (Z.to_nat i)) as [x Hx]; [lia|].
  split.
  - apply Forall_alter; [done|]. intros y _ _. simpl.
    pose proof (Z.mod_pos_bound (pixelCount_ y + 1) (ULONG_MAX + 1)).
    unfold ULONG_MAX in *. lia.
  - rewrite length_app. simpl. intros Hlen.
    rewrite (total_count_alter _ _ _ _ Hx). simpl.
    pose proof (total_count_ge _ _ _ Hpos Hx) as Hle.
    rewrite Forall_lookup in Hpos. specialize (Hpos _ _ Hx). simpl in Hpos.
    rewrite Hsum in * by lia. rewrite Z.mod_small by lia. lia.
Qed.

Lemma labelled_stats c1 pre s st' :
  length st' = length (statistics s) ->
  (forall j x, statistics s !! j = Some x ->
     exists x', st' !! j = Some x' /\ inputLabel_ x' = inputLabel_ x) ->
  labelled c1 pre s ->
  labelled c1 pre (mkLabelling (components s) (label s) st' (outputBuffer s)).
Proof.
  intros Hlen Hst [Hwf Hroots Hcnt Hfr Hinj Hbg Hfg Hl Hsbg].
  constructor; simpl; try done.
  - by rewrite Hlen.
  - intros Hb. destruct (Hsbg Hb) as (x & Hx & Hxl).
    destruct (Hst _ _ Hx) as (x' & ? & ?). exists x'. split; [done|congruence].
Qed.

Lemma pass2_body_step c1 pre p s s' :
  (forall x, x ∈ pre -> out_at x <> out_at p) ->
  labelled c1 pre s -> last_used pre s -> counted pre (statistics s) ->
  labels_in_range pre s ->
  pass2_body p s = Ok s' ->
  labelled c1 (pre ++ [p]) s' /\ last_used (pre ++ [p]) s' /\
  counted (pre ++ [p]) (statistics s') /\ labels_in_range (pre ++ [p]) s'.
Proof.
  intros Hnew Hlab Hlast Hcnt Hrange Hb. unfold Components.pass2_body in Hb.
  apply result_bind_Ok in Hb as (s1 & Ha & Hb).
  apply result_bind_Ok in Hb as (st & Hc & Hb). injection Hb as <-.
  destruct (assign_label_step _ _ _ _ _ Hnew Hlab Hlast Hcnt Ha)
    as (Hlab1 & Hlast1 & Hcnt1 & Hmono & Hframe).
  pose proof (count_Ok _ _ _ Hc) as (Hi & Hlen & Hst).
  split_and!; simpl.
  - by apply labelled_stats.
  - done.
  - by eapply counted_count.
  - intros x Hx. simpl. apply elem_of_app in Hx as [Hx|Hx].
    + rewrite Hframe by done. specialize (Hrange x Hx). lia.
    + apply list_elem_of_singleton in Hx as ->.
      by rewrite <- (lab_stats_len _ _ _ _ _ _ _ _ _ _ _ _ _ Hlab1).
Qed.

Lemma pass2_init_labelled E c1 out0 :
  0 < U_MAX -> forest_of E c1 ->
  labelled c1 [] (pass2_init c1 out0) /\ last_used [] (pass2_init c1 out0) /\
  counted [] (statistics (pass2_init c1 out0)) /\ labels_in_range [] (pass2_init c1 out0).
Proof.
  intros HU (Hwf & Hno & _). unfold Components.pass2_init.
  destruct (Z.eqb_spec 0 backgroundLabel) as [<-|Hbg].
  - rewrite incr_small by lia. split_and!.
    + constructor; simpl; try done.
      * lia.
      * intros m. by rewrite Hno.
      * intros m m'. by rewrite Hno.
      * intros p Hp. by apply elem_of_nil in Hp.
      * intros p Hp. by apply elem_of_nil in Hp.
      * intros _. by exists (mkStat 0 backgroundColor).
    + right. by left.
    + split; [by repeat constructor|done].
    + intros p Hp. by apply elem_of_nil in Hp.
  - split_and!.
    + constructor; simpl; try done.
      * lia.
      * intros m. by rewrite Hno.
      * intros m m'. by rewrite Hno.
      * intros p Hp. by apply elem_of_nil in Hp.
      * intros p Hp. by apply elem_of_nil in Hp.
      * lia.
    + by left.
    + split; [by constructor|done].
    + intros p Hp. by apply elem_of_nil in Hp.
Qed.

Lemma pass2_labelled E c1 out0 s :
  0 < U_MAX -> distinct_cells -> forest_of E c1 ->
  scan width height depth pass2_body (pass2_init c1 out0) = Ok s ->
  labelled c1 voxels s /\ last_used voxels s /\ counted voxels (statistics s) /\
  labels_in_range voxels s.
Proof.
  intros HU Hcells Hc1. rewrite scan_voxels.
  apply (for_loop_inv (fun pre s =>
           labelled c1 pre s /\ last_used pre s /\ counted pre (statistics s) /\
           labels_in_range pre s)).
  - by eapply pass2_init_labelled.
  - intros pre p post s0 s1 Hl (Hlab & Hlast & Hcnt & Hrange) Hb.
    apply (pass2_body_step c1 pre p s0 s1); try done.
    intros x Hx Heq. pose proof NoDup_voxels as Hnd. rewrite Hl in Hnd.
    apply list.NoDup_app in Hnd as (_ & Hnd & _).
    apply (Hnd x Hx). assert (x = p) as ->; [|by left].
    apply Hcells; [| |done]; apply elem_of_voxels; rewrite Hl;
      apply elem_of_app; [by left|right; by left].
Qed.

(** Every run that returns went through a forest of the pairs united in
    the first pass and a labelling of all voxels. *)
Lemma findConnectedComponents3d_Ok out0 stats out :
  0 < U_MAX -> distinct_cells ->
  findConnectedComponents3d out0 = Ok (stats, out) ->
  exists c1 s, forest_of (united voxels) c1 /\ labelled c1 voxels s /\
               last_used voxels s /\ counted voxels (statistics s) /\
               labels_in_range voxels s /\
               stats = statistics s /\ out = outputBuffer s.
Proof.
  intros HU Hcells Hrun. unfold Components.findConnectedComponents3d in Hrun.
  apply result_bind_Ok in Hrun as (c1 & H1 & Hrun).
  apply result_bind_Ok in Hrun as (s & H2 & Hrun). injection Hrun as <- <-.
  apply pass1_forest in H1.
  destruct (pass2_labelled _ _ _ _ HU Hcells H1 H2) as (? & ? & ? & ?).
  by exists c1, s.
Qed.

(** In a run that returns, two foreground voxels
    carry the same output label exactly if a path of face neighbours, all
    with their input value, joins them. *)
Lemma labels_connected out0 stats out p q :
  0 < U_MAX -> distinct_cells ->
  findConnectedComponents3d out0 = Ok (stats, out) ->
  in_volume p -> in_volume q ->
  value p <> backgroundColor -> value q <> backgroundColor ->
  out (out_at p) = out (out_at q) <-> connected p q.
Proof.
  intros HU Hcells Hrun Hp Hq Hvp Hvq.
  destruct (findConnectedComponents3d_Ok _ _ _ HU Hcells Hrun)
    as (c1 & s & (Hwf & _ & Hsame) & Hlab & _ & _ & _ & _ & ->).
  destruct Hlab as [_ _ _ _ Hinj _ Hfg _ _].
  destruct (Hfg p) as (rp & Hrp & Hhp & ->); [by apply elem_of_voxels|done|].
  destruct (Hfg q) as (rq & Hrq & Hhq & ->); [by apply elem_of_voxels|done|].
  rewrite <- united_connected by done. rewrite <- Hsame. split.
  - intros Heq. apply Hinj in Heq as ->; [|done|done]. by exists rq.
  - intros (r & Hr1 & Hr2).
    by rewrite (root_det _ _ _ _ Hrp Hr1), (root_det _ _ _ _ Hrq Hr2).
Qed.

(** C10.  In every run of [findConnectedComponents3d] that returns, no
    foreground voxel (input value other than the background value) carries
    the reserved label [backgroundLabel] in the output volume, so that the
    voxels labelled [backgroundLabel] are exactly the background voxels.
    (The label type has at least two values, and distinct voxels have
    distinct cells in the output buffer.) *)
Theorem foreground_not_background_label out0 stats out p :
  0 < U_MAX -> distinct_cells ->
  findConnectedComponents3d out0 = Ok (stats, out) ->
  in_volume p ->
  (value p <> backgroundColor -> out (out_at p) <> backgroundLabel) /\
  (out (out_at p) = backgroundLabel <-> value p = backgroundColor).
Proof.
  intros HU Hcells Hrun Hp.
  destruct (findConnectedComponents3d_Ok _ _ _ HU Hcells Hrun)
    as (c1 & s & _ & Hlab & _ & _ & _ & _ & ->).
  destruct Hlab as [_ _ _ Hfr _ Hbg Hfg _ _].
  assert (Hne : value p <> backgroundColor -> outputBuffer s (out_at p) <> backgroundLabel).
  { intros Hv. destruct (Hfg p) as (r & _ & Hh & ->); [by apply elem_of_voxels|done|].
    by apply Hfr. }
  split; [done|]. split.
  - intros Ho. destruct (decide (value p = backgroundColor)) as [|Hv]; [done|].
    by destruct (Hne Hv).
  - apply Hbg. by apply elem_of_voxels.
Qed.

(** *** Runs end by returning or throwing *)

Lemma link_kind p i c :
  wf c ->
  (exists c', link p i c = Ok c' /\ wf c') \/ link p i c = Throw GraphOverflow.
Proof.
  intros Hwf. destruct p as [[u v] w]. unfold Components.link.
  destruct (_ && _); [|eauto]. destruct (decide _); [|eauto].
  destruct (unite_kind c (node (u, v, w))
              ((w + at_ dw i) * width * height + (v + at_ dv i) * width + u + at_ du i) Hwf)
    as [[c' Hc']| ->]; [left|by right].
  exists c'. split; [done|]. by destruct (unite_Ok _ _ _ _ Hwf Hc').
Qed.

Lemma pass1_kind bad :
  bad = NoFuel \/ bad = Undefined ->
  kind (scan width height depth pass1_body zeroed) <> bad.
Proof.
  intros Hbad. rewrite scan_voxels.
  apply (for_loop_kind (fun _ c => wf c)).
  - by destruct Hbad as [-> | ->].
  - apply forest_of_zeroed.
  - intros pre p post c _ Hwf. unfold Components.pass1_body.
    destruct (decide _); [split; [by destruct Hbad as [-> | ->]|by intros ? [= <-]]|].
    split.
    + apply (for_loop_kind (fun _ c => wf c)); [by destruct Hbad as [-> | ->]|done|].
      intros dirs i rest c0 _ Hwf0.
      destruct (link_kind p i c0 Hwf0) as [(c' & -> & Hwf')| ->].
      * split; [by destruct Hbad as [-> | ->]|by intros ? [= <-]].
      * split; [by destruct Hbad as [-> | ->]|done].
    + intros s1. apply (for_loop_inv (fun _ c => wf c)); [done|].
      intros dirs i rest c0 c1 _ Hwf0 Hl.
      destruct (link_kind p i c0 Hwf0) as [(c' & Hc' & Hwf')|Hc']; [|congruence].
      rewrite Hc' in Hl. by injection Hl as <-.
Qed.

Lemma assign_label_kind c1 pre p s :
  labelled c1 pre s ->
  (exists s1, assign_label p s = Ok s1) \/ assign_label p s = Throw TooManyComponents.
Proof.
  intros Hlab. unfold Components.assign_label.
  destruct (decide _); [eauto|].
  destruct (find_total (components s) (node p)) as (r & c & ->);
    [apply (lab_wf _ _ _ _ _ _ _ _ _ _ _ _ _ Hlab)|].
  cbn [mbind result_bind]. destruct (hasLabel_ (c r)); cbn [mbind result_bind]; [eauto|].
  unfold Components.take_label. cbn [label components statistics outputBuffer].
  repeat (match goal with |- context [if ?b then _ else _] => destruct b end;
          cbn [mbind result_bind]; eauto).
Qed.

Lemma pass2_body_kind c1 pre p s :
  (forall x, x ∈ pre -> out_at x <> out_at p) ->
  labelled c1 pre s -> last_used pre s -> counted pre (statistics s) ->
  kind (pass2_body p s) <> NoFuel /\
  (backgroundLabel = 0 -> kind (pass2_body p s) <> Undefined).
Proof.
  intros Hnew Hlab Hlast Hcnt. unfold Components.pass2_body.
  destruct (assign_label_kind c1 pre p s Hlab) as [[s1 Ha]|Ha]; rewrite Ha;
    cbn [mbind result_bind]; [|done].
  destruct (assign_label_step _ _ _ _ _ Hnew Hlab Hlast Hcnt Ha) as (Hlab1 & _).
  unfold Components.count.
  destruct (_ && _) eqn:Hin; cbn [mbind result_bind kind]; [done|].
  split; [done|]. intros Hz _.
  destruct Hlab1 as [_ _ Hc Hfr _ Hbg Hfg Hlen _].
  assert (Hp : p ∈ pre ++ [p]) by (apply elem_of_app; right; by left).
  assert (0 <= outputBuffer s1 (out_at p) < Z.of_nat (length (statistics s1))); [|lia].
  rewrite Hlen. destruct (decide (value p = backgroundColor)) as [Hv|Hv].
  - rewrite (Hbg p Hp Hv). lia.
  - destruct (Hfg p Hp Hv) as (r & _ & Hh & ->). by apply Hfr.
Qed.

(** The recursion bound of [find] is never exhausted, and with the
    reserved label 0 no index into the statistics is out of range: such a
    run returns or throws. *)
Lemma findConnectedComponents3d_kind out0 :
  0 < U_MAX -> distinct_cells ->
  kind (findConnectedComponents3d out0) <> NoFuel /\
  (backgroundLabel = 0 -> kind (findConnectedComponents3d out0) <> Undefined).
Proof.
  intros HU Hcells. unfold Components.findConnectedComponents3d.
  pose proof (pass1_kind NoFuel (or_introl eq_refl)) as H1.
  pose proof (pass1_kind Undefined (or_intror eq_refl)) as H1'.
  destruct (scan width height depth pass1_body zeroed) as [c1| | |] eqn:Hp1;
    cbn [mbind result_bind kind] in *; try done.
  apply pass1_forest in Hp1.
  assert (H2 : forall bad, bad = NoFuel \/ (bad = Undefined /\ backgroundLabel = 0) ->
            kind (scan width height depth pass2_body (pass2_init c1 out0)) <> bad).
  { intros bad Hbad. rewrite scan_voxels.
    apply (for_loop_kind (fun pre s =>
             labelled c1 pre s /\ last_used pre s /\ counted pre (statistics s) /\
             labels_in_range pre s)).
    - by destruct Hbad as [-> | [-> _]].
    - by eapply pass2_init_labelled.
    - intros pre p post s Hl (Hlab & Hlast & Hcnt & Hrange).
      assert (Hnew : forall x, x ∈ pre -> out_at x <> out_at p).
      { intros x Hx Heq. pose proof NoDup_voxels as Hnd. rewrite Hl in Hnd.
        apply list.NoDup_app in Hnd as (_ & Hnd & _).
        apply (Hnd x Hx). assert (x = p) as ->; [|by left].
        apply Hcells; [| |done]; apply elem_of_voxels; rewrite Hl;
          apply elem_of_app; [by left|right; by left]. }
      destruct (pass2_body_kind c1 pre p s Hnew Hlab Hlast Hcnt) as [Hk1 Hk2].
      split.
      + destruct Hbad as [-> | [-> Hz]]; auto.
      + intros s1 Hs1. by apply (pass2_body_step c1 pre p s s1). }
  pose proof (H2 NoFuel (or_introl eq_refl)) as H3.
  destruct (scan width height depth pass2_body (pass2_init c1 out0)) as [s| | |] eqn:Hp2;
    cbn [mbind result_bind kind] in *; try done.
  split; [done|]. intros Hz. by apply (H2 Undefined (or_intror (conj eq_refl Hz))).
Qed.

Lemma background_entry out0 stats out :
  0 < U_MAX -> distinct_cells -> backgroundLabel = 0 ->
  findConnectedComponents3d out0 = Ok (stats, out) ->
  (forall p, in_volume p -> value p = backgroundColor -> out (out_at p) = backgroundLabel) /\
  exists st, stats !! Z.to_nat backgroundLabel = Some st /\ inputLabel_ st = backgroundColor.
Proof.
  intros HU Hcells Hz Hrun.
  destruct (findConnectedComponents3d_Ok _ _ _ HU Hcells Hrun)
    as (c1 & s & _ & Hlab & _ & _ & _ & -> & ->).
  destruct Hlab as [_ _ Hcnt _ _ Hbg _ _ Hsbg]. split.
  - intros p Hp. apply Hbg. by apply elem_of_voxels.
  - apply Hsbg. lia.
Qed.

Lemma length_bind_const {A B} (l : list A) (f : A -> list B) n :
  (forall x, length (f x) = n) -> length (l ≫= f) = (length l * n)%nat.
Proof.
  intros Hf. induction l as [|x l IH]; [done|].
  change ((x :: l) ≫= f) with (f x ++ (l ≫= f)). rewrite length_app, Hf, IH. simpl. lia.
Qed.

Lemma length_voxels :
  0 <= width -> 0 <= height -> 0 <= depth ->
  Z.of_nat (length voxels) = width * height * depth.
Proof.
  intros HW HH HD. unfold Components.voxels.
  rewrite (length_bind_const _ _ (Z.to_nat height * Z.to_nat width)%nat).
  - rewrite length_seqZ. nia.
  - intros w. rewrite (length_bind_const _ _ (Z.to_nat width)).
    + by rewrite length_seqZ.
    + intros v. rewrite (length_bind_const _ _ 1%nat); [|done].
      rewrite length_seqZ. lia.
Qed.

Lemma max_label_ge (out : Z -> Z) p : in_volume p -> out (out_at p) <= max_label out.
Proof.
  intros Hp. apply elem_of_voxels in Hp. unfold Components.max_label.
  induction voxels as [|x l IH]; [by apply elem_of_nil in Hp|].
  simpl. apply elem_of_cons in Hp as [->|Hp]; [lia|]. specialize (IH Hp). lia.
Qed.

Lemma max_label_le (out : Z -> Z) M :
  0 <= M -> (forall p, in_volume p -> out (out_at p) <= M) -> max_label out <= M.
Proof.
  intros HM Hall. unfold Components.max_label.
  assert (Hall' : forall p, p ∈ voxels -> out (out_at p) <= M)
    by (intros p Hp; by apply Hall, elem_of_voxels).
  clear Hall. induction voxels as [|x l IH]; simpl; [done|].
  assert (out (out_at x) <= M) by (apply Hall'; by left).
  assert (foldr (fun p m => Z.max (out (out_at p)) m) 0 l <= M); [|lia].
  apply IH. intros p Hp. apply Hall'. by right.
Qed.

(** C9, as amended.  In every run of [findConnectedComponents3d] that
    returns, on a volume whose dimensions are not negative, whose voxel
    count fits an [int] and whose voxels have distinct cells in the output
    buffer, with a label type of at least two values: every label in the
    output volume is an index into the returned statistics, the pixel
    counts sum to [width * height * depth], and, when the reserved label
    is 0 (the label that the public entry points pass), the length of the
    statistics is the largest label in the output volume plus one. *)
Theorem statistics_shape out0 stats out :
  0 < U_MAX -> distinct_cells ->
  0 <= width -> 0 <= height -> 0 <= depth -> width * height * depth <= INT_MAX ->
  findConnectedComponents3d out0 = Ok (stats, out) ->
  (forall p, in_volume p -> 0 <= out (out_at p) < Z.of_nat (length stats)) /\
  total_count stats = width * height * depth /\
  (backgroundLabel = 0 -> Z.of_nat (length stats) = max_label out + 1).
Proof.
  intros HU Hcells HW HH HD Hint Hrun.
  destruct (findConnectedComponents3d_Ok _ _ _ HU Hcells Hrun)
    as (c1 & s & _ & Hlab & Hlast & [_ Hsum] & Hrange & -> & ->).
  destruct Hlab as [_ _ Hcnt _ _ _ _ Hlen _]. rewrite Hlen.
  assert (Hin : forall p, in_volume p -> 0 <= outputBuffer s (out_at p) < label s).
  { intros p Hp. by apply Hrange, elem_of_voxels. }
  split; [done|]. split.
  - rewrite Hsum; rewrite length_voxels by done; [done|].
    unfold INT_MAX, ULONG_MAX in *. lia.
  - intros Hz. assert (max_label (outputBuffer s) <= label s - 1).
    { apply max_label_le; [lia|]. intros p Hp. specialize (Hin p Hp). lia. }
    destruct Hlast as [?|[?|(p & Hp & Ho)]]; [lia| |].
    + assert (0 <= max_label (outputBuffer s)); [|lia].
      unfold Components.max_label. clear. induction voxels; simpl; lia.
    + apply elem_of_voxels in Hp. pose proof (max_label_ge (outputBuffer s) p Hp). lia.
Qed.

(** *** Where the run writes *)





(** *** How a run ends *)

Lemma for_loop_total {A S} (I : S -> Prop) (body : A -> S -> result S) l s0 :
  I s0 ->
  (forall x s, x ∈ l -> I s -> exists s1, body x s = Ok s1 /\ I s1) ->
  exists s', for_loop l body s0 = Ok s' /\ I s'.
Proof.
  revert s0. induction l as [|x l IH]; intros s0 H0 Hstep; [by exists s0|].
  destruct (Hstep x s0) as (s1 & Hs1 & H1); [by left|done|].
  destruct (IH s1 H1) as (s' & Hs' & H'); [intros; apply Hstep; [by right|done]|].
  exists s'. simpl. rewrite Hs1. by simpl.
Qed.

Lemma at_most_nodes :
  0 <= width -> 0 <= height -> 0 <= depth ->
  at_most (is_node width height depth) (width * height * depth).
Proof.
  intros Hw Hh Hd l Hnd Hl. rewrite <- length_voxels by done.
  rewrite <- (length_fmap node voxels).
  apply (at_most_list (node <$> voxels)); [done|].
  intros m Hm. destruct (Hl m Hm) as (p & Hp & ->).
  apply list_elem_of_fmap. exists p. split; [done|]. by apply elem_of_voxels.
Qed.

Lemma link_returns N p i c :
  at_most (is_node width height depth) N -> N < 2 ^ (RANK_MAX + 1) ->
  in_volume p -> wf c -> sized (is_node width height depth) c ->
  exists c', link p i c = Ok c' /\ wf c' /\ sized (is_node width height depth) c'.
Proof.
  intros HN Hb Hp Hwf Hs. destruct p as [[u v] w]. unfold Components.link.
  destruct (_ && _) eqn:Hin; [|by exists c]. destruct (decide _); [|by exists c].
  rewrite node_neighbor.
  apply (unite_sized _ N); try done.
  - by exists (u, v, w).
  - exists (neighbor (u, v, w) i). split; [|done]. simpl. unfold in_volume. simpl. lia.
Qed.

(** The first pass returns: no rank overflows on a volume whose voxel
    count is an [int]. *)
Lemma pass1_returns :
  0 <= width -> 0 <= height -> 0 <= depth -> width * height * depth <= INT_MAX ->
  exists c, scan width height depth pass1_body zeroed = Ok c.
Proof.
  intros Hw Hh Hd Hsize. rewrite scan_voxels.
  assert (Hb : width * height * depth < 2 ^ (RANK_MAX + 1)).
  { pose proof (Z.pow_le_mono_r 2 31 (RANK_MAX + 1) ltac:(lia) ltac:(unfold RANK_MAX; lia)) as H.
    change (2 ^ 31) with 2147483648 in H. unfold INT_MAX in Hsize. lia. }
  destruct (for_loop_total (fun c => wf c /\ sized (is_node width height depth) c)
              pass1_body voxels zeroed) as (c & Hc & _).
  - split; [apply forest_of_zeroed|apply sized_zeroed].
  - intros p c Hp [Hwf Hs]. unfold Components.pass1_body.
    destruct (decide _); [by exists c|].
    apply (for_loop_total (fun c => wf c /\ sized (is_node width height depth) c)); [done|].
    intros i c0 _ [Hwf0 Hs0].
    destruct (link_returns _ p i c0 (at_most_nodes Hw Hh Hd) Hb) as (c' & ? & ? & ?);
      [by apply elem_of_voxels|done|done|].
    by exists c'.
  - by exists c.
Qed.

Lemma pass1_throws e :
  kind (scan width height depth pass1_body zeroed) = Throw e -> e = GraphOverflow.
Proof.
  intros Hk. destruct (decide (e = GraphOverflow)) as [|Hne]; [done|]. exfalso.
  revert Hk. rewrite scan_voxels.
  apply (for_loop_kind (fun _ _ => True)); [done|done|].
  intros pre p post c _ _. split; [|done]. unfold Components.pass1_body.
  destruct (decide _); [done|].
  apply (for_loop_kind (fun _ _ => True)); [done|done|].
  intros dirs i rest c0 _ _. split; [|done].
  destruct p as [[u v] w]. unfold Components.link.
  destruct (_ && _); [|done]. destruct (decide _); [|done].
  destruct (unite _ _ _) eqn:Hu; simpl; try done.
  apply unite_throws in Hu. congruence.
Qed.

Lemma pass2_body_throws p s e :
  kind (pass2_body p s) = Throw e -> e = TooManyComponents.
Proof.
  unfold Components.pass2_body, Components.assign_label.
  destruct (decide _).
  - cbn [mbind result_bind]. unfold Components.count.
    by destruct (_ && _).
  - destruct (find_kind (components s) (node p)) as [(r & c & ->)| ->]; [|done].
    cbn [mbind result_bind]. destruct (hasLabel_ (c r)).
    + cbn [mbind result_bind]. unfold Components.count. by destruct (_ && _).
    + unfold Components.take_label. cbn [label components statistics outputBuffer].
      repeat (match goal with |- context [if ?b then _ else _] => destruct b end;
              cbn [mbind result_bind kind]; try done; try (by intros [= <-]));
      unfold Components.count; simpl;
      repeat (match goal with |- context [if ?b then _ else _] => destruct b end;
              cbn [mbind result_bind kind]; try done).
Qed.

Lemma pass2_throws e s0 :
  kind (scan width height depth pass2_body s0) = Throw e -> e = TooManyComponents.
Proof.
  intros Hk. destruct (decide (e = TooManyComponents)) as [|Hne]; [done|]. exfalso.
  revert Hk. rewrite scan_voxels.
  apply (for_loop_kind (fun _ _ => True)); [done|done|].
  intros pre p post s _ _. split; [|done].
  intros Hk. by apply pass2_body_throws in Hk.
Qed.

Lemma run_throws out0 e :
  0 <= width -> 0 <= height -> 0 <= depth -> width * height * depth <= INT_MAX ->
  kind (findConnectedComponents3d out0) = Throw e -> e = TooManyComponents.
Proof.
  intros Hw Hh Hd Hsize. unfold Components.findConnectedComponents3d.
  destruct (pass1_returns Hw Hh Hd Hsize) as (c & ->). cbn [mbind result_bind].
  pose proof (pass2_throws e (pass2_init c out0)) as H2.
  destruct (scan width height depth pass2_body (pass2_init c out0)); cbn [mbind result_bind kind];
    try done.
Qed.

(** X6.  The overflow exception of [unite] is out of reach: on a volume whose
    voxel count is an [int], a root of rank [k] has [2 ^ k] voxels under
    it, far fewer than the ceiling of the rank type needs.  What a run
    can throw is "Too many components". *)
Theorem never_graph_overflow out0 e :
  0 <= width -> 0 <= height -> 0 <= depth -> width * height * depth <= INT_MAX ->
  kind (findConnectedComponents3d out0) = Throw e -> e = TooManyComponents.
Proof. apply run_throws. Qed.

(** *** What the statistics say *)

Local Abbreviation labelled_with := (labelled_with outputLeap outputStride).

Lemma take_label_Ok r o (s s2 : @labelling T) :
  0 <= label s <= U_MAX -> take_label r o s = Ok s2 ->
  label s < U_MAX /\
  components s2 = <[r := set_label (components s r) (label s)]> (components s) /\
  outputBuffer s2 = outputBuffer s /\
  ((label s + 1 <> backgroundLabel /\ label s2 = label s + 1 /\
    statistics s2 = statistics s ++ [mkStat 0 o]) \/
   (label s + 1 = backgroundLabel /\ label s2 = label s + 2 /\
    statistics s2 = statistics s ++ [mkStat 0 o; mkStat 0 backgroundColor])).
Proof.
  intros H0 Ht. unfold Components.take_label in Ht.
  destruct (Z.eqb_spec (label s) U_MAX) as [|Hmax]; [discriminate|].
  rewrite (incr_small (label s)) in Ht by lia.
  destruct (Z.eqb_spec (label s + 1) backgroundLabel) as [Hskip|Hskip].
  - destruct (Z.eqb_spec (label s + 1) U_MAX) as [|Hmax']; [discriminate|].
    rewrite incr_small in Ht by lia. injection Ht as <-. simpl.
    split_and!; [lia|done|done|]. right. split_and!; [done|lia|].
    unfold push_back. by rewrite <- app_assoc.
  - injection Ht as <-. simpl. split_and!; [lia|done|done|]. by left.
Qed.

(** What one step of the second pass does: the label [l] goes to the cell
    of [p], the statistics grow by [extra], and the entry of [l] counts
    one more. *)
Lemma pass2_body_Ok c1 pre p s s' :
  labelled c1 pre s -> pass2_body p s = Ok s' ->
  exists l extra,
    outputBuffer s' = <[out_at p := l]> (outputBuffer s) /\
    count (statistics s ++ extra) l = Ok (statistics s') /\
    ((value p = backgroundColor /\ l = backgroundLabel /\ extra = [] /\
      label s' = label s /\ components s' = components s) \/
     (value p <> backgroundColor /\ exists r, root c1 (node p) r /\
        ((hasLabel_ (components s r) = true /\ l = label_ (components s r) /\
          extra = [] /\ label s' = label s /\
          forall m, hasLabel_ (components s' m) = hasLabel_ (components s m) /\
                    label_ (components s' m) = label_ (components s m)) \/
         (hasLabel_ (components s r) = false /\ l = label s /\ label s < U_MAX /\
          hasLabel_ (components s' r) = true /\ label_ (components s' r) = label s /\
          (forall m, m <> r -> hasLabel_ (components s' m) = hasLabel_ (components s m) /\
                               label_ (components s' m) = label_ (components s m)) /\
          ((label s + 1 <> backgroundLabel /\ label s' = label s + 1 /\
            extra = [mkStat 0 (value p)]) \/
           (label s + 1 = backgroundLabel /\ label s' = label s + 2 /\
            extra = [mkStat 0 (value p); mkStat 0 backgroundColor])))))).
Proof.
  intros Hlab Hb. unfold Components.pass2_body in Hb.
  apply result_bind_Ok in Hb as (s1 & Ha & Hb).
  apply result_bind_Ok in Hb as (st & Hc & Hb). injection Hb as <-. simpl.
  unfold Components.assign_label in Ha. destruct (decide _) as [Hv|Hv] in Ha.
  - injection Ha as <-. simpl in *. exists backgroundLabel, [].
    rewrite fn_lookup_insert in Hc. rewrite app_nil_r.
    split_and!; [done|done|]. left. done.
  - apply result_bind_Ok in Ha as ([r c] & Hfind & Ha). simpl in Ha.
    apply result_bind_Ok in Ha as (s2 & Hs2 & Ha). injection Ha as <-. simpl in *.
    rewrite fn_lookup_insert in Hc.
    apply find_Ok in Hfind as (Hr & Hcomp & _).
    apply (lab_roots _ _ _ _ _ _ _ _ _ _ _ _ _ Hlab) in Hr.
    assert (Hsame : forall m, hasLabel_ (c m) = hasLabel_ (components s m) /\
                              label_ (c m) = label_ (components s m)).
    { intros m. destruct (Hcomp m) as (_ & ? & ? & _). done. }
    destruct (hasLabel_ (c r)) eqn:Hh.
    + injection Hs2 as <-. simpl in *.
      exists (label_ (c r)), []. rewrite app_nil_r.
      split_and!; [done|done|]. right. split; [done|]. exists r. split; [done|]. left.
      destruct (Hsame r) as [Hh' Hl']. split_and!; [congruence|done|done|done|done].
    + destruct (lab_counter _ _ _ _ _ _ _ _ _ _ _ _ _ Hlab) as [Hrange _].
      apply take_label_Ok in Hs2 as (Hlt & Hcs & Hout & Hcase); [|done]. simpl in *.
      assert (Hcr : components s2 r = set_label (c r) (label s))
        by (rewrite Hcs; by rewrite fn_lookup_insert).
      assert (Hco : forall m, m <> r -> components s2 m = c m)
        by (intros m Hm; rewrite Hcs; by rewrite fn_lookup_insert_ne).
      rewrite Hcr in Hc |- *. simpl in Hc |- *. rewrite Hout.
      exists (label s).
      exists (if decide (label s + 1 = backgroundLabel)
              then [mkStat 0 (value p); mkStat 0 backgroundColor]
              else [mkStat 0 (value p)]).
      split_and!; [done| |].
      * destruct Hcase as [(Hn & _ & Hst)|(Hn & _ & Hst)]; rewrite Hst in Hc;
          destruct (decide _); done.
      * right. split; [done|]. exists r. split; [done|]. right.
        destruct (Hsame r) as [Hh' _].
        split_and!; [congruence|done|done|by rewrite Hcr|by rewrite Hcr| |].
        -- intros m Hm. rewrite Hco by done. apply Hsame.
        -- destruct Hcase as [(Hn & Hl & _)|(Hn & Hl & _)]; destruct (decide _); try done.
           ++ by left.
           ++ by right.
Qed.

Local Abbreviation described := (described width height inputBuffer inputLeap inputStride
  backgroundColor outputLeap outputStride backgroundLabel).

Lemma labelled_with_app (out : Z -> Z) l (a b : list voxel) :
  labelled_with out l (a ++ b) = labelled_with out l a + labelled_with out l b.
Proof. unfold Components.labelled_with. rewrite list.filter_app, length_app. lia. Qed.

Lemma labelled_with_ext (out out' : Z -> Z) l (vs : list voxel) :
  (forall x, x ∈ vs -> out' (out_at x) = out (out_at x)) ->
  labelled_with out' l vs = labelled_with out l vs.
Proof.
  unfold Components.labelled_with. intros Hext. f_equal. f_equal.
  induction vs as [|x vs IH]; [done|].
  rewrite !list.filter_cons. rewrite (Hext x) by (by left).
  rewrite IH by (intros y Hy; apply Hext; by right). done.
Qed.

Lemma labelled_with_zero (out : Z -> Z) l (vs : list voxel) :
  (forall x, x ∈ vs -> out (out_at x) <> l) -> labelled_with out l vs = 0.
Proof.
  unfold Components.labelled_with. intros Hne.
  induction vs as [|x vs IH]; [done|].
  rewrite list.filter_cons. destruct (decide _) as [Heq|_].
  - by destruct (Hne x ltac:(by left)).
  - apply IH. intros y Hy. apply Hne. by right.
Qed.

Lemma labelled_with_singleton (out : Z -> Z) l p :
  labelled_with out l [p] = if decide (out (out_at p) = l) then 1 else 0.
Proof.
  unfold Components.labelled_with. rewrite list.filter_cons, list.filter_nil.
  by destruct (decide _).
Qed.

Lemma labelled_with_bound (out : Z -> Z) l (vs : list voxel) :
  0 <= labelled_with out l vs <= Z.of_nat (length vs).
Proof.
  unfold Components.labelled_with. pose proof (list.length_filter (fun p => out (out_at p) = l) vs).
  lia.
Qed.

Lemma count_lookup (st : list (@ComponentStatistics T)) i st' j e' :
  count st i = Ok st' -> st' !! j = Some e' ->
  0 <= i < Z.of_nat (length st) /\
  exists e, st !! j = Some e /\ inputLabel_ e' = inputLabel_ e /\
            pixelCount_ e' = if decide (j = Z.to_nat i)
                             then (pixelCount_ e + 1) mod (ULONG_MAX + 1)
                             else pixelCount_ e.
Proof.
  unfold count. intros Hc Hj.
  destruct (Z.leb_spec 0 i), (Z.ltb_spec i (Z.of_nat (length st))); simplify_eq/=.
  split; [lia|]. destruct (decide (j = Z.to_nat i)) as [->|Hne].
  - rewrite list_lookup_alter_eq in Hj.
    destruct (st !! Z.to_nat i) as [e|]; simplify_eq/=. by exists e.
  - rewrite list_lookup_alter_ne in Hj by done. by exists e'.
Qed.

Lemma pass2_body_described c1 pre p s s' :
  (forall x, x ∈ pre -> out_at x <> out_at p) ->
  (forall x r, x ∈ pre -> value x <> backgroundColor ->
     root c1 (node x) r -> root c1 (node p) r -> value x = value p) ->
  labelled c1 pre s -> labels_in_range pre s -> described c1 pre s ->
  pass2_body p s = Ok s' -> described c1 (pre ++ [p]) s'.
Proof.
  intros Hnew Hval Hlab Hrange Hdes Hb.
  destruct (pass2_body_Ok c1 pre p s s' Hlab Hb) as (l & extra & Hout & Hcount & Hcase).
  destruct Hdes as [Dcount Dvalue Dused Dcounter Droots].
  pose proof (lab_stats_len _ _ _ _ _ _ _ _ _ _ _ _ _ Hlab) as Hlen.
  pose proof (lab_counter _ _ _ _ _ _ _ _ _ _ _ _ _ Hlab) as [Hctr Hctr'].
  assert (Hframe : forall x, x ∈ pre ->
            outputBuffer s' (out_at x) = outputBuffer s (out_at x)).
  { intros x Hx. rewrite Hout. rewrite fn_lookup_insert_ne; [done|]. apply not_eq_sym; auto. }
  assert (Hp : outputBuffer s' (out_at p) = l) by (rewrite Hout; apply fn_lookup_insert).
  assert (Hin : forall x, x ∈ pre -> x ∈ pre ++ [p]) by (intros; apply elem_of_app; by left).
  assert (Hpin : p ∈ pre ++ [p]) by (apply elem_of_app; right; by left).
  assert (Hextra : Forall (fun e => pixelCount_ e = 0) extra).
  { destruct Hcase as [(_ & _ & -> & _)|(_ & r & _ & [(_ & _ & -> & _)|(_ & _ & _ & _ & _ & _ & Hx)])];
      [done|done|].
    destruct Hx as [(_ & _ & ->)|(_ & _ & ->)]; repeat constructor. }
  assert (Hl : 0 <= l < Z.of_nat (length (statistics s ++ extra))).
  { by destruct (count_Ok _ _ _ Hcount). }
  assert (Hold : Z.of_nat (length pre) <= ULONG_MAX -> forall l' e, 0 <= l' ->
            (statistics s ++ extra) !! Z.to_nat l' = Some e ->
            pixelCount_ e = labelled_with (outputBuffer s) l' pre).
  { intros Hsz l' e Hl' He. destruct (decide (l' < label s)) as [Hlt|Hge].
    - rewrite lookup_app_l in He by lia. by apply Dcount.
    - rewrite lookup_app_r in He by lia.
      rewrite Forall_lookup in Hextra. rewrite (Hextra _ _ He).
      rewrite labelled_with_zero; [done|]. intros x Hx. specialize (Hrange x Hx). lia. }
  constructor.
  - rewrite length_app. simpl. intros Hsz l' e' Hl' He'.
    destruct (count_lookup _ _ _ _ _ Hcount He') as (_ & e & He & _ & Hpc).
    rewrite labelled_with_app, labelled_with_singleton, Hp.
    rewrite (labelled_with_ext (outputBuffer s)) by done.
    rewrite Hpc, (Hold ltac:(lia) l' e Hl' He).
    pose proof (labelled_with_bound (outputBuffer s) l' pre).
    destruct (decide (Z.to_nat l' = Z.to_nat l)), (decide (l = l')); try lia.
    rewrite Z.mod_small; unfold ULONG_MAX in *; lia.
  - intros x e' Hx He'.
    destruct (count_lookup _ _ _ _ _ Hcount He') as (_ & e & He & -> & _).
    apply elem_of_app in Hx as [Hx | ->%list_elem_of_singleton].
    + rewrite Hframe in He by done. specialize (Hrange x Hx).
      rewrite lookup_app_l in He by lia. by apply (Dvalue x).
    + rewrite Hp in He.
      destruct Hcase as [(Hv & -> & -> & _)|(Hv & r & Hr & [(Hh & -> & -> & _)|(Hh & -> & _ & _ & _ & _ & Hx)])].
      * rewrite app_nil_r in He, Hl.
        destruct (lab_stats_bg _ _ _ _ _ _ _ _ _ _ _ _ _ Hlab) as (st & Hst & Hbg); [lia|].
        congruence.
      * rewrite app_nil_r in He.
        destruct (Droots r Hh) as (x0 & Hx0 & Hv0 & Hr0 & Ho0).
        rewrite <- Ho0 in He. rewrite (Dvalue x0 e Hx0 He). by apply (Hval x0 r).
      * rewrite lookup_app_r in He by lia.
        replace (Z.to_nat (label s) - length (statistics s))%nat with 0%nat in He by lia.
        destruct Hx as [(_ & _ & ->)|(_ & _ & ->)]; by injection He as <-.
  - intros l' Hl' Hne.
    destruct (decide (l' < label s)) as [Hlt|Hge].
    + destruct (Dused l' ltac:(lia) Hne) as (x & Hx & Hv & Ho).
      exists x. split_and!; [by apply Hin|done|by rewrite Hframe].
    + destruct Hcase as [(_ & _ & _ & Hs & _)|(Hv & r & Hr & [(_ & _ & _ & Hs & _)|(Hh & -> & _ & _ & _ & _ & Hx)])];
        [lia|lia|].
      exists p. split_and!; [done|done|].
      rewrite Hp. destruct Hx as [(? & ? & _)|(? & ? & _)]; lia.
  - rewrite length_app. simpl.
    destruct Hcase as [(_ & _ & _ & Hs & _)|(Hv & r & Hr & [(_ & _ & _ & Hs & _)|(Hh & _ & _ & _ & _ & _ & Hx)])];
      [lia|lia|].
    destruct Hx as [(? & ? & _)|(? & ? & _)]; lia.
  - intros m Hm.
    assert (Hkeep : hasLabel_ (components s m) = true ->
              label_ (components s' m) = label_ (components s m) ->
              exists x, x ∈ pre ++ [p] /\ value x <> backgroundColor /\ root c1 (node x) m /\
                        outputBuffer s' (out_at x) = label_ (components s' m)).
    { intros Hm' Hlm. destruct (Droots m Hm') as (x & Hx & Hv & Hr & Ho).
      exists x. split_and!; [by apply Hin|done|done|]. rewrite Hframe by done. congruence. }
    destruct Hcase as [(_ & _ & _ & _ & Hc)|(Hv & r & Hr & [(_ & _ & _ & _ & Hc)|(Hh & -> & _ & Hh' & Hl' & Hc & _)])].
    + apply Hkeep; [by rewrite <- Hc|by rewrite Hc].
    + destruct (Hc m) as [Hc1 Hc2]. apply Hkeep; congruence.
    + destruct (decide (m = r)) as [->|Hne].
      * exists p. split_and!; [done|done|done|]. by rewrite Hp, Hl'.
      * destruct (Hc m Hne) as [Hc1 Hc2]. apply Hkeep; congruence.
Qed.

Lemma connected_value p q : connected p q -> value q = value p.
Proof.
  intros (l & Hl & Hall). revert p Hl Hall. induction l as [|x l IH]; intros p Hl Hall.
  - simpl in Hl. by subst.
  - destruct Hl as [_ Hl]. apply List.Forall_cons_iff in Hall as [[_ Hv] Hall].
    rewrite <- Hv. apply IH; [done|].
    eapply List.Forall_impl; [|exact Hall]. simpl. intros y [? ?]. split; [done|congruence].
Qed.

Lemma same_root_value c1 x p r :
  forest_of (united voxels) c1 -> in_volume x -> in_volume p ->
  value x <> backgroundColor ->
  root c1 (node x) r -> root c1 (node p) r -> value x = value p.
Proof.
  intros (_ & _ & Hsame) Hx Hp Hv Hrx Hrp. symmetry. apply connected_value.
  apply united_connected; [done|done|done|]. apply Hsame. by exists r.
Qed.

Lemma pass2_init_described c1 out0 :
  0 < U_MAX -> (forall m, hasLabel_ (c1 m) = false) ->
  described c1 [] (pass2_init c1 out0).
Proof.
  intros HU Hno. unfold Components.pass2_init.
  destruct (Z.eqb_spec 0 backgroundLabel) as [<-|Hbg].
  - rewrite incr_small by lia. constructor; simpl.
    + intros _ l st Hl Hst. destruct (Z.to_nat l); simplify_eq/=. done.
    + intros x st Hx. by apply elem_of_nil in Hx.
    + intros l Hl Hne. lia.
    + lia.
    + intros m. by rewrite Hno.
  - constructor; simpl.
    + intros _ l st Hl Hst. done.
    + intros x st Hx. by apply elem_of_nil in Hx.
    + intros l Hl Hne. lia.
    + lia.
    + intros m. by rewrite Hno.
Qed.

Lemma pass2_described c1 out0 s :
  0 < U_MAX -> distinct_cells -> forest_of (united voxels) c1 ->
  scan width height depth pass2_body (pass2_init c1 out0) = Ok s ->
  described c1 voxels s.
Proof.
  intros HU Hcells Hc1 Hrun.
  cut ((labelled c1 voxels s /\ last_used voxels s /\ counted voxels (statistics s) /\
        labels_in_range voxels s) /\ described c1 voxels s); [by intros [_ ?]|].
  revert Hrun. rewrite scan_voxels.
  apply (for_loop_inv (fun pre s =>
           (labelled c1 pre s /\ last_used pre s /\ counted pre (statistics s) /\
            labels_in_range pre s) /\ described c1 pre s)).
  - split; [by eapply pass2_init_labelled|].
    apply pass2_init_described; [done|]. apply Hc1.
  - intros pre p post s0 s1 Hl [(Hlab & Hlast & Hcnt & Hrange) Hdes] Hb.
    assert (Hvox : forall x, x ∈ pre ++ [p] -> in_volume x).
    { intros x Hx. apply elem_of_voxels. rewrite Hl.
      rewrite (assoc_L (++) pre [p] post : pre ++ p :: post = (pre ++ [p]) ++ post).
      apply elem_of_app. by left. }
    assert (Hnew : forall x, x ∈ pre -> out_at x <> out_at p).
    { intros x Hx Heq. pose proof NoDup_voxels as Hnd. rewrite Hl in Hnd.
      apply list.NoDup_app in Hnd as (_ & Hnd & _).
      apply (Hnd x Hx). assert (x = p) as ->; [|by left].
      apply Hcells; [| |done]; apply Hvox; apply elem_of_app; [by left|right; by left]. }
    split; [by apply (pass2_body_step c1 pre p s0 s1)|].
    apply (pass2_body_described c1 pre p s0 s1); try done.
    intros x r Hx Hv Hrx Hrp. apply (same_root_value c1 x p r); try done.
    + apply Hvox, elem_of_app. by left.
    + apply Hvox, elem_of_app. right. by left.
Qed.

(** X7.  In a run that returns, the entry of a label counts the voxels that
    carry the label and holds the input value of each of them; but for the
    reserved one, no entry is empty: its label is on some foreground
    voxel. *)
Theorem statistics_meaning out0 stats out l st :
  0 < U_MAX -> distinct_cells ->
  0 <= width -> 0 <= height -> 0 <= depth -> width * height * depth <= INT_MAX ->
  findConnectedComponents3d out0 = Ok (stats, out) ->
  0 <= l -> stats !! Z.to_nat l = Some st ->
  pixelCount_ st = labelled_with out l voxels /\
  (forall p, in_volume p -> out (out_at p) = l -> value p = inputLabel_ st) /\
  (l <> backgroundLabel ->
     1 <= pixelCount_ st /\
     exists p, in_volume p /\ value p <> backgroundColor /\ out (out_at p) = l).
Proof.
  intros HU Hcells Hw Hh Hd Hsize Hrun Hl Hst.
  unfold Components.findConnectedComponents3d in Hrun.
  apply result_bind_Ok in Hrun as (c1 & H1 & Hrun).
  apply result_bind_Ok in Hrun as (s & H2 & Hrun). injection Hrun as <- <-.
  apply pass1_forest in H1.
  destruct (pass2_labelled _ _ _ _ HU Hcells H1 H2) as (Hlab & _).
  destruct (pass2_described _ _ _ HU Hcells H1 H2) as [Dcount Dvalue Dused _ _].
  assert (Hlen : Z.of_nat (length voxels) <= ULONG_MAX).
  { rewrite length_voxels by done. unfold INT_MAX, ULONG_MAX in *. lia. }
  assert (Hc : pixelCount_ st = labelled_with (outputBuffer s) l voxels) by (by apply Dcount).
  split_and!; [done| |].
  - intros p Hp Ho. symmetry. apply Dvalue; [by apply elem_of_voxels|by rewrite Ho].
  - intros Hne.
    destruct (Dused l) as (p & Hp & Hv & Ho); [|done|].
    { rewrite <- (lab_stats_len _ _ _ _ _ _ _ _ _ _ _ _ _ Hlab).
      apply lookup_lt_Some in Hst. lia. }
    split; [|exists p; split_and!; [by apply elem_of_voxels|done|done]].
    rewrite Hc. apply list_elem_of_split in Hp as (l1 & l2 & ->).
    rewrite labelled_with_app. rewrite (labelled_with_app _ _ [p] l2 : labelled_with _ l (p :: l2) = _).
    rewrite labelled_with_singleton. destruct (decide _); [|done].
    pose proof (labelled_with_bound (outputBuffer s) l l1).
    pose proof (labelled_with_bound (outputBuffer s) l l2). lia.
Qed.

(** *** Volumes with few voxels *)

Lemma for_loop_returns {A S} (I : list A -> S -> Prop) (body : A -> S -> result S) l s0 :
  I [] s0 ->
  (forall pre x post s, l = pre ++ x :: post -> I pre s ->
     exists s1, body x s = Ok s1 /\ I (pre ++ [x]) s1) ->
  exists s', for_loop l body s0 = Ok s' /\ I l s'.
Proof.
  intros H0 Hstep.
  assert (Hgen : forall post pre s, l = pre ++ post -> I pre s ->
            exists s', for_loop post body s = Ok s' /\ I l s').
  { induction post as [|x post IH]; intros pre s Hl Hpre.
    - exists s. split; [done|]. by rewrite Hl, app_nil_r.
    - destruct (Hstep pre x post s Hl Hpre) as (s1 & Hb & H1).
      destruct (IH (pre ++ [x]) s1) as (s' & Hs' & H'); [by rewrite <- app_assoc|done|].
      exists s'. simpl. rewrite Hb. by simpl. }
  by apply (Hgen l [] s0).
Qed.

Lemma assign_label_returns c1 pre p s :
  labelled c1 pre s -> label s < U_MAX ->
  (label s + 1 = backgroundLabel -> label s + 1 < U_MAX) ->
  exists s1, assign_label p s = Ok s1.
Proof.
  intros Hlab Hlt Hskip. unfold Components.assign_label.
  destruct (decide _); [eauto|].
  destruct (find_total (components s) (node p)) as (r & c & ->);
    [apply (lab_wf _ _ _ _ _ _ _ _ _ _ _ _ _ Hlab)|].
  cbn [mbind result_bind]. destruct (hasLabel_ (c r)); cbn [mbind result_bind]; [eauto|].
  destruct (lab_counter _ _ _ _ _ _ _ _ _ _ _ _ _ Hlab) as [Hrange _].
  unfold Components.take_label. cbn [label components statistics outputBuffer].
  destruct (Z.eqb_spec (label s) U_MAX) as [|_]; [lia|].
  rewrite (incr_small (label s)) by lia.
  destruct (Z.eqb_spec (label s + 1) backgroundLabel) as [Hs|_]; cbn [mbind result_bind]; [|eauto].
  destruct (Z.eqb_spec (label s + 1) U_MAX) as [|_]; [lia|].
  cbn [mbind result_bind]. eauto.
Qed.

Lemma pass2_body_returns c1 pre p s :
  (forall x, x ∈ pre -> out_at x <> out_at p) ->
  labelled c1 pre s -> last_used pre s -> counted pre (statistics s) ->
  backgroundLabel = 0 -> label s < U_MAX ->
  exists s', pass2_body p s = Ok s'.
Proof.
  intros Hnew Hlab Hlast Hcnt Hz Hlt.
  destruct (pass2_body_kind c1 pre p s Hnew Hlab Hlast Hcnt) as [Hk1 Hk2].
  specialize (Hk2 Hz).
  destruct (lab_counter _ _ _ _ _ _ _ _ _ _ _ _ _ Hlab) as [Hrange _].
  destruct (assign_label_returns c1 pre p s Hlab Hlt ltac:(lia)) as (s1 & Ha).
  unfold Components.pass2_body in *. rewrite Ha in *. cbn [mbind result_bind] in *.
  unfold Components.count in *.
  destruct (_ && _); cbn [mbind result_bind kind] in *; [eauto|done].
Qed.

Lemma run_returns out0 :
  0 < U_MAX -> distinct_cells -> backgroundLabel = 0 ->
  0 <= width -> 0 <= height -> 0 <= depth ->
  width * height * depth <= INT_MAX -> width * height * depth < U_MAX ->
  exists stats out, findConnectedComponents3d out0 = Ok (stats, out).
Proof.
  intros HU Hcells Hz Hw Hh Hd Hint Hfew. unfold Components.findConnectedComponents3d.
  destruct (pass1_returns Hw Hh Hd Hint) as (c1 & H1). rewrite H1. cbn [mbind result_bind].
  apply pass1_forest in H1. rewrite scan_voxels.
  destruct (for_loop_returns (fun pre s =>
              (labelled c1 pre s /\ last_used pre s /\ counted pre (statistics s) /\
               labels_in_range pre s) /\ described c1 pre s)
              pass2_body voxels (pass2_init c1 out0)) as (s & -> & _).
  - split; [by eapply pass2_init_labelled|].
    apply pass2_init_described; [done|]. apply H1.
  - intros pre p post s Hl [(Hlab & Hlast & Hcnt & Hrange) Hdes].
    assert (Hvox : forall x, x ∈ pre ++ [p] -> in_volume x).
    { intros x Hx. apply elem_of_voxels. rewrite Hl.
      rewrite (assoc_L (++) pre [p] post : pre ++ p :: post = (pre ++ [p]) ++ post).
      apply elem_of_app. by left. }
    assert (Hnew : forall x, x ∈ pre -> out_at x <> out_at p).
    { intros x Hx Heq. pose proof NoDup_voxels as Hnd. rewrite Hl in Hnd.
      apply list.NoDup_app in Hnd as (_ & Hnd & _).
      apply (Hnd x Hx). assert (x = p) as ->; [|by left].
      apply Hcells; [| |done]; apply Hvox; apply elem_of_app; [by left|right; by left]. }
    assert (Hlt : label s < U_MAX).
    { destruct (des_counter _ _ _ _ _ _ _ _ _ _ _ _ Hdes) as [Hc _].
      pose proof (length_voxels Hw Hh Hd) as Hlen. rewrite Hl, length_app in Hlen.
      simpl in Hlen. lia. }
    destruct (pass2_body_returns c1 pre p s Hnew Hlab Hlast Hcnt Hz Hlt) as (s' & Hs').
    exists s'. split; [done|]. split; [by apply (pass2_body_step c1 pre p s s')|].
    apply (pass2_body_described c1 pre p s s'); try done.
    intros x r Hx Hv Hrx Hrp. apply (same_root_value c1 x p r); try done.
    + apply Hvox, elem_of_app. by left.
    + apply Hvox, elem_of_app. right. by left.
  - cbn [mbind result_bind]. eauto.
Qed.

(** X8.  With the reserved label 0, a volume of positive dimensions and of
    fewer voxels than the label type has values is labelled without an
    exception: the call returns.  (A volume without voxels is left out:
    the code takes the address of the first node of an empty node
    array.) *)
Theorem few_voxels_return out0 :
  0 < U_MAX -> distinct_cells -> backgroundLabel = 0 ->
  0 < width -> 0 < height -> 0 < depth ->
  width * height * depth <= INT_MAX -> width * height * depth < U_MAX ->
  exists stats out, findConnectedComponents3d out0 = Ok (stats, out).
Proof. intros HU Hcells Hz Hw Hh Hd. apply run_returns; [done..|lia|lia|lia]. Qed.

(** *** The labels of a run *)

Lemma labels_summary out0 stats out :
  0 < U_MAX -> distinct_cells ->
  0 <= width -> 0 <= height -> 0 <= depth ->
  findConnectedComponents3d out0 = Ok (stats, out) ->
  0 <= Z.of_nat (length stats) <= U_MAX /\
  Z.of_nat (length stats) <= width * height * depth + 1 /\
  (backgroundLabel = 0 -> 1 <= Z.of_nat (length stats)) /\
  (forall p, in_volume p -> 0 <= out (out_at p) < Z.of_nat (length stats)) /\
  (forall p, in_volume p -> out (out_at p) = backgroundLabel <-> value p = backgroundColor) /\
  (forall l, 0 <= l < Z.of_nat (length stats) -> l <> backgroundLabel ->
     exists p, in_volume p /\ value p <> backgroundColor /\ out (out_at p) = l).
Proof.
  intros HU Hcells Hw Hh Hd Hrun.
  unfold Components.findConnectedComponents3d in Hrun.
  apply result_bind_Ok in Hrun as (c1 & H1 & Hrun).
  apply result_bind_Ok in Hrun as (s & H2 & Hrun). injection Hrun as <- <-.
  apply pass1_forest in H1.
  destruct (pass2_labelled _ _ _ _ HU Hcells H1 H2) as (Hlab & _ & _ & Hrange).
  destruct (pass2_described _ _ _ HU Hcells H1 H2) as [_ _ Dused [Dctr _] _].
  destruct Hlab as [_ _ [Hc Hc'] Hfr _ Hbg Hfg Hlen _].
  rewrite length_voxels in Dctr by done. rewrite Hlen.
  split_and!; try lia.
  - intros p Hp. apply Hrange. by apply elem_of_voxels.
  - intros p Hp. apply elem_of_voxels in Hp. split.
    + intros Ho. destruct (decide (value p = backgroundColor)) as [|Hv]; [done|].
      destruct (Hfg p Hp Hv) as (r & _ & Hh' & Hr). destruct (Hfr r Hh'). congruence.
    + by apply Hbg.
  - intros l Hl Hne. destruct (Dused l Hl Hne) as (p & Hp & Hv & Ho).
    exists p. split_and!; [by apply elem_of_voxels|done|done].
Qed.

(** *** The order of the labels *)

(** X9.  Labels are handed out in scan order: in a run that returns, every
    label below the label of a voxel, the reserved one apart, is already
    on a voxel that the scan meets earlier. *)
Theorem labels_in_scan_order out0 stats out pre q post l :
  0 < U_MAX -> distinct_cells ->
  findConnectedComponents3d out0 = Ok (stats, out) ->
  voxels = pre ++ q :: post ->
  0 <= l < out (out_at q) -> l <> backgroundLabel ->
  exists x, x ∈ pre /\ out (out_at x) = l.
Proof.
  intros HU Hcells Hrun Hsplit Hl Hne.
  unfold Components.findConnectedComponents3d in Hrun.
  apply result_bind_Ok in Hrun as (c1 & H1 & Hrun).
  apply result_bind_Ok in Hrun as (s & H2 & Hrun). injection Hrun as <- <-.
  apply pass1_forest in H1. rewrite scan_voxels in H2.
  cut (forall pre' q' post', voxels = pre' ++ q' :: post' ->
         forall l', 0 <= l' < outputBuffer s (out_at q') -> l' <> backgroundLabel ->
           exists x, x ∈ pre' /\ outputBuffer s (out_at x) = l').
  { intros Hall. by apply (Hall pre q post). }
  cut (((labelled c1 voxels s /\ last_used voxels s /\ counted voxels (statistics s) /\
         labels_in_range voxels s) /\ described c1 voxels s) /\
       forall pre' q' post', voxels = pre' ++ q' :: post' ->
         forall l', 0 <= l' < outputBuffer s (out_at q') -> l' <> backgroundLabel ->
           exists x, x ∈ pre' /\ outputBuffer s (out_at x) = l').
  { intros [_ Hall]. exact Hall. }
  revert H2.
  apply (for_loop_inv (fun done s =>
           ((labelled c1 done s /\ last_used done s /\ counted done (statistics s) /\
             labels_in_range done s) /\ described c1 done s) /\
           forall pre' q' post', done = pre' ++ q' :: post' ->
             forall l', 0 <= l' < outputBuffer s (out_at q') -> l' <> backgroundLabel ->
               exists x, x ∈ pre' /\ outputBuffer s (out_at x) = l')).
  - split; [split; [by eapply pass2_init_labelled|]|].
    + apply pass2_init_described; [done|]. apply H1.
    + intros pre' q' post' Hnil. by destruct pre'.
  - intros done p rest s0 s1 Hl0 [[(Hlab & Hlast & Hcnt & Hrange) Hdes] Hord] Hb.
    assert (Hvox : forall x, x ∈ done ++ [p] -> in_volume x).
    { intros x Hx. apply elem_of_voxels. rewrite Hl0.
      rewrite (assoc_L (++) done [p] rest : done ++ p :: rest = (done ++ [p]) ++ rest).
      apply elem_of_app. by left. }
    assert (Hnew : forall x, x ∈ done -> out_at x <> out_at p).
    { intros x Hx Heq. pose proof NoDup_voxels as Hnd. rewrite Hl0 in Hnd.
      apply list.NoDup_app in Hnd as (_ & Hnd & _).
      apply (Hnd x Hx). assert (x = p) as ->; [|by left].
      apply Hcells; [| |done]; apply Hvox; apply elem_of_app; [by left|right; by left]. }
    pose proof (pass2_body_step c1 done p s0 s1 Hnew Hlab Hlast Hcnt Hrange Hb) as Hstep.
    split; [split; [done|]|].
    { apply (pass2_body_described c1 done p s0 s1); try done.
      intros x r Hx Hv Hrx Hrp. apply (same_root_value c1 x p r); try done.
      - apply Hvox, elem_of_app. by left.
      - apply Hvox, elem_of_app. right. by left. }
    destruct (pass2_body_Ok c1 done p s0 s1 Hlab Hb) as (lp & extra & Hout & Hcount & Hcase).
    assert (Hframe : forall x, x ∈ done ->
              outputBuffer s1 (out_at x) = outputBuffer s0 (out_at x)).
    { intros x Hx. rewrite Hout. rewrite fn_lookup_insert_ne; [done|].
      apply not_eq_sym; auto. }
    assert (Hp : outputBuffer s1 (out_at p) = lp) by (rewrite Hout; apply fn_lookup_insert).
    assert (Hbelow : lp <= label s0).
    { destruct (count_Ok _ _ _ Hcount) as (Hin & _).
      pose proof (lab_stats_len _ _ _ _ _ _ _ _ _ _ _ _ _ Hlab) as Hlen.
      pose proof (lab_fresh _ _ _ _ _ _ _ _ _ _ _ _ _ Hlab) as Hfresh.
      destruct Hcase as [(_ & -> & -> & _)|(_ & r & _ & [(Hh & -> & _)|(_ & -> & _)])].
      - rewrite app_nil_r in Hin. lia.
      - destruct (Hfresh r Hh). lia.
      - lia. }
    intros pre' q' post' Hsplit' l' Hl' Hne'.
    destruct (decide (post' = [])) as [->|Hpost].
    + apply app_inj_tail in Hsplit' as [<- <-]. rewrite Hp in Hl'.
      destruct (des_used _ _ _ _ _ _ _ _ _ _ _ _ Hdes l' ltac:(lia) Hne') as (x & Hx & _ & Ho).
      exists x. split; [done|]. by rewrite Hframe.
    + destruct (exists_last Hpost) as (post'' & y & ->).
      rewrite app_comm_cons, app_assoc in Hsplit'.
      apply app_inj_tail in Hsplit' as [Hd <-].
      assert (Hq : q' ∈ done) by (rewrite Hd; apply elem_of_app; right; by left).
      rewrite (Hframe q' Hq) in Hl'.
      destruct (Hord pre' q' post'' Hd l' Hl' Hne') as (x & Hx & Ho).
      exists x. split; [done|]. rewrite Hframe; [done|].
      rewrite Hd. apply elem_of_app. by left.
Qed.

(** *** The background *)

Lemma filter_length_iff {A} (P Q : A -> Prop) `{!forall x, Decision (P x)}
    `{!forall x, Decision (Q x)} (l : list A) :
  (forall x, x ∈ l -> P x <-> Q x) -> length (filter P l) = length (filter Q l).
Proof.
  induction l as [|x l IH]; intros Hpq; [done|].
  rewrite !list.filter_cons.
  destruct (decide (P x)) as [Hp|Hp], (decide (Q x)) as [Hq|Hq]; simpl.
  - f_equal. apply IH. intros y Hy. apply Hpq. by right.
  - destruct Hq. apply Hpq; [by left|done].
  - destruct Hp. apply Hpq; [by left|done].
  - apply IH. intros y Hy. apply Hpq. by right.
Qed.

(** X10.  With the reserved label 0, in a run that returns: the background
    voxels carry the label 0, and the entry 0 of the statistics holds the
    background value and the number of background voxels (which is 0 when
    there is none). *)
Theorem background_count out0 stats out :
  0 < U_MAX -> distinct_cells -> backgroundLabel = 0 ->
  0 <= width -> 0 <= height -> 0 <= depth -> width * height * depth <= INT_MAX ->
  findConnectedComponents3d out0 = Ok (stats, out) ->
  (forall p, in_volume p -> value p = backgroundColor -> out (out_at p) = 0) /\
  exists st, stats !! 0%nat = Some st /\ inputLabel_ st = backgroundColor /\
             pixelCount_ st
             = Z.of_nat (length (filter (fun p => value p = backgroundColor) voxels)).
Proof.
  intros HU Hcells Hz Hw Hh Hd Hsize Hrun.
  destruct (labels_summary out0 stats out HU Hcells Hw Hh Hd Hrun)
    as (_ & _ & _ & _ & Hbg & _).
  unfold Components.findConnectedComponents3d in Hrun.
  apply result_bind_Ok in Hrun as (c1 & H1 & Hrun).
  apply result_bind_Ok in Hrun as (s & H2 & Hrun). injection Hrun as <- <-.
  apply pass1_forest in H1.
  destruct (pass2_labelled _ _ _ _ HU Hcells H1 H2) as (Hlab & _).
  destruct (pass2_described _ _ _ HU Hcells H1 H2) as [Dcount _ _ _ _].
  destruct Hlab as [_ _ [Hc Hc'] _ _ _ _ _ Hsbg].
  split.
  - intros p Hp Hv. rewrite <- Hz. by apply Hbg.
  - destruct Hsbg as (st & Hst & Hcol); [lia|]. rewrite Hz in Hst.
    exists st. split_and!; [done|done|].
    rewrite (Dcount ltac:(rewrite length_voxels by done; unfold INT_MAX, ULONG_MAX in *; lia)
               0 st ltac:(lia) Hst).
    unfold Components.labelled_with. f_equal. apply filter_length_iff.
    intros p Hp%elem_of_voxels. rewrite <- Hz. by apply Hbg.
Qed.

End Volume.

Lemma dense_distinct_cells width height depth :
  distinct_cells width height depth (width * height) width.
Proof.
  intros p q Hp Hq Heq. apply (node_inj width height depth p q Hp Hq).
  destruct p as [[u v] w], q as [[u' v'] w']. unfold out_at in Heq. unfold node. lia.
Qed.

(** C1.  For every input volume, background value and reserved label: in
    a run of [findConnectedComponents3d] that returns, two foreground
    voxels carry the same output label if and only if there is a path
    between them, each step moving to a face neighbour, on which every
    voxel has their input value.  (The label type has at least two values,
    and distinct voxels have distinct cells in the output buffer.)  In
    particular the 2 x 2 x 1 volume [[1,0],[0,1]] with background 0 gets the
    labels [[1,0],[0,2]]: two foreground components beside the background;
    the volume [[1,1],[0,1]], whose foreground voxels are joined through
    the corner, gets one label for the three of them; and in the
    2 x 2 x 2 volume of the slices [[1,0],[0,1]] and [[1,1],[0,2]] the
    voxels joined along the third axis and along a row share the label 1. *)
Theorem connectivity :
  (forall (T : Type) (EqT : EqDecision T) U_MAX width height depth
          (inputBuffer : Z -> T) inputLeap inputStride backgroundColor
          outputLeap outputStride backgroundLabel out0 stats out p q,
      0 < U_MAX ->
      distinct_cells width height depth outputLeap outputStride ->
      findConnectedComponents3d U_MAX width height depth inputBuffer inputLeap
        inputStride backgroundColor outputLeap outputStride backgroundLabel out0
        = Ok (stats, out) ->
      in_volume width height depth p -> in_volume width height depth q ->
      value inputBuffer inputLeap inputStride p <> backgroundColor ->
      value inputBuffer inputLeap inputStride q <> backgroundColor ->
      out (out_at outputLeap outputStride p) = out (out_at outputLeap outputStride q)
      <-> connected width height depth inputBuffer inputLeap inputStride p q) /\
  labels_of (Find3dWithStatistics (buffer_of [1; 0; 0; 1]) 2 2 1 0 (fun _ => 0))
    [0; 1; 2; 3] = Some [1; 0; 0; 2] /\
  statistics_of (Find3dWithStatistics (buffer_of [1; 0; 0; 1]) 2 2 1 0 (fun _ => 0))
    = Some [(2, 0); (1, 1); (1, 1)] /\
  labels_of (Find3dWithStatistics (buffer_of [1; 1; 0; 1]) 2 2 1 0 (fun _ => 0))
    [0; 1; 2; 3] = Some [1; 1; 0; 1] /\
  statistics_of (Find3dWithStatistics (buffer_of [1; 1; 0; 1]) 2 2 1 0 (fun _ => 0))
    = Some [(1, 0); (3, 1)] /\
  labels_of (Find3dWithStatistics (buffer_of [1; 0; 0; 1; 1; 1; 0; 2]) 2 2 2 0 (fun _ => 0))
    [0; 1; 2; 3; 4; 5; 6; 7] = Some [1; 0; 0; 2; 1; 1; 0; 3] /\
  statistics_of (Find3dWithStatistics (buffer_of [1; 0; 0; 1; 1; 1; 0; 2]) 2 2 2 0
                   (fun _ => 0))
    = Some [(3, 0); (3, 1); (1, 1); (1, 2)].
Proof.
  split_and!.
  - intros. by eapply labels_connected.
  - vm_compute. reflexivity.
  - vm_compute. reflexivity.
  - vm_compute. reflexivity.
  - vm_compute. reflexivity.
  - vm_compute. reflexivity.
  - vm_compute. reflexivity.
Qed.

(** In the volume [[1,1],[0,1]] the voxels (0,0) and (1,1) are joined
    through (1,0), which takes two calls of [unite]: the run returns, the
    two carry the same label, and the path between them follows. *)
Lemma connectivity_witness :
  exists stats out,
    findConnectedComponents3d USHRT_MAX 2 2 1 (buffer_of [1; 1; 0; 1]) 4 2 0 4 2 0
      (fun _ => 0) = Ok (stats, out) /\
    out (out_at 4 2 (0, 0, 0)) = 1 /\ out (out_at 4 2 (1, 1, 0)) = 1 /\
    (out (out_at 4 2 (0, 0, 0)) = out (out_at 4 2 (1, 1, 0))
     <-> connected 2 2 1 (buffer_of [1; 1; 0; 1]) 4 2 (0, 0, 0) (1, 1, 0)) /\
    connected 2 2 1 (buffer_of [1; 1; 0; 1]) 4 2 (0, 0, 0) (1, 1, 0).
Proof.
  destruct (findConnectedComponents3d USHRT_MAX 2 2 1 (buffer_of [1; 1; 0; 1]) 4 2 0 4 2 0
              (fun _ => 0)) as [[stats out]| | |] eqn:Hrun;
    try (vm_compute in Hrun; discriminate).
  assert (Hiff : out (out_at 4 2 (0, 0, 0)) = out (out_at 4 2 (1, 1, 0))
                 <-> connected 2 2 1 (buffer_of [1; 1; 0; 1]) 4 2 (0, 0, 0) (1, 1, 0)).
  { refine (proj1 connectivity Z _ USHRT_MAX 2 2 1 (buffer_of [1; 1; 0; 1]) 4 2 0
              4 2 0 (fun _ => 0) stats out (0, 0, 0) (1, 1, 0) _ _ Hrun _ _ _ _).
    - unfold USHRT_MAX. lia.
    - apply (dense_distinct_cells 2 2 1).
    - unfold in_volume. lia.
    - unfold in_volume. lia.
    - vm_compute. discriminate.
    - vm_compute. discriminate. }
  assert (Hout : out (out_at 4 2 (0, 0, 0)) = 1 /\ out (out_at 4 2 (1, 1, 0)) = 1).
  { vm_compute in Hrun. injection Hrun as _ <-. by vm_compute. }
  destruct Hout as [H0 H1].
  exists stats, out. split; [reflexivity|]. split; [exact H0|]. split; [exact H1|].
  split; [exact Hiff|]. apply Hiff. by rewrite H0, H1.
Defined.

(** Three components and the reserved label 1: the labels are 0, 2 and 3. *)
Lemma foreground_not_background_label_witness :
  exists stats out,
    findConnectedComponents3d USHRT_MAX 3 1 1 (buffer_of [5; 7; 9]) 3 3 0 3 3 1 (fun _ => 0)
      = Ok (stats, out) /\
    (value (buffer_of [5; 7; 9]) 3 3 (1, 0, 0) <> 0 -> out (out_at 3 3 (1, 0, 0)) <> 1) /\
    (out (out_at 3 3 (1, 0, 0)) = 1 <-> value (buffer_of [5; 7; 9]) 3 3 (1, 0, 0) = 0).
Proof.
  destruct (findConnectedComponents3d USHRT_MAX 3 1 1 (buffer_of [5; 7; 9]) 3 3 0 3 3 1
              (fun _ => 0)) as [[stats out]| | |] eqn:Hrun;
    try (vm_compute in Hrun; discriminate).
  exists stats, out. split; [reflexivity|].
  refine (@foreground_not_background_label Z _ USHRT_MAX 3 1 1 (buffer_of [5; 7; 9]) 3 3 0
            3 3 1 (fun _ => 0) stats out (1, 0, 0) _ _ Hrun _).
  - unfold USHRT_MAX. lia.
  - apply (dense_distinct_cells 3 1 1).
  - unfold in_volume. lia.
Defined.

(** C8 fails on the code.  With the reserved label 1, the 1 x 1 x 1
    volume [0] (background 0) is labelled before the label counter has
    reached 1: no background entry has been pushed, and
    [statistics[1].pixelCount_++] indexes an empty vector.  And the volume
    [5] with the reserved label 5 returns the single entry of its
    component, without an entry at index 5. *)
Theorem background_entry_missing :
  findConnectedComponents3d USHRT_MAX 1 1 1 (buffer_of [0]) 1 1 0 1 1 1 (fun _ => 0)
    = Undefined /\
  statistics_of
    (findConnectedComponents3d USHRT_MAX 1 1 1 (buffer_of [5]) 1 1 0 1 1 5 (fun _ => 0))
    = Some [(1, 5)].
Proof. split; vm_compute; reflexivity. Qed.

(** C9 fails as stated: the 1 x 1 x 1 volume [5] with background 0 and
    the reserved label 1 gets the label 0, and the statistics have two
    entries (the component and the skipped label 1). *)
Lemma statistics_length_counterexample :
  exists stats out,
    findConnectedComponents3d USHRT_MAX 1 1 1 (buffer_of [5]) 1 1 0 1 1 1 (fun _ => 0)
      = Ok (stats, out) /\
    max_label 1 1 1 1 1 out = 0 /\ length stats = 2%nat /\
    Z.of_nat (length stats) <> max_label 1 1 1 1 1 out + 1.
Proof.
  destruct (findConnectedComponents3d USHRT_MAX 1 1 1 (buffer_of [5]) 1 1 0 1 1 1
              (fun _ => 0)) as [[stats out]| | |] eqn:Hrun;
    try (vm_compute in Hrun; discriminate).
  exists stats, out. split; [reflexivity|].
  vm_compute in Hrun. injection Hrun as <- <-. vm_compute. split_and!; done.
Qed.

(** The volume [5, 5, 0, 7] with the reserved label 0. *)
Lemma statistics_shape_witness :
  exists stats out,
    findConnectedComponents3d USHRT_MAX 4 1 1 (buffer_of [5; 5; 0; 7]) 4 4 0 4 4 0
      (fun _ => 0) = Ok (stats, out) /\
    (forall p, in_volume 4 1 1 p -> 0 <= out (out_at 4 4 p) < Z.of_nat (length stats)) /\
    total_count stats = 4 * 1 * 1 /\
    (0 = 0 -> Z.of_nat (length stats) = max_label 4 1 1 4 4 out + 1).
Proof.
  destruct (findConnectedComponents3d USHRT_MAX 4 1 1 (buffer_of [5; 5; 0; 7]) 4 4 0 4 4 0
              (fun _ => 0)) as [[stats out]| | |] eqn:Hrun;
    try (vm_compute in Hrun; discriminate).
  exists stats, out. split; [reflexivity|].
  refine (@statistics_shape Z _ USHRT_MAX 4 1 1 (buffer_of [5; 5; 0; 7]) 4 4 0
            4 4 0 (fun _ => 0) stats out _ _ _ _ _ _ Hrun).
  - unfold USHRT_MAX. lia.
  - apply (dense_distinct_cells 4 1 1).
  - lia.
  - lia.
  - lia.
  - unfold INT_MAX. lia.
Defined.

(** A 3x3x3 volume of zeros with background 0: every label is 0 and the
    single statistics entry counts the 27 voxels. *)
Example all_background_volume :
  let run := Find3dWithStatistics (fun _ => 0) 3 3 3 0 (fun _ => 9) in
  labels_of run (seqZ 0 27) = Some (replicate 27 0) /\
  statistics_of run = Some [(27, 0)].
Proof. vm_compute. done. Qed.

(** The row [5; 5; 0; 7] with background 0. *)
Example two_runs :
  let run := Find3dWithStatistics (buffer_of [5; 5; 0; 7]) 4 1 1 0 (fun _ => 0) in
  labels_of run [0; 1; 2; 3] = Some [1; 1; 0; 2] /\
  statistics_of run = Some [(1, 0); (2, 5); (1, 7)].
Proof. vm_compute. done. Qed.

(** *** More on the runs *)


(** With a label type of two values the first component is one too many. *)
Lemma never_graph_overflow_witness :
  kind (findConnectedComponents3d 1 1 1 1 (buffer_of [5]) 1 1 0 1 1 0 (fun _ => 0))
    = Throw TooManyComponents /\
  TooManyComponents = TooManyComponents.
Proof.
  assert (Hk : kind (findConnectedComponents3d 1 1 1 1 (buffer_of [5]) 1 1 0 1 1 0
                       (fun _ => 0)) = Throw TooManyComponents)
    by (vm_compute; reflexivity).
  split; [exact Hk|].
  refine (@never_graph_overflow Z _ 1 1 1 1 (buffer_of [5]) 1 1 0 1 1 0 (fun _ => 0)
            TooManyComponents _ _ _ _ Hk); unfold INT_MAX; lia.
Defined.

(** In the row [5; 5; 0; 7] the label 1 is on two voxels of value 5. *)
Lemma statistics_meaning_witness :
  exists stats out st,
    findConnectedComponents3d USHRT_MAX 4 1 1 (buffer_of [5; 5; 0; 7]) 4 4 0 4 4 0
      (fun _ => 0) = Ok (stats, out) /\
    stats !! Z.to_nat 1 = Some st /\
    pixelCount_ st = labelled_with 4 4 out 1 (voxels 4 1 1) /\
    (forall p, in_volume 4 1 1 p -> out (out_at 4 4 p) = 1 ->
       value (buffer_of [5; 5; 0; 7]) 4 4 p = inputLabel_ st) /\
    (1 <> 0 ->
       1 <= pixelCount_ st /\
       exists p, in_volume 4 1 1 p /\ value (buffer_of [5; 5; 0; 7]) 4 4 p <> 0 /\
                 out (out_at 4 4 p) = 1).
Proof.
  destruct (findConnectedComponents3d USHRT_MAX 4 1 1 (buffer_of [5; 5; 0; 7]) 4 4 0 4 4 0
              (fun _ => 0)) as [[stats out]| | |] eqn:Hrun;
    try (vm_compute in Hrun; discriminate).
  destruct (stats !! Z.to_nat 1) as [st|] eqn:Hst;
    [|vm_compute in Hrun; injection Hrun as <- <-; vm_compute in Hst; discriminate].
  exists stats, out, st. split; [reflexivity|]. split; [exact Hst|].
  refine (@statistics_meaning Z _ USHRT_MAX 4 1 1 (buffer_of [5; 5; 0; 7]) 4 4 0 4 4 0
            (fun _ => 0) stats out 1 st _ _ _ _ _ _ Hrun _ Hst).
  - unfold USHRT_MAX. lia.
  - apply (dense_distinct_cells 4 1 1).
  - lia.
  - lia.
  - lia.
  - unfold INT_MAX. lia.
  - lia.
Defined.

Lemma few_voxels_return_witness :
  exists stats out,
    findConnectedComponents3d USHRT_MAX 2 2 2 (buffer_of [1; 0; 0; 1; 1; 1; 0; 2]) 4 2 0 4 2 0
      (fun _ => 0) = Ok (stats, out).
Proof.
  refine (@few_voxels_return Z _ USHRT_MAX 2 2 2 (buffer_of [1; 0; 0; 1; 1; 1; 0; 2]) 4 2 0
            4 2 0 (fun _ => 0) _ _ _ _ _ _ _ _).
  - unfold USHRT_MAX. lia.
  - apply (dense_distinct_cells 2 2 2).
  - reflexivity.
  - lia.
  - lia.
  - lia.
  - unfold INT_MAX. lia.
  - unfold USHRT_MAX. lia.
Defined.

Lemma labels_in_scan_order_witness :
  exists stats out,
    findConnectedComponents3d USHRT_MAX 4 1 1 (buffer_of [5; 5; 0; 7]) 4 4 0 4 4 0
      (fun _ => 0) = Ok (stats, out) /\
    0 <= 1 < out (out_at 4 4 (3, 0, 0)) /\
    exists x, x ∈ [(0, 0, 0); (1, 0, 0); (2, 0, 0)] /\ out (out_at 4 4 x) = 1.
Proof.
  destruct (findConnectedComponents3d USHRT_MAX 4 1 1 (buffer_of [5; 5; 0; 7]) 4 4 0 4 4 0
              (fun _ => 0)) as [[stats out]| | |] eqn:Hrun;
    try (vm_compute in Hrun; discriminate).
  assert (Hq : 0 <= 1 < out (out_at 4 4 (3, 0, 0))).
  { vm_compute in Hrun. injection Hrun as <- <-. vm_compute. split; [discriminate|done]. }
  exists stats, out. split; [reflexivity|]. split; [exact Hq|].
  refine (@labels_in_scan_order Z _ USHRT_MAX 4 1 1 (buffer_of [5; 5; 0; 7]) 4 4 0 4 4 0
            (fun _ => 0) stats out [(0, 0, 0); (1, 0, 0); (2, 0, 0)] (3, 0, 0) [] 1
            _ _ Hrun _ Hq _).
  - unfold USHRT_MAX. lia.
  - apply (dense_distinct_cells 4 1 1).
  - reflexivity.
  - lia.
Defined.

Lemma background_count_witness :
  exists stats out,
    findConnectedComponents3d USHRT_MAX 3 1 1 (buffer_of [0; 5; 0]) 3 3 0 3 3 0 (fun _ => 9)
      = Ok (stats, out) /\
    (forall p, in_volume 3 1 1 p -> value (buffer_of [0; 5; 0]) 3 3 p = 0 ->
       out (out_at 3 3 p) = 0) /\
    exists st, stats !! 0%nat = Some st /\ inputLabel_ st = 0 /\
               pixelCount_ st
               = Z.of_nat (length (filter (fun p => value (buffer_of [0; 5; 0]) 3 3 p = 0)
                                     (voxels 3 1 1))).
Proof.
  destruct (findConnectedComponents3d USHRT_MAX 3 1 1 (buffer_of [0; 5; 0]) 3 3 0 3 3 0
              (fun _ => 9)) as [[stats out]| | |] eqn:Hrun;
    try (vm_compute in Hrun; discriminate).
  exists stats, out. split; [reflexivity|].
  refine (@background_count Z _ USHRT_MAX 3 1 1 (buffer_of [0; 5; 0]) 3 3 0 3 3 0 (fun _ => 9)
            stats out _ _ _ _ _ _ _ Hrun).
  - unfold USHRT_MAX. lia.
  - apply (dense_distinct_cells 3 1 1).
  - reflexivity.
  - lia.
  - lia.
  - lia.
  - unfold INT_MAX. lia.
Defined.

(** *** ConnectedComponentsClr.cpp: [Find3d] *)

(** The cell of a voxel in the dense volumes of the entry points. *)
Local Abbreviation cell w h p := (out_at (w * h) w p).

(** X11.  [Find3d] on a volume of positive dimensions whose labels take no
    more bytes than an [int] counts.  An array without elements is
    refused with an index exception.  With arrays that hold the volume,
    the call returns or ends with "Too many components".  When it
    returns [n]: [n] is between 1 and 65535 and at most one more than the
    number of voxels; the background voxels, and only they, carry the
    label 0; the foreground voxels carry the labels [1 .. n-1], each of
    which is used; and two foreground voxels carry the same label exactly
    if they are connected.  So [n - 1] is the number of components. *)
Theorem Find3d_counts (image : Z -> Z) (image_length : nat)
    (width height depth backgroundColour : Z) (output : Z -> Z) (output_length : nat) :
  0 < width -> 0 < height -> 0 < depth -> 2 * (width * height * depth) <= INT_MAX ->
  (image_length = 0%nat \/ output_length = 0%nat ->
   Find3d image image_length width height depth backgroundColour output output_length
   = Raises IndexOutOfRange) /\
  (width * height * depth <= Z.of_nat image_length ->
   width * height * depth <= Z.of_nat output_length ->
   (Find3d image image_length width height depth backgroundColour output output_length
    = Raises (Native TooManyComponents) \/
    exists n out,
      Find3d image image_length width height depth backgroundColour output output_length
      = Returns (n, out)) /\
   forall n out,
     Find3d image image_length width height depth backgroundColour output output_length
     = Returns (n, out) ->
     1 <= n <= 65535 /\ n <= width * height * depth + 1 /\
     (forall p, in_volume width height depth p ->
        0 <= out (cell width height p) < n /\
        (out (cell width height p) = 0 <-> image (cell width height p) = backgroundColour)) /\
     (forall l, 1 <= l < n ->
        exists p, in_volume width height depth p /\ out (cell width height p) = l) /\
     (forall p q, in_volume width height depth p -> in_volume width height depth q ->
        image (cell width height p) <> backgroundColour ->
        image (cell width height q) <> backgroundColour ->
        out (cell width height p) = out (cell width height q) <->
        connected width height depth image (width * height) width p q)).
Proof.
  intros Hw Hh Hd Hsize.
  assert (HU : 0 < USHRT_MAX) by (unfold USHRT_MAX; lia).
  pose proof (dense_distinct_cells width height depth) as Hcells.
  unfold Find3d. split.
  { intros [-> | ->]; [done|]. by destruct (decide (image_length = 0%nat)). }
  intros Hi Ho.
  assert (0 < width * height * depth) by (repeat apply Z.mul_pos_pos; lia).
  rewrite (decide_False (P := image_length = 0%nat)) by lia.
  rewrite (decide_False (P := output_length = 0%nat)) by lia.
  split.
  - destruct (findConnectedComponents3d_kind USHRT_MAX width height depth image
                (width * height) width backgroundColour (width * height) width 0 output
                HU Hcells) as [Hk1 Hk2].
    specialize (Hk2 eq_refl).
    pose proof (run_throws USHRT_MAX width height depth image (width * height) width
                  backgroundColour (width * height) width 0 output) as Hk3.
    destruct (findConnectedComponents3d _ _ _ _ _ _ _ _ _ _ _ _) as [[stats out]|e| |];
      cbn [mbind result_bind kind rethrown] in *; try done.
    + right. eauto.
    + left. do 2 f_equal. apply Hk3; [lia..|done].
  - intros n out Hrun.
    destruct (findConnectedComponents3d _ _ _ _ _ _ _ _ _ _ _ _) as [[stats out']|e| |] eqn:Hfind;
      cbn [mbind result_bind rethrown] in Hrun; try done.
    injection Hrun as <- <-.
    destruct (labels_summary _ _ _ _ _ _ _ _ _ _ _ _ _ _ HU Hcells
                ltac:(lia) ltac:(lia) ltac:(lia) Hfind)
      as (Hlen & Hvox & Hone & Hrange & Hbg & Hused).
    specialize (Hone eq_refl). unfold USHRT_MAX in Hlen.
    split_and!; try lia.
    + intros p Hp. split; [by apply Hrange|]. by apply Hbg.
    + intros l Hl. destruct (Hused l ltac:(lia) ltac:(lia)) as (p & Hp & _ & Ho'). by exists p.
    + intros p q Hp Hq Hvp Hvq.
      by apply (labels_connected _ _ _ _ _ _ _ _ _ _ _ _ _ _ _ _ HU Hcells Hfind).
Qed.

Lemma Find3d_counts_witness :
  (0 < 4 /\ 0 < 1 /\ 2 * (4 * 1 * 1) <= INT_MAX) /\
  Find3d (buffer_of [5; 5; 0; 7]) 0 4 1 1 0 (fun _ => 0) 4 = Raises IndexOutOfRange /\
  exists out, Find3d (buffer_of [5; 5; 0; 7]) 4 4 1 1 0 (fun _ => 0) 4 = Returns (3, out) /\
              map out [0; 1; 2; 3] = [1; 1; 0; 2].
Proof.
  split; [unfold INT_MAX; lia|]. split.
  - refine (proj1 (Find3d_counts (buffer_of [5; 5; 0; 7]) 0 4 1 1 0 (fun _ => 0) 4 _ _ _ _) _);
      unfold INT_MAX; auto; lia.
  - destruct (Find3d (buffer_of [5; 5; 0; 7]) 4 4 1 1 0 (fun _ => 0) 4) as [[n out]| |] eqn:Hrun;
      try (vm_compute in Hrun; discriminate).
    exists out. vm_compute in Hrun. by injection Hrun as <- <-.
Defined.

End ComponentsFacts.

(** ** Convolution *)

Module ConvolutionFacts.
Import Float32 Convolution.

Lemma all_from_spec (f : Z -> bool) n a :
  all_from f n a = true -> forall x, a <= x < a + Z.of_nat n -> f x = true.
Proof.
  revert a. induction n as [|n IH]; intros a Hall x Hx; [lia|].
  simpl in Hall. apply andb_true_iff in Hall as [Ha Hall].
  destruct (decide (x = a)) as [->|Hne]; [done|].
  apply (IH (a + 1)); [done|lia].
Qed.

(** C2 fails on the code.  With the radius-0 kernel [1.0], [writerT<short>]
    gets back the very sample that was read, adds 0.5 and truncates toward
    zero: the [short] samples -5 and -1 become -4 and 0 (3 and -32768 are
    kept).  On [float] the sum starts from [+0.0], so that the sample
    [-0.0] becomes [+0.0]. *)
Theorem identity_kernel_changes_buffer :
  cells_of (convolve1d 4 1 1 (short_buffer [-5; -1; 3; -32768]) 8 8 2 0 [of_Z 1] 0)
    [0; 2; 4; 6]
  = Some [Short (-4); Short 0; Short 3; Short (-32768)] /\
  cells_of (convolve1d 2 1 1 (float_buffer [S754_zero true; of_Z 3]) 8 8 4 0 [of_Z 1] 0)
    [0; 4]
  = Some [S754_zero false; of_Z 3].
Proof. split; vm_compute; reflexivity. Qed.

(** What the identity kernel does to each [short] sample: the negative
    ones, [SHRT_MIN] apart, come back larger by one. *)
Lemma identity_kernel_short (x : Z) :
  SHRT_MIN <= x <= SHRT_MAX ->
  writerT_short (add zero (mul (of_Z 1) (readerT_short x)))
  = if (x <? 0) && negb (x =? SHRT_MIN) then x + 1 else x.
Proof.
  intros Hx.
  apply Z.eqb_eq.
  apply (all_from_spec (fun x =>
           writerT_short (add zero (mul (of_Z 1) (readerT_short x)))
           =? (if (x <? 0) && negb (x =? SHRT_MIN) then x + 1 else x))
           (Z.to_nat 65536) SHRT_MIN); [vm_compute; reflexivity|].
  unfold SHRT_MIN, SHRT_MAX in *. lia.
Qed.

(** Every [unsigned char] sample comes back as it was. *)
Lemma identity_kernel_uchar (x : Z) :
  0 <= x <= 255 ->
  writerT_uchar (add zero (mul (of_Z 1) (readerT_uchar x))) = x.
Proof.
  intros Hx.
  apply Z.eqb_eq.
  apply (all_from_spec (fun x =>
           writerT_uchar (add zero (mul (of_Z 1) (readerT_uchar x))) =? x)
           (Z.to_nat 256) 0); [vm_compute; reflexivity|lia].
Qed.


Section Rows.
Local Open Scope nat_scope.
Context {T : Type} {P : Pixel T}.

(** A loop that stores [f u] at index [g u] for [u = 0, ..., n - 1]. *)
Lemma foldl_insert_seq {A} (f : nat -> A) (g : nat -> nat) (n : nat) (l : list A) :
  (forall u, u < n -> g u < length l) ->
  (forall u u', u < n -> u' < n -> g u = g u' -> u = u') ->
  let l' := foldl (fun l u => <[g u := f u]> l) l (seq 0 n) in
  length l' = length l /\
  (forall u, u < n -> l' !! g u = Some (f u)) /\
  (forall i, (forall u, u < n -> g u <> i) -> l' !! i = l !! i).
Proof.
  induction n as [|n IH]; intros Hlen Hinj; cbv zeta.
  - simpl. split_and!; [done|lia|done].
  - rewrite seq_S, foldl_app. simpl.
    destruct IH as (IHl & IHin & IHout); [auto with lia..|].
    split_and!.
    + by rewrite length_insert.
    + intros u Hu. destruct (decide (u = n)) as [->|Hne].
      * apply list_lookup_insert_eq. rewrite IHl. auto.
      * rewrite list_lookup_insert_ne; [apply IHin; lia|].
        intros E. apply Hinj in E; lia.
    + intros i Hi. rewrite list_lookup_insert_ne; [|apply Hi; lia].
      apply IHout. auto with lia.
Qed.

Lemma gather_spec (width r : nat) (buffer : Z -> T) (q hop : Z) (row : list float) :
  length row = width + 2 * r ->
  let g := gather width r buffer q hop row in
  length g = length row /\
  forall j, j < width -> g !! (r + j) = Some (readerT (buffer (q + Z.of_nat j * hop)%Z)).
Proof.
  intros Hlen. unfold gather.
  destruct (foldl_insert_seq (fun u => readerT (buffer (q + Z.of_nat u * hop)%Z))
              (fun u => r + u) width row) as (Hl & Hin & _); [lia|lia|].
  split; [exact Hl|exact Hin].
Qed.

(** The first [k] rounds of the loop under [// mirror edges]. *)
Lemma mirror_upto (width r : nat) (row : list float) (k : nat) :
  r <= width -> length row = width + 2 * r -> k <= r ->
  let m := foldl (fun row u =>
             let row1 := <[r - 1 - u := row !!! (r + u)]> row in
             <[r + width + u := row1 !!! (r + width - 1 - u)]> row1) row (seq 0 k) in
  length m = length row /\
  (forall j, j < width -> m !! (r + j) = row !! (r + j)) /\
  (forall i, i < k -> m !! (r - 1 - i) = row !! (r + i) /\
                      m !! (r + width + i) = row !! (r + width - 1 - i)).
Proof.
  intros Hr Hlen. induction k as [|k IH]; intros Hk; cbv zeta.
  - simpl. split_and!; [done|done|lia].
  - rewrite seq_S, foldl_app. simpl.
    destruct IH as (IHl & IHrow & IHpad); [lia|].
    set (m := foldl _ row (seq 0 k)) in *.
    assert (Hread : forall j, j < width -> m !!! (r + j) = row !!! (r + j)).
    { intros j Hj. rewrite !list_lookup_total_alt. by rewrite IHrow. }
    assert (Hsome : forall j, j < width -> row !! (r + j) = Some (row !!! (r + j))).
    { intros j Hj. apply list_lookup_lookup_total_lt. lia. }
    set (row1 := <[r - 1 - k := m !!! (r + k)]> m).
    assert (H1 : row1 !!! (r + width - 1 - k) = row !!! (r + width - 1 - k)).
    { rewrite !list_lookup_total_alt. unfold row1.
      rewrite list_lookup_insert_ne by lia.
      replace (r + width - 1 - k) with (r + (width - 1 - k)) by lia.
      rewrite IHrow by lia. done. }
    split_and!.
    + unfold row1. by rewrite !length_insert.
    + intros j Hj. unfold row1. rewrite !list_lookup_insert_ne by lia. by apply IHrow.
    + intros i Hi. destruct (decide (i = k)) as [->|Hne].
      * split.
        -- unfold row1. rewrite list_lookup_insert_ne by lia.
           rewrite list_lookup_insert_eq by lia. rewrite Hread by lia.
           symmetry. apply Hsome. lia.
        -- rewrite list_lookup_insert_eq by (unfold row1; rewrite length_insert; lia).
           rewrite H1. replace (r + width - 1 - k) with (r + (width - 1 - k)) by lia.
           symmetry. apply Hsome. lia.
      * unfold row1. rewrite !list_lookup_insert_ne by lia. apply IHpad. lia.
Qed.

Lemma mirror_spec (width r : nat) (row : list float) :
  r <= width -> length row = width + 2 * r ->
  let m := mirror width r row in
  length m = length row /\
  (forall j, j < width -> m !! (r + j) = row !! (r + j)) /\
  (forall i, i < r -> m !! (r - 1 - i) = row !! (r + i) /\
                      m !! (r + width + i) = row !! (r + width - 1 - i)).
Proof. intros Hr Hlen. unfold mirror. by apply mirror_upto. Qed.

Lemma scatter_spec (width : nat) (out : list float) (r hop : Z) (buffer : Z -> T) :
  hop <> 0%Z ->
  forall u, u < width ->
    scatter width out r hop buffer (r + Z.of_nat u * hop)%Z = writerT (out !!! u).
Proof.
  intros Hhop. unfold scatter. induction width as [|n IH]; intros u Hu; [lia|].
  rewrite seq_S, foldl_app. simpl.
  destruct (decide (u = n)) as [->|Hne].
  - by rewrite fn_lookup_insert.
  - rewrite fn_lookup_insert_ne by nia. apply IH. lia.
Qed.

(** One round of the row loop of [convolve]. *)
Lemma convolve_row_spec (width kernelRadius : nat) (buffer : Z -> T) (base hop stride : Z)
    (kernel : list float) (v : nat) (t : ThreadData) :
  2 * kernelRadius < width ->
  length (inputRow t) = width + 2 * kernelRadius ->
  length (outputRow t) = width ->
  hop <> 0%Z ->
  let q := (base + Z.of_nat v * stride)%Z in
  let sample j := readerT (buffer (q + Z.of_nat j * hop)%Z) in
  let s' := convolve_row width base hop stride kernel kernelRadius v (t, buffer) in
  let padded := inputRow (fst s') in
  length padded = width + 2 * kernelRadius /\
  (forall j, j < width -> padded !! (kernelRadius + j) = Some (sample j)) /\
  (forall i, i < kernelRadius ->
     padded !! (kernelRadius - 1 - i) = Some (sample i) /\
     padded !! (kernelRadius - 1 - i) = padded !! (kernelRadius + i) /\
     padded !! (kernelRadius + width + i) = Some (sample (width - 1 - i)) /\
     padded !! (kernelRadius + width + i) = padded !! (kernelRadius + width - 1 - i)) /\
  (forall u, u < width ->
     outputRow (fst s') !! u = Some (window_sum kernel padded kernelRadius u) /\
     snd s' (q + Z.of_nat u * hop)%Z = writerT (window_sum kernel padded kernelRadius u)).
Proof.
  intros Hr Hin Hout Hhop q sample s' padded.
  destruct (gather_spec width kernelRadius buffer q hop (inputRow t) Hin) as (Hgl & Hg).
  set (g := gather width kernelRadius buffer q hop (inputRow t)) in *.
  destruct (mirror_spec width kernelRadius g) as (Hml & Hmrow & Hmpad); [lia|lia|].
  set (m := mirror width kernelRadius g) in *.
  set (o := convolve_reference m (width + 2 * kernelRadius) kernel kernelRadius (outputRow t)).
  assert (Hs' : s' = (mkThreadData m o, scatter width o q hop buffer)) by reflexivity.
  assert (Hpad : padded = m) by reflexivity.
  clearbody s' padded. subst s' padded. cbn [fst snd inputRow outputRow].
  assert (Hrow : forall j, j < width -> m !! (kernelRadius + j) = Some (sample j)).
  { intros j Hj. rewrite Hmrow by done. by apply Hg. }
  split_and!.
  - lia.
  - exact Hrow.
  - intros i Hi. destruct (Hmpad i Hi) as [Hl' Hr']. split_and!.
    + rewrite Hl'. apply Hg. lia.
    + rewrite Hl'. symmetry. apply Hmrow. lia.
    + rewrite Hr'. replace (kernelRadius + width - 1 - i)
        with (kernelRadius + (width - 1 - i)) by lia. apply Hg. lia.
    + rewrite Hr'. replace (kernelRadius + width - 1 - i)
        with (kernelRadius + (width - 1 - i)) by lia. symmetry. apply Hmrow. lia.
  - intros u Hu.
    assert (Ho : o !! u = Some (window_sum kernel m kernelRadius u)).
    { unfold o, convolve_reference.
      replace (width + 2 * kernelRadius - 2 * kernelRadius) with width by lia.
      destruct (foldl_insert_seq (window_sum kernel m kernelRadius) (fun u => u)
                  width (outputRow t)) as (_ & Hw & _); [lia|done|].
      by apply Hw. }
    split; [exact Ho|].
    rewrite scatter_spec by done.
    f_equal. apply list_lookup_total_correct. exact Ho.
Qed.

End Rows.

(** *** The identity kernel *)

Section Identity.
Context {T : Type} {P : Pixel T}.

(** A sample that the radius-0 kernel [1.0] gives back. *)
Let kept (x : T) : Prop := writerT (add zero (mul (of_Z 1) (readerT x))) = x.

Lemma scatter_same (width : nat) (out : list float) (r hop : Z) (buffer : Z -> T) :
  (forall u, (u < width)%nat -> writerT (out !!! u) = buffer (r + Z.of_nat u * hop)) ->
  forall a, scatter width out r hop buffer a = buffer a.
Proof.
  unfold scatter. induction width as [|n IH]; intros Hout a; [done|].
  rewrite seq_S, foldl_app. simpl.
  destruct (decide (r + Z.of_nat n * hop = a)) as [<-|Hne].
  - rewrite fn_lookup_insert. apply Hout. lia.
  - rewrite fn_lookup_insert_ne by done. apply IH. intros u Hu. apply Hout. lia.
Qed.

Lemma convolve_row_identity (width : nat) (base hop stride : Z) (v : nat)
    (t : ThreadData) (buffer : Z -> T) :
  length (inputRow t) = (width + 2 * 0)%nat -> length (outputRow t) = width ->
  (forall a, kept (buffer a)) ->
  let s' := convolve_row width base hop stride [of_Z 1] 0 v (t, buffer) in
  length (inputRow (fst s')) = (width + 2 * 0)%nat /\
  length (outputRow (fst s')) = width /\
  forall a, snd s' a = buffer a.
Proof.
  intros Hin Hout Hkept s'.
  set (q := base + Z.of_nat v * stride).
  destruct (gather_spec width 0 buffer q hop (inputRow t) Hin) as (Hgl & Hg).
  set (g := gather width 0 buffer q hop (inputRow t)) in *.
  set (o := convolve_reference g (width + 2 * 0) [of_Z 1] 0 (outputRow t)).
  assert (Hs' : s' = (mkThreadData g o, scatter width o q hop buffer)) by reflexivity.
  clearbody s'. subst s'. cbn [fst snd inputRow outputRow].
  destruct (foldl_insert_seq (window_sum [of_Z 1] g 0) (fun u => u) width (outputRow t))
    as (Hol & Ho & _); [lia|done|].
  assert (Eo : o = foldl (fun l u => <[u := window_sum [of_Z 1] g 0 u]> l)
                     (outputRow t) (seq 0 width)).
  { unfold o, convolve_reference. by replace (width + 2 * 0 - 2 * 0)%nat with width by lia. }
  rewrite <- Eo in Hol, Ho. split_and!; [lia|lia|].
  apply scatter_same. intros u Hu.
  rewrite (list_lookup_total_correct _ _ _ (Ho u Hu)).
  unfold window_sum. simpl. rewrite Nat.add_0_r.
  rewrite (list_lookup_total_correct _ _ _ (Hg u Hu)).
  change ([of_Z 1] !!! 0%nat) with (of_Z 1).
  apply Hkept.
Qed.

Lemma convolve_identity (width height : nat) (buffer : Z -> T) (base hop stride : Z) :
  (forall a, kept (buffer a)) ->
  forall a, convolve width height buffer base hop stride [of_Z 1] 0 a = buffer a.
Proof.
  intros Hkept. unfold convolve.
  assert (Hgen : forall n,
            let s := foldl (fun s v => convolve_row width base hop stride [of_Z 1] 0 v s)
                       (ThreadData_new width 0, buffer) (seq 0 n) in
            length (inputRow (fst s)) = (width + 2 * 0)%nat /\
            length (outputRow (fst s)) = width /\ forall a, snd s a = buffer a).
  { induction n as [|n IH]; cbv zeta.
    - simpl. by rewrite !length_replicate.
    - rewrite seq_S, foldl_app. simpl.
      destruct (foldl _ _ (seq 0 n)) as [t b]. destruct IH as (Hi & Ho & Hb).
      simpl in Hi, Ho, Hb.
      destruct (convolve_row_identity width base hop stride n t b Hi Ho) as (? & ? & Hb').
      { intros a. unfold kept. rewrite Hb. apply Hkept. }
      split_and!; [done|done|]. intros a. by rewrite Hb', Hb. }
  apply Hgen.
Qed.

(** Where every sample is kept, the radius-0 kernel [1.0] leaves the whole
    buffer as it is, in each direction. *)
Lemma convolve1d_identity (width height depth : nat) (buffer : Z -> T)
    (leap stride hop direction : Z) :
  0 <= direction <= 2 -> (forall a, kept (buffer a)) ->
  exists b, convolve1d width height depth buffer leap stride hop direction [of_Z 1] 0 = Ok b /\
            forall a, b a = buffer a.
Proof.
  intros Hd Hkept.
  assert (Hslices : forall (f : (Z -> T) -> nat -> Z -> T) n,
            (forall b z, (forall a, b a = buffer a) -> forall a, f b z a = buffer a) ->
            forall a, foldl f buffer (seq 0 n) a = buffer a).
  { intros f n Hf. induction n as [|n IH]; [done|].
    rewrite seq_S, foldl_app. simpl. by apply Hf. }
  assert (Hslice : forall w h base hp st b, (forall a, b a = buffer a) ->
            forall a, convolve w h b base hp st [of_Z 1] 0 a = buffer a).
  { intros w h base hp st b Hb a. rewrite convolve_identity, Hb; [done|].
    intros a'. unfold kept. rewrite Hb. apply Hkept. }
  unfold convolve1d.
  assert (direction = 0 \/ direction = 1 \/ direction = 2) as [-> | [-> | ->]] by lia;
    eexists; (split; [reflexivity|]); apply Hslices; intros b z Hb; by apply Hslice.
Qed.

End Identity.

(** X15.  On [unsigned char] volumes the identity kernel changes nothing. *)
Lemma identity_kernel_uchar_volume (width height depth : nat) (buffer : Z -> uchar)
    (leap stride hop direction : Z) :
  0 <= direction <= 2 -> (forall a, 0 <= uchar_val (buffer a) <= 255) ->
  exists b, convolve1d width height depth buffer leap stride hop direction [of_Z 1] 0 = Ok b /\
            forall a, b a = buffer a.
Proof.
  intros Hd Hrange. apply convolve1d_identity; [done|].
  intros a. specialize (Hrange a). destruct (buffer a) as [x]. simpl in *.
  f_equal. by apply identity_kernel_uchar.
Qed.

(** C5, as amended.  For a row of width [width] and a kernel of radius
    [kernelRadius] with [2 * kernelRadius < width], one round of the row
    loop of [convolve] (at row [v], on scratch rows of the sizes that
    [convolve] allocates, with a non-zero [hop]):
    - leaves in [inputRow] a padded row of length [width + 2 * kernelRadius]
      that holds the samples of the row at the indices
      [kernelRadius, ..., kernelRadius + width - 1];
    - mirrors the ends with the boundary sample repeated: for
      [i < kernelRadius], index [kernelRadius - 1 - i] holds sample [i] (as
      index [kernelRadius + i] does) and index [kernelRadius + width + i]
      holds sample [width - 1 - i] (as index [kernelRadius + width - 1 - i]
      does);
    - stores in [outputRow], and writes back through the codec, for each
      [u < width] the sum of the kernel against the window of the padded
      row that starts at [u].
    Concretely, the row [10, 20, 30, 40] under the kernel [0.25, 0.5, 0.25]
    becomes [12.5, 20, 30, 37.5]. *)
Theorem row_convolver :
  (forall (T : Type) (P : Pixel T) (width kernelRadius : nat) (buffer : Z -> T)
          (base hop stride : Z) (kernel : list float) (v : nat) (t : ThreadData),
      (2 * kernelRadius < width)%nat ->
      length (inputRow t) = (width + 2 * kernelRadius)%nat ->
      length (outputRow t) = width ->
      hop <> 0 ->
      let q := base + Z.of_nat v * stride in
      let sample j := readerT (buffer (q + Z.of_nat j * hop)) in
      let s' := convolve_row width base hop stride kernel kernelRadius v (t, buffer) in
      let padded := inputRow (fst s') in
      length padded = (width + 2 * kernelRadius)%nat /\
      (forall j, (j < width)%nat -> padded !! (kernelRadius + j)%nat = Some (sample j)) /\
      (forall i, (i < kernelRadius)%nat ->
         padded !! (kernelRadius - 1 - i)%nat = Some (sample i) /\
         padded !! (kernelRadius - 1 - i)%nat = padded !! (kernelRadius + i)%nat /\
         padded !! (kernelRadius + width + i)%nat = Some (sample (width - 1 - i)%nat) /\
         padded !! (kernelRadius + width + i)%nat
           = padded !! (kernelRadius + width - 1 - i)%nat) /\
      (forall u, (u < width)%nat ->
         outputRow (fst s') !! u = Some (window_sum kernel padded kernelRadius u) /\
         snd s' (q + Z.of_nat u * hop)
           = writerT (window_sum kernel padded kernelRadius u))) /\
  cells_of (convolve1d 4 1 1 (float_buffer (of_Z <$> [10; 20; 30; 40])) 16 16 4 0
              [dyadic 1 (-2); dyadic 1 (-1); dyadic 1 (-2)] 1) [0; 4; 8; 12]
  = Some [dyadic 25 (-1); of_Z 20; of_Z 30; dyadic 75 (-1)].
Proof.
  split.
  - intros. by apply convolve_row_spec.
  - vm_compute. reflexivity.
Qed.

(** C5 fails as stated on its example: the row [10, 20, 30, 40] under the
    kernel [0.25, 0.5, 0.25] becomes [12.5, 20, 30, 37.5]; the padded row is
    [10, 10, 20, 30, 40, 40], not [20, 10, 20, 30, 40, 30]. *)
Lemma mirror_edge_counterexample :
  cells_of (convolve1d 4 1 1 (float_buffer (of_Z <$> [10; 20; 30; 40])) 16 16 4 0
              [dyadic 1 (-2); dyadic 1 (-1); dyadic 1 (-2)] 1) [0; 4; 8; 12]
  = Some [dyadic 25 (-1); of_Z 20; of_Z 30; dyadic 75 (-1)] /\
  Some [dyadic 25 (-1); of_Z 20; of_Z 30; dyadic 75 (-1)]
  <> Some (of_Z <$> [15; 20; 30; 35]) /\
  mirror 4 1 (gather 4 1 (float_buffer (of_Z <$> [10; 20; 30; 40])) 0 4 (replicate 6 zero))
  = of_Z <$> [10; 10; 20; 30; 40; 40].
Proof.
  split_and!.
  - vm_compute. reflexivity.
  - vm_compute. discriminate.
  - vm_compute. reflexivity.
Qed.

(** The row [10, 20, 30, 40] and the kernel [0.25, 0.5, 0.25]. *)
Lemma row_convolver_witness :
  let buffer := float_buffer (of_Z <$> [10; 20; 30; 40]) in
  let kernel := [dyadic 1 (-2); dyadic 1 (-1); dyadic 1 (-2)] in
  let s' := convolve_row 4 0 4 16 kernel 1 0 (ThreadData_new 4 1, buffer) in
  let padded := inputRow (fst s') in
  (2 * 1 < 4)%nat /\
  length padded = (4 + 2 * 1)%nat /\
  (forall i, (i < 1)%nat ->
     padded !! (1 - 1 - i)%nat = Some (readerT (buffer (0 + Z.of_nat 0 * 16 + Z.of_nat i * 4))) /\
     padded !! (1 - 1 - i)%nat = padded !! (1 + i)%nat /\
     padded !! (1 + 4 + i)%nat
       = Some (readerT (buffer (0 + Z.of_nat 0 * 16 + Z.of_nat (4 - 1 - i) * 4))) /\
     padded !! (1 + 4 + i)%nat = padded !! (1 + 4 - 1 - i)%nat).
Proof.
  intros buffer kernel s' padded.
  pose proof (proj1 row_convolver float _ 4%nat 1%nat buffer 0 4 16 kernel 0%nat
                (ThreadData_new 4 1)) as H.
  destruct H as (Hlen & _ & Hpad & _).
  - lia.
  - reflexivity.
  - reflexivity.
  - lia.
  - split; [lia|]. split; [exact Hlen|exact Hpad].
Defined.

End ConvolutionFacts.

(** ** Convolution: sweeps over a volume *)

Module SweepFacts.
Import Float32 Convolution ConvolutionFacts.

(** *** Sweeps *)

Section Lines.
Local Open Scope nat_scope.
Context {T : Type} {P : Pixel T}.

Lemma foldl_length {A B} (step : list A -> B -> list A) (l : list A) (xs : list B) :
  (forall l x, length (step l x) = length l) -> length (foldl step l xs) = length l.
Proof.
  intros Hstep. revert l. induction xs as [|x xs IH]; intros l; [done|].
  simpl. by rewrite IH, Hstep.
Qed.

Lemma convolve_row_lengths (width r : nat) (base hop stride : Z) (kernel : list float)
    (v : nat) (t : ThreadData) (buffer : Z -> T) :
  let s' := convolve_row width base hop stride kernel r v (t, buffer) in
  length (inputRow (fst s')) = length (inputRow t) /\
  length (outputRow (fst s')) = length (outputRow t).
Proof.
  simpl. split.
  - unfold mirror, gather. rewrite !foldl_length; [done| |].
    + intros l x. by rewrite length_insert.
    + intros l x. cbv zeta. by rewrite !length_insert.
  - unfold convolve_reference. rewrite foldl_length; [done|].
    intros l x. by rewrite length_insert.
Qed.

Lemma scatter_frame (width : nat) (out : list float) (r hop : Z) (buffer : Z -> T) a :
  (forall u, u < width -> a <> (r + Z.of_nat u * hop)%Z) ->
  scatter width out r hop buffer a = buffer a.
Proof.
  unfold scatter. induction width as [|n IH]; intros Ha; [done|].
  rewrite seq_S, foldl_app. simpl.
  rewrite fn_lookup_insert_ne by (apply not_eq_sym, Ha; lia).
  apply IH. intros u Hu. apply Ha. lia.
Qed.

Lemma convolve_row_frame (width r : nat) (base hop stride : Z) (kernel : list float)
    (v : nat) (t : ThreadData) (buffer : Z -> T) a :
  (forall u, u < width -> a <> (base + Z.of_nat v * stride + Z.of_nat u * hop)%Z) ->
  snd (convolve_row width base hop stride kernel r v (t, buffer)) a = buffer a.
Proof. intros Ha. simpl. by apply scatter_frame. Qed.

Lemma line_lookup (buffer : Z -> T) (start step : Z) (n j : nat) :
  j < n -> line buffer start step n !! j = Some (readerT (buffer (start + Z.of_nat j * step)%Z)).
Proof.
  intros Hj. unfold line. rewrite list_lookup_fmap, lookup_seq_lt by done. done.
Qed.

Lemma line_length (buffer : Z -> T) (start step : Z) (n : nat) :
  length (line buffer start step n) = n.
Proof. unfold line. by rewrite length_fmap, length_seq. Qed.

Lemma line_ext (b b' : Z -> T) (start step : Z) (n : nat) :
  (forall u, u < n -> b' (start + Z.of_nat u * step)%Z = b (start + Z.of_nat u * step)%Z) ->
  line b' start step n = line b start step n.
Proof.
  intros Hext. unfold line. apply list_fmap_ext. intros i u Hu.
  apply lookup_seq in Hu as [-> Hu]. simpl. by rewrite Hext.
Qed.

(** The lookups that determine a mirror-padded row. *)
Lemma mirror_pad_unique (r : nat) (row padded : list float) :
  r <= length row -> length padded = length row + 2 * r ->
  (forall j, j < length row -> padded !! (r + j) = row !! j) ->
  (forall i, i < r -> padded !! (r - 1 - i) = row !! i /\
                     padded !! (r + length row + i) = row !! (length row - 1 - i)) ->
  padded = mirror_pad r row.
Proof.
  intros Hr Hlen Hrow Hpad. apply list_eq. intros k. unfold mirror_pad.
  assert (Hl1 : length (reverse (take r row)) = r)
    by (rewrite length_reverse, length_take; lia).
  assert (Hl3 : length (reverse (drop (length row - r) row)) = r)
    by (rewrite length_reverse, length_drop; lia).
  destruct (decide (k < r)) as [Hk|Hk].
  - rewrite lookup_app_l by lia. rewrite reverse_lookup by (rewrite length_take; lia).
    rewrite length_take, lookup_take_lt by lia.
    destruct (Hpad (r - 1 - k)) as [H1 _]; [lia|].
    replace (r - 1 - (r - 1 - k)) with k in H1 by lia. rewrite H1. f_equal. lia.
  - rewrite lookup_app_r by lia. rewrite Hl1.
    destruct (decide (k - r < length row)) as [Hk2|Hk2].
    + rewrite lookup_app_l by lia. rewrite <- Hrow by lia. f_equal. lia.
    + rewrite lookup_app_r by lia.
      destruct (decide (k - r - length row < r)) as [Hk3|Hk3].
      * rewrite reverse_lookup by (rewrite length_drop; lia).
        rewrite length_drop, lookup_drop.
        destruct (Hpad (k - r - length row)) as [_ H2]; [lia|].
        replace (r + length row + (k - r - length row)) with k in H2 by lia.
        rewrite H2. f_equal. lia.
      * rewrite !lookup_ge_None_2; [done|lia|lia].
Qed.

(** One row: its samples are replaced by the window sums of its
    mirror-padded copy, and nothing else in the buffer changes. *)
Lemma convolve_row_line (width r : nat) (base hop stride : Z) (kernel : list float)
    (v : nat) (t : ThreadData) (buffer : Z -> T) :
  2 * r < width -> hop <> 0%Z ->
  length (inputRow t) = width + 2 * r -> length (outputRow t) = width ->
  let q := (base + Z.of_nat v * stride)%Z in
  let s' := convolve_row width base hop stride kernel r v (t, buffer) in
  forall u, u < width ->
    snd s' (q + Z.of_nat u * hop)%Z = writerT (filtered kernel r (line buffer q hop width) u).
Proof.
  intros Hr Hhop Hin Hout q s' u Hu.
  destruct (convolve_row_spec width r buffer base hop stride kernel v t Hr Hin Hout Hhop)
    as (Hlen & Hrow & Hpad & Hsum).
  fold q in Hrow, Hpad, Hsum. fold s' in Hlen, Hrow, Hpad, Hsum.
  destruct (Hsum u Hu) as [_ ->]. unfold filtered. do 2 f_equal.
  apply mirror_pad_unique; rewrite ?line_length.
  - lia.
  - done.
  - intros j Hj. by rewrite Hrow, line_lookup.
  - intros i Hi. destruct (Hpad i Hi) as (H1 & _ & H2 & _).
    rewrite H1, H2, !line_lookup by lia. done.
Qed.

(** The rows in any order: every row of [order] is filtered as it was in
    the buffer at the start, and what lies outside these rows is kept. *)
Lemma convolve_in_spec (order : list nat) (width r : nat) (buffer : Z -> T)
    (base hop stride : Z) (kernel : list float) :
  2 * r < width -> hop <> 0%Z -> NoDup order ->
  (forall v v' u u', v ∈ order -> v' ∈ order -> u < width -> u' < width ->
     (Z.of_nat v * stride + Z.of_nat u * hop = Z.of_nat v' * stride + Z.of_nat u' * hop)%Z ->
     v = v') ->
  let b' := convolve_in order width buffer base hop stride kernel r in
  (forall v u, v ∈ order -> u < width ->
     b' (base + Z.of_nat v * stride + Z.of_nat u * hop)%Z
     = writerT (filtered kernel r (line buffer (base + Z.of_nat v * stride) hop width) u)) /\
  (forall a, (forall v u, v ∈ order -> u < width ->
                a <> (base + Z.of_nat v * stride + Z.of_nat u * hop)%Z) ->
     b' a = buffer a).
Proof.
  intros Hr Hhop. unfold convolve_in.
  induction order as [|v order IH] using rev_ind; intros Hnd Hinj.
  { simpl. split; [|done]. intros v u Hv. by apply elem_of_nil in Hv. }
  apply list.NoDup_app in Hnd as (Hnd & Hfresh & _).
  destruct IH as [IHrows IHframe]; [done| |].
  { intros v1 v2 u1 u2 H1 H2. apply Hinj; apply elem_of_app; by left. }
  assert (Hlens : forall l,
            let s := foldl (fun s v => convolve_row width base hop stride kernel r v s)
                       (ThreadData_new width r, buffer) l in
            length (inputRow (fst s)) = width + 2 * r /\ length (outputRow (fst s)) = width).
  { induction l as [|x l IHl] using rev_ind; cbv zeta.
    - simpl. by rewrite !length_replicate.
    - rewrite foldl_app. simpl. destruct (foldl _ _ l) as [t b].
      destruct (convolve_row_lengths width r base hop stride kernel x t b) as [H1 H2].
      simpl in IHl, H1, H2 |- *. destruct IHl as [H3 H4]. split; congruence. }
  rewrite foldl_app. cbn [foldl]. specialize (Hlens order). cbv zeta in Hlens.
  destruct (foldl _ _ order) as [t b] eqn:Hrun. simpl in IHrows, IHframe, Hlens.
  destruct Hlens as [Hin Hout].
  assert (Hv : v ∈ order ++ [v]) by (apply elem_of_app; right; by left).
  assert (Hsame : forall u, u < width ->
            b (base + Z.of_nat v * stride + Z.of_nat u * hop)%Z
            = buffer (base + Z.of_nat v * stride + Z.of_nat u * hop)%Z).
  { intros u Hu. apply IHframe. intros v' u' Hv' Hu' Heq.
    apply (Hfresh v'); [done|]. assert (v = v') as ->; [|by left].
    apply (Hinj v v' u u'); [done|apply elem_of_app; by left|done|done|lia]. }
  split.
  - intros v' u Hv' Hu. apply elem_of_app in Hv' as [Hv'|Hv'].
    + rewrite convolve_row_frame.
      * by apply IHrows.
      * intros u' Hu' Heq. apply (Hfresh v'); [done|]. assert (v' = v) as ->; [|by left].
        apply (Hinj v' v u u'); [apply elem_of_app; by left|done|done|done|lia].
    + apply list_elem_of_singleton in Hv' as ->.
      rewrite (convolve_row_line width r base hop stride kernel v t b) by done.
      f_equal. f_equal. by apply line_ext.
  - intros a Ha. rewrite convolve_row_frame.
    + apply IHframe. intros v' u Hv' Hu. apply Ha; [apply elem_of_app; by left|done].
    + intros u Hu. by apply Ha.
Qed.

Lemma convolve_in_frame (order : list nat) (width r : nat) (buffer : Z -> T)
    (base hop stride : Z) (kernel : list float) a :
  (forall v u, v ∈ order -> u < width ->
     a <> (base + Z.of_nat v * stride + Z.of_nat u * hop)%Z) ->
  convolve_in order width buffer base hop stride kernel r a = buffer a.
Proof.
  unfold convolve_in. induction order as [|v order IH] using rev_ind; intros Ha; [done|].
  rewrite foldl_app. cbn [foldl]. destruct (foldl _ _ order) as [t b]. simpl in IH.
  rewrite convolve_row_frame.
  - apply IH. intros v' u Hv' Hu. apply Ha; [apply elem_of_app; by left|done].
  - intros u Hu. apply Ha; [apply elem_of_app; right; by left|done].
Qed.

(** The rows of a slice may run in any order. *)
Lemma convolve_any_order (order : list nat) (width height r : nat) (buffer : Z -> T)
    (base hop stride : Z) (kernel : list float) :
  order ≡ₚ seq 0 height -> 2 * r < width -> hop <> 0%Z ->
  (forall v v' u u', v < height -> v' < height -> u < width -> u' < width ->
     (Z.of_nat v * stride + Z.of_nat u * hop = Z.of_nat v' * stride + Z.of_nat u' * hop)%Z ->
     v = v') ->
  forall a, convolve_in order width buffer base hop stride kernel r a
            = convolve width height buffer base hop stride kernel r a.
Proof.
  intros Hperm Hr Hhop Hinj a.
  change (convolve width height buffer base hop stride kernel r)
    with (convolve_in (seq 0 height) width buffer base hop stride kernel r).
  assert (Hmem : forall v, v ∈ order <-> v < height).
  { intros v. rewrite Hperm, elem_of_seq. lia. }
  destruct (convolve_in_spec order width r buffer base hop stride kernel Hr Hhop)
    as [Hrows1 Hframe1].
  { rewrite Hperm. apply NoDup_seq. }
  { intros v v' u u' Hv Hv'. apply Hinj; by apply Hmem. }
  destruct (convolve_in_spec (seq 0 height) width r buffer base hop stride kernel Hr Hhop)
    as [Hrows2 Hframe2].
  { apply NoDup_seq. }
  { intros v v' u u' Hv%elem_of_seq Hv'%elem_of_seq. apply Hinj; lia. }
  destruct (decide (a ∈ (v ← seq 0 height; u ← seq 0 width;
                         [(base + Z.of_nat v * stride + Z.of_nat u * hop)%Z])))
    as [Hin|Hout].
  - apply list_elem_of_bind in Hin as (v & Hin & Hv).
    apply list_elem_of_bind in Hin as (u & Hin & Hu).
    apply list_elem_of_singleton in Hin as ->.
    apply elem_of_seq in Hu. pose proof Hv as Hv'. apply elem_of_seq in Hv'.
    rewrite Hrows1 by (try apply Hmem; lia). by rewrite Hrows2 by (try done; lia).
  - assert (Hne : forall v u, v < height -> u < width ->
              a <> (base + Z.of_nat v * stride + Z.of_nat u * hop)%Z).
    { intros v u Hv Hu ->. apply Hout.
      apply list_elem_of_bind. exists v. split; [|apply elem_of_seq; lia].
      apply list_elem_of_bind. exists u. split; [by left|apply elem_of_seq; lia]. }
    rewrite Hframe1, Hframe2; [done| |].
    + intros v u Hv%elem_of_seq. apply Hne. lia.
    + intros v u Hv. apply Hne. by apply Hmem.
Qed.

(** A sweep over the slices [o], the rows [v] of a slice and the samples
    [u] of a row. *)
Lemma sweep_frame (No Nv Nu r : nat) (So Sv Su : Z) (buffer : Z -> T) (kernel : list float) a :
  (forall o v u, o < No -> v < Nv -> u < Nu ->
     a <> (Z.of_nat o * So + Z.of_nat v * Sv + Z.of_nat u * Su)%Z) ->
  foldl (fun b o => convolve Nu Nv b (Z.of_nat o * So) Su Sv kernel r) buffer (seq 0 No) a
  = buffer a.
Proof.
  induction No as [|n IH]; intros Ha; [done|].
  rewrite seq_S, foldl_app. cbn [foldl]. simpl.
  change (convolve Nu Nv ?b ?base Su Sv kernel r)
    with (convolve_in (seq 0 Nv) Nu b base Su Sv kernel r).
  rewrite convolve_in_frame.
  - apply IH. intros o v u Ho. apply Ha. lia.
  - intros v u Hv%elem_of_seq Hu. apply Ha; lia.
Qed.

Lemma sweep_spec (No Nv Nu r : nat) (So Sv Su : Z) (buffer : Z -> T) (kernel : list float) :
  2 * r < Nu -> Su <> 0%Z ->
  (forall o v u o' v' u', o < No -> v < Nv -> u < Nu -> o' < No -> v' < Nv -> u' < Nu ->
     (Z.of_nat o * So + Z.of_nat v * Sv + Z.of_nat u * Su
      = Z.of_nat o' * So + Z.of_nat v' * Sv + Z.of_nat u' * Su)%Z ->
     o = o' /\ v = v' /\ u = u') ->
  forall o v u, o < No -> v < Nv -> u < Nu ->
    foldl (fun b o => convolve Nu Nv b (Z.of_nat o * So) Su Sv kernel r) buffer (seq 0 No)
      (Z.of_nat o * So + Z.of_nat v * Sv + Z.of_nat u * Su)%Z
    = writerT (filtered kernel r
                 (line buffer (Z.of_nat o * So + Z.of_nat v * Sv) Su Nu) u).
Proof.
  intros Hr HSu. induction No as [|n IH]; intros Hinj o v u Ho Hv Hu; [lia|].
  rewrite seq_S, foldl_app. cbn [foldl]. simpl.
  set (b := foldl _ buffer (seq 0 n)).
  assert (Hb : forall v' u', v' < Nv -> u' < Nu ->
            b (Z.of_nat n * So + Z.of_nat v' * Sv + Z.of_nat u' * Su)%Z
            = buffer (Z.of_nat n * So + Z.of_nat v' * Sv + Z.of_nat u' * Su)%Z).
  { intros v' u' Hv' Hu'. apply sweep_frame. intros o1 v1 u1 Ho1 Hv1 Hu1 Heq.
    destruct (Hinj n v' u' o1 v1 u1) as (? & _); lia. }
  change (convolve Nu Nv b ?base Su Sv kernel r)
    with (convolve_in (seq 0 Nv) Nu b base Su Sv kernel r).
  destruct (convolve_in_spec (seq 0 Nv) Nu r b (Z.of_nat n * So) Su Sv kernel Hr HSu)
    as [Hrows Hframe].
  { apply NoDup_seq. }
  { intros v1 v2 u1 u2 H1%elem_of_seq H2%elem_of_seq Hu1 Hu2 Heq.
    destruct (Hinj n v1 u1 n v2 u2) as (_ & ? & _); lia. }
  destruct (decide (o = n)) as [->|Hne].
  - rewrite Hrows by (try apply elem_of_seq; lia). do 2 f_equal.
    apply line_ext. intros u' Hu'. by apply Hb.
  - rewrite Hframe.
    + apply IH; [|lia|done|done].
      intros o1 v1 u1 o2 v2 u2 ? ? ? ? ? ?. apply Hinj; lia.
    + intros v1 u1 Hv1%elem_of_seq Hu1 Heq.
      destruct (Hinj o v u n v1 u1) as (? & _); lia.
Qed.
End Lines.

(** X12.  In each direction [convolve1d] filters the lines of the volume that
    run along that axis: every sample is replaced by the kernel against
    the mirror-padded line through it, read from the buffer as it was at
    the start.  (The kernel has [2 * r + 1] coefficients and is no longer
    than the line, and the offsets of distinct voxels are distinct.) *)
Theorem convolve1d_lines (T : Type) (P : Pixel T) (width height depth : nat)
    (buffer : Z -> T) (leap stride hop : Z) (kernel : list float) (r : nat) :
  length kernel = (2 * r + 1)%nat ->
  distinct_samples width height depth leap stride hop ->
  ((2 * r < width)%nat -> hop <> 0 ->
   exists b, convolve1d width height depth buffer leap stride hop 0 kernel r = Ok b /\
     forall x y z, (x < width)%nat -> (y < height)%nat -> (z < depth)%nat ->
       b (Z.of_nat z * leap + Z.of_nat y * stride + Z.of_nat x * hop)
       = writerT (filtered kernel r
                    (line buffer (Z.of_nat z * leap + Z.of_nat y * stride) hop width) x)) /\
  ((2 * r < height)%nat -> stride <> 0 ->
   exists b, convolve1d width height depth buffer leap stride hop 1 kernel r = Ok b /\
     forall x y z, (x < width)%nat -> (y < height)%nat -> (z < depth)%nat ->
       b (Z.of_nat z * leap + Z.of_nat y * stride + Z.of_nat x * hop)
       = writerT (filtered kernel r
                    (line buffer (Z.of_nat z * leap + Z.of_nat x * hop) stride height) y)) /\
  ((2 * r < depth)%nat -> leap <> 0 ->
   exists b, convolve1d width height depth buffer leap stride hop 2 kernel r = Ok b /\
     forall x y z, (x < width)%nat -> (y < height)%nat -> (z < depth)%nat ->
       b (Z.of_nat z * leap + Z.of_nat y * stride + Z.of_nat x * hop)
       = writerT (filtered kernel r
                    (line buffer (Z.of_nat y * stride + Z.of_nat x * hop) leap depth) z)).
Proof.
  intros _ Hinj. split_and!.
  - intros Hr Hhop. eexists. split; [reflexivity|]. intros x y z Hx Hy Hz.
    apply (sweep_spec depth height width r leap stride hop buffer kernel Hr Hhop); try done.
    intros o v u o' v' u' ? ? ? ? ? ? Heq.
    destruct (Hinj u v o u' v' o') as (? & ? & ?); done.
  - intros Hr Hhop. eexists. split; [reflexivity|]. intros x y z Hx Hy Hz.
    replace (Z.of_nat z * leap + Z.of_nat y * stride + Z.of_nat x * hop)
      with (Z.of_nat z * leap + Z.of_nat x * hop + Z.of_nat y * stride) by lia.
    apply (sweep_spec depth width height r leap hop stride buffer kernel Hr Hhop); try done.
    intros o v u o' v' u' ? ? ? ? ? ? Heq.
    destruct (Hinj v u o v' u' o') as (? & ? & ?); try done. lia.
  - intros Hr Hhop. eexists. split; [reflexivity|]. intros x y z Hx Hy Hz.
    replace (Z.of_nat z * leap + Z.of_nat y * stride + Z.of_nat x * hop)
      with (Z.of_nat y * stride + Z.of_nat x * hop + Z.of_nat z * leap) by lia.
    apply (sweep_spec height width depth r stride hop leap buffer kernel Hr Hhop); try done.
    intros o v u o' v' u' ? ? ? ? ? ? Heq.
    destruct (Hinj v o u v' o' u') as (? & ? & ?); try done. lia.
Qed.

Lemma dense_distinct_samples (width height depth : nat) (size : Z) :
  0 < size ->
  distinct_samples width height depth
    (Z.of_nat width * Z.of_nat height * size) (Z.of_nat width * size) size.
Proof.
  intros Hs x y z x' y' z' Hx Hy Hz Hx' Hy' Hz' Heq.
  assert (Heq' : (Z.of_nat z * (Z.of_nat width * Z.of_nat height)
                  + Z.of_nat y * Z.of_nat width + Z.of_nat x) * size
               = (Z.of_nat z' * (Z.of_nat width * Z.of_nat height)
                  + Z.of_nat y' * Z.of_nat width + Z.of_nat x') * size) by lia.
  apply Z.mul_cancel_r in Heq'; [|lia].
  assert (Hrow : forall a c : nat, (a < width)%nat -> (c < height)%nat ->
            0 <= Z.of_nat c * Z.of_nat width + Z.of_nat a < Z.of_nat width * Z.of_nat height).
  { intros a c Ha Hc. split; [lia|].
    assert ((Z.of_nat c + 1) * Z.of_nat width <= Z.of_nat height * Z.of_nat width)
      by (apply Z.mul_le_mono_nonneg_r; lia).
    lia. }
  destruct (Z.div_mod_unique (Z.of_nat width * Z.of_nat height) (Z.of_nat z) (Z.of_nat z')
              (Z.of_nat y * Z.of_nat width + Z.of_nat x)
              (Z.of_nat y' * Z.of_nat width + Z.of_nat x')) as [Hzz Hrest];
    [left; by apply Hrow|left; by apply Hrow|lia|].
  destruct (Z.div_mod_unique (Z.of_nat width) (Z.of_nat y) (Z.of_nat y')
              (Z.of_nat x) (Z.of_nat x')) as [Hyy Hxx]; [lia|lia|lia|].
  lia.
Qed.

Lemma convolve1d_lines_witness :
  let buffer := float_buffer (of_Z <$> [10; 20; 30; 40]) in
  let kernel := [dyadic 1 (-2); dyadic 1 (-1); dyadic 1 (-2)] in
  distinct_samples 4 1 1 16 16 4 /\
  exists b, convolve1d 4 1 1 buffer 16 16 4 0 kernel 1 = Ok b /\
    forall x y z, (x < 4)%nat -> (y < 1)%nat -> (z < 1)%nat ->
      b (Z.of_nat z * 16 + Z.of_nat y * 16 + Z.of_nat x * 4)
      = writerT (filtered kernel 1 (line buffer (Z.of_nat z * 16 + Z.of_nat y * 16) 4 4) x).
Proof.
  intros buffer kernel.
  assert (Hd : distinct_samples 4 1 1 16 16 4) by (apply (dense_distinct_samples 4 1 1 4); lia).
  split; [exact Hd|].
  apply (proj1 (convolve1d_lines float _ 4 1 1 buffer 16 16 4 kernel 1 eq_refl Hd)); lia.
Defined.

Lemma convolve1d_keeps (T : Type) (P : Pixel T) (width height depth : nat)
    (buffer b : Z -> T) (leap stride hop direction : Z) (kernel : list float) (r : nat) a :
  convolve1d width height depth buffer leap stride hop direction kernel r = Ok b ->
  (forall x y z, (x < width)%nat -> (y < height)%nat -> (z < depth)%nat ->
     a <> Z.of_nat z * leap + Z.of_nat y * stride + Z.of_nat x * hop) ->
  b a = buffer a.
Proof.
  intros Hrun Ha. unfold convolve1d in Hrun.
  destruct direction as [|[[p|p|]|[p|p|]|]|p]; try discriminate; injection Hrun as <-.
  - apply sweep_frame. intros o v u Ho Hv Hu. by apply Ha.
  - apply sweep_frame. intros o v u Ho Hv Hu.
    replace (Z.of_nat o * stride + Z.of_nat v * hop + Z.of_nat u * leap)
      with (Z.of_nat u * leap + Z.of_nat o * stride + Z.of_nat v * hop) by lia.
    by apply Ha.
  - apply sweep_frame. intros o v u Ho Hv Hu.
    replace (Z.of_nat o * leap + Z.of_nat v * hop + Z.of_nat u * stride)
      with (Z.of_nat o * leap + Z.of_nat u * stride + Z.of_nat v * hop) by lia.
    by apply Ha.
Qed.

(** X13.  [convolve1d] writes the samples of the volume and nothing else in the
    buffer, whatever the strides and the [2 * r + 1] coefficients of the
    kernel. *)
Theorem convolve1d_frame (T : Type) (P : Pixel T) (width height depth : nat)
    (buffer b : Z -> T) (leap stride hop direction : Z) (kernel : list float) (r : nat) a :
  length kernel = (2 * r + 1)%nat ->
  convolve1d width height depth buffer leap stride hop direction kernel r = Ok b ->
  (forall x y z, (x < width)%nat -> (y < height)%nat -> (z < depth)%nat ->
     a <> Z.of_nat z * leap + Z.of_nat y * stride + Z.of_nat x * hop) ->
  b a = buffer a.
Proof. intros _. apply convolve1d_keeps. Qed.

Lemma convolve1d_frame_witness :
  exists b, convolve1d 2 1 1 (uchar_buffer [1; 2; 3]) 2 2 1 0 [of_Z 1] 0 = Ok b /\
            b 2 = uchar_buffer [1; 2; 3] 2.
Proof.
  eexists. split; [reflexivity|].
  apply (convolve1d_frame uchar _ 2 1 1 (uchar_buffer [1; 2; 3]) _ 2 2 1 0 [of_Z 1] 0 2);
    [reflexivity|reflexivity|].
  intros x y z Hx Hy Hz. lia.
Defined.

(** X14.  The rows of a slice do not depend on each other: run in any order
    they leave the buffer that [convolve] leaves.  (The kernel has
    [2 * r + 1] coefficients and is no longer than a row, and distinct
    rows do not overlap.) *)
Theorem rows_in_any_order (T : Type) (P : Pixel T) (order : list nat) (width height r : nat)
    (buffer : Z -> T) (base hop stride : Z) (kernel : list float) :
  length kernel = (2 * r + 1)%nat ->
  order ≡ₚ seq 0 height -> (2 * r < width)%nat -> hop <> 0 ->
  (forall v v' u u' : nat, (v < height)%nat -> (v' < height)%nat ->
     (u < width)%nat -> (u' < width)%nat ->
     Z.of_nat v * stride + Z.of_nat u * hop = Z.of_nat v' * stride + Z.of_nat u' * hop ->
     v = v') ->
  forall a, convolve_in order width buffer base hop stride kernel r a
            = convolve width height buffer base hop stride kernel r a.
Proof. intros _. apply convolve_any_order. Qed.

Lemma rows_in_any_order_witness :
  convolve_in [1; 0]%nat 3 (uchar_buffer [1; 2; 3; 4; 5; 6]) 0 1 3
    [dyadic 1 (-2); dyadic 1 (-1); dyadic 1 (-2)] 1 4
  = convolve 3 2 (uchar_buffer [1; 2; 3; 4; 5; 6]) 0 1 3
      [dyadic 1 (-2); dyadic 1 (-1); dyadic 1 (-2)] 1 4.
Proof.
  apply rows_in_any_order.
  - reflexivity.
  - apply (Permutation_swap 0%nat 1%nat []).
  - lia.
  - lia.
  - intros v v' u u' Hv Hv' Hu Hu' Heq. lia.
Defined.

Lemma identity_kernel_uchar_volume_witness :
  0 <= 1 <= 2 /\
  exists b, convolve1d 2 2 1 (uchar_buffer [7; 0; 255; 9]) 4 2 1 1 [of_Z 1] 0 = Ok b /\
            forall a, b a = uchar_buffer [7; 0; 255; 9] a.
Proof.
  split; [lia|].
  apply (identity_kernel_uchar_volume 2 2 1 (uchar_buffer [7; 0; 255; 9]) 4 2 1 1); [lia|].
  intros a. unfold uchar_buffer. simpl.
  destruct (Z.to_nat a) as [|[|[|[|[|n]]]]]; simpl; lia.
Defined.

(** *** SseConvolver.h: the constructor *)

Lemma pad_multiple (k : nat) :
  ((k + (4 - k mod 4) mod 4) mod 4 = 0)%nat /\ ((4 - k mod 4) mod 4 < 4)%nat.
Proof.
  split; [|apply Nat.mod_upper_bound; lia].
  pose proof (Nat.mod_upper_bound k 4 ltac:(lia)) as Hm.
  pose proof (Nat.div_mod_eq k 4) as Hd.
  set (q := (k / 4)%nat) in *.
  destruct (k mod 4)%nat as [|[|[|[|n]]]] eqn:E; [| | | |lia].
  - change ((4 - 0) mod 4)%nat with 0%nat.
    replace (k + 0)%nat with (q * 4)%nat by lia. apply Nat.Div0.mod_mul.
  - change ((4 - 1) mod 4)%nat with 3%nat.
    replace (k + 3)%nat with ((q + 1) * 4)%nat by lia. apply Nat.Div0.mod_mul.
  - change ((4 - 2) mod 4)%nat with 2%nat.
    replace (k + 2)%nat with ((q + 1) * 4)%nat by lia. apply Nat.Div0.mod_mul.
  - change ((4 - 3) mod 4)%nat with 1%nat.
    replace (k + 1)%nat with ((q + 1) * 4)%nat by lia. apply Nat.Div0.mod_mul.
Qed.

(** X18.  A convolver that the constructor returns, for a kernel that is not
    empty, holds the kernel padded with zeros to the next multiple of four
    coefficients. *)
Theorem SseConvolver_padding (kernel : list float) (kernel_length length : nat)
    (c : SseConvolver) :
  (0 < kernel_length <= List.length kernel)%nat ->
  SseConvolver_new kernel kernel_length length = Ok c ->
  (kernel_length < length)%nat /\
  (padBytes_ c < 4)%nat /\
  List.length (kernel_ c) = (kernel_length + padBytes_ c)%nat /\
  (List.length (kernel_ c) mod 4 = 0)%nat /\
  (forall i, (i < kernel_length)%nat -> kernel_ c !! i = kernel !! i) /\
  (forall i, (kernel_length <= i < List.length (kernel_ c))%nat -> kernel_ c !! i = Some zero) /\
  kernel_radius_ c = (kernel_length / 2)%nat /\ length_ c = length.
Proof.
  intros [_ Hk]. unfold SseConvolver_new.
  destruct (Nat.leb_spec length kernel_length) as [|Hlt]; [done|].
  destruct (pad_multiple kernel_length) as [Hmul Hpad].
  set (pad := ((4 - kernel_length mod 4) mod 4)%nat) in *.
  intros [= <-]. cbn [kernel_ padBytes_ kernel_radius_ length_].
  assert (Hlen : List.length (take kernel_length kernel) = kernel_length)
    by (rewrite length_take; lia).
  rewrite length_app, length_replicate, Hlen.
  split_and!; try done.
  - intros i Hi. rewrite lookup_app_l by lia. by rewrite lookup_take_lt.
  - intros i Hi. rewrite lookup_app_r by lia. rewrite Hlen.
    apply lookup_replicate_2. lia.
Qed.

Lemma SseConvolver_padding_witness :
  exists c, SseConvolver_new [of_Z 1; of_Z 2; of_Z 1] 3 8 = Ok c /\
            List.length (kernel_ c) = 4%nat /\ kernel_ c !! 3%nat = Some zero.
Proof.
  eexists. split; [reflexivity|].
  destruct (SseConvolver_padding [of_Z 1; of_Z 2; of_Z 1] 3 8 _ ltac:(simpl; lia) eq_refl)
    as (_ & _ & Hlen & _ & _ & Hzero & _).
  split; [exact Hlen|]. apply Hzero. rewrite Hlen. simpl. lia.
Defined.

End SweepFacts.
(** ** Convolution: no access leaves a vector *)

Module BoundsFacts.
Import Float32 Convolution ConvolutionFacts SweepFacts.



Section Checked.
Local Open Scope nat_scope.
Context {T : Type} {P : Pixel T}.



















End Checked.



End BoundsFacts.

(** ** Convolution: the pixel codecs *)

Module CodecFacts.
Import Float32 Convolution ConvolutionFacts.

(** X16.  Writing back what was read: every [float] and every [unsigned char]
    sample is kept; a [short] sample is kept if it is not negative or is
    [SHRT_MIN], and comes back larger by one otherwise. *)
Theorem codec_round_trip :
  (forall x : float, writerT (readerT x) = x) /\
  (forall x, 0 <= x <= 255 -> writerT (readerT (UChar x)) = UChar x) /\
  (forall x, SHRT_MIN <= x <= SHRT_MAX ->
     writerT (readerT (Short x))
     = Short (if (x <? 0) && negb (x =? SHRT_MIN) then x + 1 else x)).
Proof.
  split_and!.
  - done.
  - intros x Hx. simpl. f_equal. apply Z.eqb_eq.
    apply (all_from_spec (fun x => writerT_uchar (readerT_uchar x) =? x) (Z.to_nat 256) 0);
      [vm_compute; reflexivity|lia].
  - intros x Hx. simpl. f_equal. apply Z.eqb_eq.
    apply (all_from_spec (fun x =>
             writerT_short (readerT_short x)
             =? (if (x <? 0) && negb (x =? SHRT_MIN) then x + 1 else x))
             (Z.to_nat 65536) SHRT_MIN); [vm_compute; reflexivity|].
    unfold SHRT_MIN, SHRT_MAX in *. lia.
Qed.

(** X17.  Rounding and saturation of the two integer writers on the multiples
    [m / 2] of one half, from -35000 to 35000: [unsigned char] clamps to
    [0, 255] and rounds halves up; [short] clamps to its range and rounds
    [x + 0.5] toward zero, so that halves go up and every negative integer
    above [SHRT_MIN] goes up by one. *)
Theorem writerT_halves (m : Z) :
  -70000 <= m <= 70000 ->
  writerT_uchar (dyadic m (-1))
  = (if m <=? 0 then 0 else if 510 <? m then 255 else (m + 1) / 2) /\
  writerT_short (dyadic m (-1))
  = (if m <=? 2 * SHRT_MIN then SHRT_MIN
     else if 2 * SHRT_MAX <? m then SHRT_MAX else (m + 1) ÷ 2).
Proof.
  intros Hm.
  cut ((writerT_uchar (dyadic m (-1))
        =? (if m <=? 0 then 0 else if 510 <? m then 255 else (m + 1) / 2))
       && (writerT_short (dyadic m (-1))
           =? (if m <=? 2 * SHRT_MIN then SHRT_MIN
               else if 2 * SHRT_MAX <? m then SHRT_MAX else (m + 1) ÷ 2)) = true).
  { intros [H1 H2]%andb_true_iff. split; by apply Z.eqb_eq. }
  apply (all_from_spec (fun m =>
           (writerT_uchar (dyadic m (-1))
            =? (if m <=? 0 then 0 else if 510 <? m then 255 else (m + 1) / 2))
           && (writerT_short (dyadic m (-1))
               =? (if m <=? 2 * SHRT_MIN then SHRT_MIN
                   else if 2 * SHRT_MAX <? m then SHRT_MAX else (m + 1) ÷ 2)))
           (Z.to_nat 140001) (-70000)); [vm_compute; reflexivity|lia].
Qed.

Lemma writerT_halves_witness :
  -70000 <= -3 <= 70000 /\ writerT_uchar (dyadic (-3) (-1)) = 0 /\
  writerT_short (dyadic (-3) (-1)) = -1.
Proof. split; [lia|]. apply (writerT_halves (-3)). lia. Defined.

End CodecFacts.
(** ** Rounding to nearest

    The operations of [Float32] and [Float64] all end in
    [binary_round_aux], which shifts a mantissa to the exponent of the
    format and rounds it to nearest, ties to even.  What follows is what
    the kernel builder needs of it: the result is a number of the format,
    a number of the format rounds to itself, and rounding never crosses
    a number of the format. *)

Module RoundingFacts.

(** *** Digits *)

Lemma digits2_pos_bounds (p : positive) :
  2 ^ (Z.pos (digits2_pos p) - 1) <= Z.pos p < 2 ^ Z.pos (digits2_pos p).
Proof.
  induction p as [p IH|p IH|]; simpl digits2_pos; [| |simpl; lia].
  - rewrite Pos2Z.inj_succ.
    replace (Z.succ (Z.pos (digits2_pos p)) - 1) with (Z.succ (Z.pos (digits2_pos p) - 1)) by lia.
    rewrite !Z.pow_succ_r by lia. lia.
  - rewrite Pos2Z.inj_succ.
    replace (Z.succ (Z.pos (digits2_pos p)) - 1) with (Z.succ (Z.pos (digits2_pos p) - 1)) by lia.
    rewrite !Z.pow_succ_r by lia. lia.
Qed.

Lemma digits_bounds (m : Z) :
  0 < m -> 0 < Zdigits2 m /\ 2 ^ (Zdigits2 m - 1) <= m < 2 ^ Zdigits2 m.
Proof.
  destruct m as [|p|p]; try lia. intros _. simpl. split; [lia|apply digits2_pos_bounds].
Qed.

Lemma digits_nonneg (m : Z) : 0 <= m -> 0 <= Zdigits2 m.
Proof. destruct m as [|p|p]; simpl; lia. Qed.

Lemma digits_unique (m d : Z) : 2 ^ (d - 1) <= m < 2 ^ d -> 0 < m -> Zdigits2 m = d.
Proof.
  intros Hm Hpos. destruct (digits_bounds m Hpos) as [Hd Hb].
  destruct (Z_lt_le_dec d 0) as [Hneg|Hnn].
  { rewrite (Z.pow_neg_r 2 d) in Hm by lia. lia. }
  destruct (Z.lt_trichotomy (Zdigits2 m) d) as [Hlt|[Heq|Hgt]]; [|done|].
  - assert (2 ^ Zdigits2 m <= 2 ^ (d - 1)) by (apply Z.pow_le_mono_r; lia). lia.
  - assert (2 ^ d <= 2 ^ (Zdigits2 m - 1)) by (apply Z.pow_le_mono_r; lia). lia.
Qed.

Lemma digits_div (m n : Z) :
  0 < m -> 0 <= n < Zdigits2 m -> Zdigits2 (m / 2 ^ n) = Zdigits2 m - n /\ 0 < m / 2 ^ n.
Proof.
  intros Hm Hn. destruct (digits_bounds m Hm) as [Hd [Hlo Hhi]].
  assert (Hp : 0 < 2 ^ n) by (apply Z.pow_pos_nonneg; lia).
  assert (Hlo' : 2 ^ (Zdigits2 m - n - 1) <= m / 2 ^ n).
  { apply Z.div_le_lower_bound; [done|].
    rewrite <- Z.pow_add_r by lia. by replace (n + (Zdigits2 m - n - 1)) with (Zdigits2 m - 1) by lia. }
  assert (Hhi' : m / 2 ^ n < 2 ^ (Zdigits2 m - n)).
  { apply Z.div_lt_upper_bound; [done|].
    rewrite <- Z.pow_add_r by lia. by replace (n + (Zdigits2 m - n)) with (Zdigits2 m) by lia. }
  assert (0 < 2 ^ (Zdigits2 m - n - 1)) by (apply Z.pow_pos_nonneg; lia).
  split; [|lia]. apply digits_unique; lia.
Qed.

Lemma div_pow_small (m n : Z) : 0 <= m -> Zdigits2 m <= n -> m / 2 ^ n = 0.
Proof.
  intros Hm Hn. destruct (decide (m = 0)) as [->|Hne].
  { simpl in Hn. apply Z.div_0_l. apply Z.pow_nonzero; lia. }
  destruct (digits_bounds m ltac:(lia)) as [Hd [_ Hhi]].
  apply Z.div_small. split; [done|].
  assert (2 ^ Zdigits2 m <= 2 ^ n) by (apply Z.pow_le_mono_r; lia). lia.
Qed.

Lemma digits_mul_pow (m k : Z) : 0 < m -> 0 <= k -> Zdigits2 (m * 2 ^ k) = Zdigits2 m + k.
Proof.
  intros Hm Hk. destruct (digits_bounds m Hm) as [Hd [Hlo Hhi]].
  assert (Hp : 0 < 2 ^ k) by (apply Z.pow_pos_nonneg; lia).
  apply digits_unique; [|lia].
  replace (Zdigits2 m + k - 1) with ((Zdigits2 m - 1) + k) by lia.
  rewrite !Z.pow_add_r by lia. split; [apply Z.mul_le_mono_nonneg_r; lia|].
  apply Z.mul_lt_mono_pos_r; lia.
Qed.

Lemma digits_mul (a b : Z) : 0 < a -> 0 < b -> Zdigits2 a + Zdigits2 b - 1 <= Zdigits2 (a * b).
Proof.
  intros Ha Hb. destruct (digits_bounds a Ha) as [Hda [Hla _]].
  destruct (digits_bounds b Hb) as [Hdb [Hlb _]].
  destruct (digits_bounds (a * b) ltac:(lia)) as [Hdab [_ Hhab]].
  assert (H1 : 2 ^ (Zdigits2 a - 1) * 2 ^ (Zdigits2 b - 1) <= a * b).
  { apply Z.mul_le_mono_nonneg; try done; apply Z.pow_nonneg; lia. }
  rewrite <- Z.pow_add_r in H1 by lia.
  destruct (Z_lt_le_dec (Zdigits2 (a * b)) (Zdigits2 a + Zdigits2 b - 1)) as [Hlt|]; [|done].
  assert (2 ^ Zdigits2 (a * b) <= 2 ^ (Zdigits2 a - 1 + (Zdigits2 b - 1)))
    by (apply Z.pow_le_mono_r; lia).
  lia.
Qed.

Lemma digits_succ (q : Z) :
  0 <= q -> Zdigits2 (q + 1) = Zdigits2 q \/
            (q + 1 = 2 ^ Zdigits2 q /\ Zdigits2 (q + 1) = Zdigits2 q + 1).
Proof.
  intros Hq. destruct (decide (q = 0)) as [->|Hne]; [right; by simpl|].
  destruct (digits_bounds q ltac:(lia)) as [Hd [Hlo Hhi]].
  destruct (decide (q + 1 = 2 ^ Zdigits2 q)) as [Heq|Hneq].
  - right. split; [done|]. apply digits_unique; [|lia].
    replace (Zdigits2 q + 1 - 1) with (Zdigits2 q) by lia.
    rewrite Z.pow_add_r by lia. lia.
  - left. apply digits_unique; lia.
Qed.

Lemma digits_le (a b : Z) : 0 < a -> a <= b -> Zdigits2 a <= Zdigits2 b.
Proof.
  intros Ha Hab. destruct (digits_bounds a Ha) as [Hda [Hla _]].
  destruct (digits_bounds b ltac:(lia)) as [Hdb [_ Hhb]].
  destruct (Z_lt_le_dec (Zdigits2 b) (Zdigits2 a)) as [Hlt|]; [|done].
  assert (2 ^ Zdigits2 b <= 2 ^ (Zdigits2 a - 1)) by (apply Z.pow_le_mono_r; lia). lia.
Qed.

(** *** Shifting to the right *)

Lemma iter_pos_inv {A : Type} (f : A -> A) (I : Z -> A -> Prop) (p : positive) (k : Z) (x : A) :
  (forall k x, I k x -> I (k + 1) (f x)) ->
  I k x -> I (k + Z.pos p) (SpecFloat.iter_pos f p x).
Proof.
  intros Hstep. revert k x. induction p as [p IH|p IH|]; intros k x Hx; simpl.
  - replace (k + Z.pos p~1) with (k + 1 + Z.pos p + Z.pos p) by lia.
    apply IH, IH, Hstep, Hx.
  - replace (k + Z.pos p~0) with (k + Z.pos p + Z.pos p) by lia.
    apply IH, IH, Hx.
  - by apply Hstep.
Qed.

Lemma shr_1_spec (z : Z) (r s : bool) :
  0 <= z ->
  shr_1 (Build_shr_record z r s) = Build_shr_record (z / 2) (Z.odd z) (r || s).
Proof.
  intros Hz. destruct z as [|[p|p|]|p]; try lia; simpl shr_1; f_equal.
  - apply (Z.div_unique _ _ _ 1); lia.
  - apply (Z.div_unique _ _ _ 0); lia.
Qed.

Lemma half_odd (z : Z) : z = 2 * (z / 2) + Z.b2z (Z.odd z).
Proof.
  rewrite (Z.div_mod z 2) at 1 by lia. f_equal.
  rewrite Zmod_odd. by destruct (Z.odd z).
Qed.

(** The mantissa after [k] steps, whatever the record started with. *)
Lemma shr_iter_m (m : Z) (r s : bool) (p : positive) :
  0 <= m ->
  shr_m (SpecFloat.iter_pos shr_1 p (Build_shr_record m r s)) = m / 2 ^ Z.pos p.
Proof.
  intros Hm.
  pose proof (iter_pos_inv shr_1
    (fun k rec => 0 <= k /\ shr_m rec = m / 2 ^ k) p 0 (Build_shr_record m r s)) as H.
  simpl in H. apply H.
  - intros k [z r' s'] [Hk Hz]. simpl in Hz. subst z.
    rewrite shr_1_spec by (apply Z.div_pos; [lia|apply Z.pow_pos_nonneg; lia]).
    simpl. split; [lia|].
    assert (0 < 2 ^ k) by (apply Z.pow_pos_nonneg; lia).
    rewrite Z.pow_add_r by lia. rewrite Z.div_div by lia. done.
  - split; [lia|]. by rewrite Z.div_1_r.
Qed.

(** After [n] steps from an exact record: the quotient, and what
    rounding to nearest makes of it. *)
Lemma shr_iter_round (m : Z) (p : positive) :
  0 <= m ->
  let rec := SpecFloat.iter_pos shr_1 p (shr_record_of_loc m loc_Exact) in
  let m1 := round_nearest_even (shr_m rec) (loc_of_shr_record rec) in
  shr_m rec = m / 2 ^ Z.pos p /\
  m / 2 ^ Z.pos p <= m1 <= m / 2 ^ Z.pos p + 1 /\
  (m1 = m / 2 ^ Z.pos p \/ m / 2 ^ Z.pos p * 2 ^ Z.pos p < m).
Proof.
  intros Hm rec m1.
  assert (Hq : shr_m rec = m / 2 ^ Z.pos p) by (by apply shr_iter_m).
  pose proof (iter_pos_inv shr_1
    (fun k rec => 0 <= k /\ 0 <= shr_m rec /\
       exists rest, 2 * m = shr_m rec * 2 ^ (k + 1) + Z.b2z (shr_r rec) * 2 ^ k + rest /\
                    0 <= rest < 2 ^ k /\ (shr_s rec = true <-> 0 < rest))
    p 0 (shr_record_of_loc m loc_Exact)) as H.
  destruct H as (_ & Hz & rest & Heq & Hrest & Hs).
  - intros k [z r s] (Hk & Hz & rest & Heq & Hrest & Hs). simpl in Hz, Heq, Hs.
    rewrite shr_1_spec by done. simpl.
    split; [lia|]. split; [apply Z.div_pos; lia|].
    exists (Z.b2z r * 2 ^ k + rest).
    assert (Hp : 0 < 2 ^ k) by (apply Z.pow_pos_nonneg; lia).
    replace (k + 1 + 1) with (Z.succ (Z.succ k)) by lia.
    replace (k + 1) with (Z.succ k) in * by lia.
    rewrite !Z.pow_succ_r in * by lia.
    pose proof (half_odd z) as Hhalf.
    split; [|split].
    + rewrite Heq. rewrite Hhalf at 1. ring.
    + destruct r; simpl; lia.
    + destruct r; simpl; [split; [lia|done]|]. rewrite Hs. lia.
  - simpl. split; [lia|]. split; [done|]. exists 0. simpl.
    change (2 ^ (0 + 1)) with 2. change (2 ^ 0) with 1. split; [lia|]. split; [lia|].
    split; [done|lia].
  - fold rec in Hz, Heq, Hs. split; [done|].
    assert (Hp : 0 < 2 ^ Z.pos p) by (apply Z.pow_pos_nonneg; lia).
    change (0 + Z.pos p) with (Z.pos p) in Heq, Hrest.
    replace (Z.pos p + 1) with (Z.succ (Z.pos p)) in Heq by lia.
    rewrite Z.pow_succ_r in Heq by lia.
    rewrite <- Hq. unfold m1. clearbody rec. destruct rec as [z r s]. simpl in *.
    destruct r, s; simpl in *.
    + split; [lia|]. right. nia.
    + split; [destruct (Z.even z); lia|]. right. nia.
    + split; [lia|]. by left.
    + split; [lia|]. by left.
Qed.

Lemma pow_split (a b c : Z) : c <= b -> b <= a -> 2 ^ (a - c) = 2 ^ (a - b) * 2 ^ (b - c).
Proof. intros. rewrite <- Z.pow_add_r by lia. f_equal. lia. Qed.

Lemma iter_xO (m d : positive) : Z.pos (Pos.iter xO m d) = Z.pos m * 2 ^ Z.pos d.
Proof.
  induction d as [|d IH] using Pos.peano_ind; [simpl; lia|].
  rewrite Pos.iter_succ, Pos2Z.inj_xO, IH, Pos2Z.inj_succ, Z.pow_succ_r by lia. ring.
Qed.

Lemma scale_le (a b ea eb c c' : Z) :
  c' <= c -> c <= ea -> c <= eb ->
  a * 2 ^ (ea - c) <= b * 2 ^ (eb - c) -> a * 2 ^ (ea - c') <= b * 2 ^ (eb - c').
Proof.
  intros Hc Ha Hb Hle.
  rewrite (pow_split ea c c'), (pow_split eb c c') by lia.
  rewrite !Z.mul_assoc. apply Z.mul_le_mono_nonneg_r; [apply Z.pow_nonneg; lia|done].
Qed.

Section Format.
Variables prec emax : Z.
Hypothesis Hprec : 0 < prec.

Local Abbreviation fexp := (SpecFloat.fexp prec emax).
Local Abbreviation emin := (SpecFloat.emin prec emax).

Lemma fexp_ge_emin e : emin <= fexp e.
Proof. unfold SpecFloat.fexp. lia. Qed.

Lemma fexp_mono a b : a <= b -> fexp a <= fexp b.
Proof. unfold SpecFloat.fexp. lia. Qed.

Lemma round_nearest_even_cases (z : Z) (l : location) :
  round_nearest_even z l = z \/ round_nearest_even z l = z + 1.
Proof. destruct l as [|[]]; simpl; try destruct (Z.even z); auto. Qed.

(** One stage of [binary_round_aux]: the mantissa is divided by the power
    of two that brings the exponent up to [fexp]. *)
Lemma shr_fexp_spec (m e : Z) (l : location) :
  0 <= m ->
  let n := Z.max (fexp (Zdigits2 m + e) - e) 0 in
  exists rec, shr_fexp prec emax m e l = (rec, e + n) /\ shr_m rec = m / 2 ^ n /\
    (l = loc_Exact ->
     round_nearest_even (shr_m rec) (loc_of_shr_record rec) = shr_m rec \/
     shr_m rec * 2 ^ n < m).
Proof.
  intros Hm n. unfold shr_fexp, shr.
  destruct (fexp (Zdigits2 m + e) - e) as [|p|p] eqn:Hn; subst n; simpl Z.max.
  - eexists. split; [by rewrite Z.add_0_r|].
    rewrite Z.div_1_r. split; [by destruct l as [|[]]|]. intros ->. by left.
  - eexists. split; [reflexivity|]. split.
    + destruct l as [|[]]; simpl; by apply shr_iter_m.
    + intros ->. destruct (shr_iter_round m p Hm) as (Hq & _ & Hr).
      rewrite Hq in Hr |- *. change (Z.pos p `max` 0) with (Z.pos p). exact Hr.
  - eexists. split; [by rewrite Z.add_0_r|].
    rewrite Z.div_1_r. split; [by destruct l as [|[]]|]. intros ->. by left.
Qed.

(** After the first stage the pair is in canonical position. *)
Lemma canonical_after_shift (m e : Z) :
  0 <= m -> e <= fexp (Zdigits2 m + e) ->
  let e1 := fexp (Zdigits2 m + e) in
  fexp (Zdigits2 (m / 2 ^ (e1 - e)) + e1) = e1.
Proof.
  intros Hm He e1.
  destruct (decide (m = 0)) as [->|Hne].
  { rewrite Z.div_0_l by (apply Z.pow_nonzero; lia). subst e1. simpl in *.
    unfold SpecFloat.fexp in *. lia. }
  destruct (Z_lt_le_dec (e1 - e) (Zdigits2 m)) as [Hlt|Hge].
  - destruct (digits_div m (e1 - e)) as [Hd _]; [lia|lia|].
    rewrite Hd. by replace (Zdigits2 m - (e1 - e) + e1) with (Zdigits2 m + e) by lia.
  - rewrite div_pow_small by lia. simpl. subst e1.
    unfold SpecFloat.fexp in *. lia.
Qed.

(** The second stage: a carry out of the first rounding costs one more
    shift, and is the only thing that does. *)
Lemma second_stage (z e1 m1 : Z) :
  0 <= z -> fexp (Zdigits2 z + e1) = e1 -> m1 = z \/ m1 = z + 1 ->
  exists rec e2, shr_fexp prec emax m1 e1 loc_Exact = (rec, e2) /\
    0 <= shr_m rec /\ e1 <= e2 /\ shr_m rec * 2 ^ (e2 - e1) = m1 /\
    fexp (Zdigits2 (shr_m rec) + e2) = e2 /\
    (m1 = z -> shr_m rec = z /\ e2 = e1).
Proof.
  intros Hz HK Hm1.
  destruct (shr_fexp_spec m1 e1 loc_Exact) as (rec & Hrec & Hm & _); [lia|].
  assert (Hsame : fexp (Zdigits2 m1 + e1) = e1 ->
    exists rec e2, shr_fexp prec emax m1 e1 loc_Exact = (rec, e2) /\
      0 <= shr_m rec /\ e1 <= e2 /\ shr_m rec * 2 ^ (e2 - e1) = m1 /\
      fexp (Zdigits2 (shr_m rec) + e2) = e2 /\
      (m1 = z -> shr_m rec = z /\ e2 = e1)).
  { intros Hf. rewrite Hf, Z.sub_diag in Hrec, Hm. simpl in Hrec, Hm.
    rewrite Z.div_1_r in Hm. rewrite Z.add_0_r in Hrec.
    exists rec, e1. rewrite Hm, Z.sub_diag. simpl. rewrite Z.mul_1_r.
    repeat split; try done; try lia. }
  destruct Hm1 as [->| ->]; [by apply Hsame|].
  destruct (digits_succ z Hz) as [Hd|[Hpow Hd]]; [apply Hsame; by rewrite Hd|].
  destruct (decide (fexp (Zdigits2 (z + 1) + e1) = e1)) as [Hf|Hf]; [by apply Hsame|].
  assert (Hprec' : Zdigits2 z = prec /\ fexp (Zdigits2 (z + 1) + e1) = e1 + 1).
  { rewrite Hd in *. unfold SpecFloat.fexp in *. lia. }
  destruct Hprec' as [Hdz Hf1].
  rewrite Hf1 in Hrec, Hm. replace (e1 + 1 - e1) with 1 in Hrec, Hm by lia.
  simpl in Hrec, Hm. change (2 ^ 1) with 2 in Hm.
  assert (Hhalf : shr_m rec = 2 ^ (prec - 1)).
  { rewrite Hm, Hpow, Hdz. replace prec with (Z.succ (prec - 1)) at 1 by lia.
    rewrite Z.pow_succ_r by lia. rewrite Z.mul_comm, Z.div_mul by lia. done. }
  assert (Hpos : 0 < 2 ^ (prec - 1)) by (apply Z.pow_pos_nonneg; lia).
  exists rec, (e1 + 1). rewrite Hhalf. replace (e1 + 1 - e1) with 1 by lia.
  change (2 ^ 1) with 2.
  assert (Hdig : Zdigits2 (2 ^ (prec - 1)) = prec).
  { apply digits_unique; [|done]. split; [lia|].
    replace prec with (Z.succ (prec - 1)) at 2 by lia. rewrite Z.pow_succ_r by lia. lia. }
  repeat split; try done; try lia.
  - rewrite Hpow, Hdz. replace prec with (Z.succ (prec - 1)) at 2 by lia.
    rewrite Z.pow_succ_r by lia. lia.
  - rewrite Hdig. rewrite Hd, Hdz in Hf1. by replace (prec + (e1 + 1)) with (prec + 1 + e1) by lia.
Qed.

(** What [binary_round_aux] does to a mantissa that is long enough. *)
Theorem binary_round_aux_spec (s : bool) (mx ex : Z) (l : location) :
  0 <= mx -> ex <= fexp (Zdigits2 mx + ex) ->
  let e1 := fexp (Zdigits2 mx + ex) in
  let z := mx / 2 ^ (e1 - ex) in
  exists m1 m2 e2,
    (m1 = z \/ m1 = z + 1) /\
    (l = loc_Exact -> m1 = z \/ z * 2 ^ (e1 - ex) < mx) /\
    0 <= m2 /\ e1 <= e2 /\ m2 * 2 ^ (e2 - e1) = m1 /\
    fexp (Zdigits2 m2 + e2) = e2 /\
    (m1 = z -> m2 = z /\ e2 = e1) /\
    binary_round_aux prec emax s mx ex l =
      match m2 with
      | 0 => S754_zero s
      | Z.pos p => if e2 <=? emax - prec then S754_finite s p e2 else S754_infinity s
      | Z.neg _ => S754_nan
      end.
Proof.
  intros Hmx Hex e1 z.
  destruct (shr_fexp_spec mx ex l Hmx) as (rec1 & Hrec1 & Hm1 & Hexact).
  replace (Z.max (fexp (Zdigits2 mx + ex) - ex) 0) with (e1 - ex) in * by (subst e1; lia).
  replace (ex + (e1 - ex)) with e1 in Hrec1 by lia.
  fold z in Hm1.
  assert (Hz : 0 <= z) by (apply Z.div_pos; [lia|apply Z.pow_pos_nonneg; lia]).
  pose proof (canonical_after_shift mx ex Hmx Hex) as HK. cbv zeta in HK. fold e1 z in HK.
  set (m1 := round_nearest_even (shr_m rec1) (loc_of_shr_record rec1)).
  assert (Hcases : m1 = z \/ m1 = z + 1).
  { subst m1. rewrite <- Hm1. apply round_nearest_even_cases. }
  destruct (second_stage z e1 m1 Hz HK Hcases) as (rec2 & e2 & Hrec2 & H0 & Hle & Hval & HK2 & Hsame).
  exists m1, (shr_m rec2), e2.
  repeat split; try done.
  - intros Hl. specialize (Hexact Hl). fold m1 in Hexact. rewrite Hm1 in Hexact. done.
  - by apply Hsame.
  - by apply Hsame.
  - unfold binary_round_aux. rewrite Hrec1. fold m1. rewrite Hrec2. done.
Qed.

Lemma fexp_lt_inv a b : fexp a < fexp b -> a < b.
Proof. unfold SpecFloat.fexp. lia. Qed.

(** Canonical pairs are ordered by their exponents first. *)
Lemma canonical_exponent_le (ma ea mb eb c : Z) :
  0 < ma -> 0 <= mb ->
  fexp (Zdigits2 ma + ea) = ea -> fexp (Zdigits2 mb + eb) = eb ->
  c <= ea -> c <= eb ->
  ma * 2 ^ (ea - c) <= mb * 2 ^ (eb - c) -> ea <= eb.
Proof.
  intros Hma Hmb Ka Kb Hca Hcb Hle.
  destruct (Z_lt_le_dec eb ea) as [Hlt|]; [exfalso|done].
  assert (Hpa : 0 < 2 ^ (ea - c)) by (apply Z.pow_pos_nonneg; lia).
  destruct (decide (mb = 0)) as [->|Hne]; [nia|].
  assert (Hd : Zdigits2 mb + eb < Zdigits2 ma + ea).
  { apply fexp_lt_inv. lia. }
  destruct (digits_bounds ma Hma) as [Hda [Hlo _]].
  destruct (digits_bounds mb ltac:(lia)) as [Hdb [_ Hhi]].
  assert (H1 : mb * 2 ^ (eb - c) < 2 ^ (Zdigits2 mb + (eb - c))).
  { rewrite Z.pow_add_r by lia. apply Z.mul_lt_mono_pos_r; [apply Z.pow_pos_nonneg|]; lia. }
  assert (H2 : 2 ^ (Zdigits2 ma - 1 + (ea - c)) <= ma * 2 ^ (ea - c)).
  { rewrite Z.pow_add_r by lia. apply Z.mul_le_mono_nonneg_r; lia. }
  assert (H3 : 2 ^ (Zdigits2 mb + (eb - c)) <= 2 ^ (Zdigits2 ma - 1 + (ea - c))).
  { apply Z.pow_le_mono_r; lia. }
  lia.
Qed.

(** Nothing canonical lies strictly between [z] and [z + 1] at the
    exponent of [z]. *)
Lemma next_canonical (z e1 mR eR c : Z) :
  0 <= z -> 0 <= mR ->
  fexp (Zdigits2 z + e1) = e1 -> fexp (Zdigits2 mR + eR) = eR ->
  c <= e1 -> c <= eR ->
  z * 2 ^ (e1 - c) < mR * 2 ^ (eR - c) ->
  (z + 1) * 2 ^ (e1 - c) <= mR * 2 ^ (eR - c).
Proof.
  intros Hz HmR Kz KR Hc1 HcR Hlt.
  assert (Hp1 : 0 < 2 ^ (e1 - c)) by (apply Z.pow_pos_nonneg; lia).
  destruct (Z_lt_le_dec eR e1) as [Hlow|Hhigh].
  - exfalso.
    destruct (decide (z = 0)) as [->|Hne].
    { simpl in Kz. pose proof (fexp_ge_emin (Zdigits2 mR + eR)).
      unfold SpecFloat.fexp in *. lia. }
    assert (mR <> 0) by (intros ->; nia).
    assert (Hle : e1 <= eR); [|lia].
    apply (canonical_exponent_le z e1 mR eR c); try done; lia.
  - rewrite (pow_split eR e1 c) in * by lia.
    assert (0 < 2 ^ (eR - e1)) by (apply Z.pow_pos_nonneg; lia).
    set (P := 2 ^ (e1 - c)) in *. set (Q := 2 ^ (eR - e1)) in *.
    assert (Hq : z < mR * Q).
    { apply (Z.mul_lt_mono_pos_r P); [done|]. lia. }
    rewrite Z.mul_assoc. apply Z.mul_le_mono_nonneg_r; lia.
Qed.

(** Rounding to nearest never crosses a number of the format. *)
Theorem round_le_representable (s : bool) (mx ex mR eR c : Z) :
  0 <= mx -> ex <= fexp (Zdigits2 mx + ex) ->
  0 < mR -> fexp (Zdigits2 mR + eR) = eR -> eR <= emax - prec ->
  c <= ex -> c <= eR ->
  mx * 2 ^ (ex - c) <= mR * 2 ^ (eR - c) ->
  binary_round_aux prec emax s mx ex loc_Exact = S754_zero s \/
  exists m2 e2,
    binary_round_aux prec emax s mx ex loc_Exact = S754_finite s m2 e2 /\
    bounded prec emax m2 e2 = true /\ c <= e2 /\
    Z.pos m2 * 2 ^ (e2 - c) <= mR * 2 ^ (eR - c).
Proof.
  intros Hmx Hex HmR KR HeR Hcx HcR Hle.
  destruct (binary_round_aux_spec s mx ex loc_Exact Hmx Hex)
    as (m1 & m2 & e2 & Hcases & Hexact & Hm2 & He2 & Hval & K2 & _ & Hout).
  set (e1 := fexp (Zdigits2 mx + ex)) in *. set (z := mx / 2 ^ (e1 - ex)) in *.
  assert (Hpn : 0 < 2 ^ (e1 - ex)) by (apply Z.pow_pos_nonneg; lia).
  assert (Hpc : 0 < 2 ^ (ex - c)) by (apply Z.pow_pos_nonneg; lia).
  assert (Hz : 0 <= z) by (apply Z.div_pos; lia).
  assert (Hfloor : z * 2 ^ (e1 - ex) <= mx).
  { rewrite Z.mul_comm. apply Z.mul_div_le. done. }
  pose proof (canonical_after_shift mx ex Hmx Hex) as Kz.
  cbv zeta in Kz. fold e1 z in Kz.
  assert (H1 : m1 * 2 ^ (e1 - c) <= mR * 2 ^ (eR - c)).
  { destruct (Hexact eq_refl) as [->|Hstrict].
    - rewrite (pow_split e1 ex c) by lia. nia.
    - destruct Hcases as [->| ->].
      + rewrite (pow_split e1 ex c) by lia. nia.
      + apply next_canonical; try done; try lia.
        rewrite (pow_split e1 ex c) by lia. nia. }
  assert (H2 : m2 * 2 ^ (e2 - c) <= mR * 2 ^ (eR - c)).
  { rewrite (pow_split e2 e1 c) by lia. rewrite Z.mul_assoc, Hval. done. }
  rewrite Hout. destruct m2 as [|p|p]; [by left| |lia]. right.
  assert (He2R : e2 <= eR).
  { apply (canonical_exponent_le (Z.pos p) e2 mR eR c); try done; lia. }
  exists p, e2. rewrite (proj2 (Z.leb_le _ _)) by lia.
  split; [done|]. split; [|split; [lia|done]].
  unfold bounded, canonical_mantissa. apply andb_true_intro. split.
  - apply Z.eqb_eq. exact K2.
  - apply Z.leb_le. lia.
Qed.

(** A number of the format rounds to itself. *)
Theorem round_representable (s : bool) (mx ex : Z) (mR : positive) (eR : Z) :
  bounded prec emax mR eR = true -> ex <= eR ->
  mx = Z.pos mR * 2 ^ (eR - ex) ->
  binary_round_aux prec emax s mx ex loc_Exact = S754_finite s mR eR.
Proof.
  intros Hb Hex ->. unfold bounded, canonical_mantissa in Hb.
  apply andb_prop in Hb as [KR HeR]. apply Z.eqb_eq in KR. apply Z.leb_le in HeR.
  assert (Hp : 0 < 2 ^ (eR - ex)) by (apply Z.pow_pos_nonneg; lia).
  assert (Hd : Zdigits2 (Z.pos mR * 2 ^ (eR - ex)) + ex = Z.pos (digits2_pos mR) + eR).
  { rewrite digits_mul_pow by lia. simpl. lia. }
  destruct (binary_round_aux_spec s (Z.pos mR * 2 ^ (eR - ex)) ex loc_Exact)
    as (m1 & m2 & e2 & Hcases & Hexact & Hm2 & He2 & Hval & K2 & Hsame & Hout).
  { lia. }
  { rewrite Hd, KR. done. }
  rewrite Hd, KR in *. rewrite Z.div_mul in * by lia.
  destruct (Hexact eq_refl) as [H1|H1]; [|lia].
  destruct (Hsame H1) as [-> ->]. rewrite Hout.
  by rewrite (proj2 (Z.leb_le _ _)) by lia.
Qed.

(** The shape of a result of [binary_round_aux]. *)
Lemma binary_round_aux_well_formed (s : bool) (mx ex : Z) (l : location) :
  0 <= mx -> ex <= fexp (Zdigits2 mx + ex) ->
  let x := binary_round_aux prec emax s mx ex l in
  (x = S754_zero s \/ x = S754_infinity s \/
   exists m e, x = S754_finite s m e /\ bounded prec emax m e = true).
Proof.
  intros Hmx Hex x. subst x.
  destruct (binary_round_aux_spec s mx ex l Hmx Hex)
    as (m1 & m2 & e2 & _ & _ & Hm2 & _ & _ & K2 & _ & Hout).
  rewrite Hout. destruct m2 as [|p|p]; [by left| |lia].
  destruct (e2 <=? emax - prec) eqn:He; [|right; by left].
  right; right. exists p, e2. split; [done|].
  unfold bounded, canonical_mantissa. rewrite He, andb_true_r. by apply Z.eqb_eq.
Qed.

(** The quotient that [SFdiv] hands over is long enough. *)
Lemma SFdiv_well_formed (s1 s2 : bool) (m1 m2 : positive) (e1 e2 : Z) :
  let x := SFdiv prec emax (S754_finite s1 m1 e1) (S754_finite s2 m2 e2) in
  (x = S754_zero (xorb s1 s2) \/ x = S754_infinity (xorb s1 s2) \/
   exists m e, x = S754_finite (xorb s1 s2) m e /\ bounded prec emax m e = true).
Proof.
  intros x. subst x. unfold SFdiv, SFdiv_core_binary.
  set (d1 := Zdigits2 (Z.pos m1)). set (d2 := Zdigits2 (Z.pos m2)).
  set (e' := Z.min (fexp (d1 + e1 - (d2 + e2))) (e1 - e2)).
  set (sh := e1 - e2 - e').
  assert (Hsh : 0 <= sh) by (subst sh e'; lia).
  set (m' := match sh with 0 => Z.pos m1 | Z.pos _ => Z.shiftl (Z.pos m1) sh | Z.neg _ => 0 end).
  assert (Hm' : m' = Z.pos m1 * 2 ^ sh).
  { subst m'. destruct sh as [|p|p] eqn:E; [simpl; lia| |lia].
    rewrite Z.shiftl_mul_pow2 by lia. done. }
  assert (Hp : 0 < 2 ^ sh) by (apply Z.pow_pos_nonneg; lia).
  change (IntDef.Z.div_eucl m' (Z.pos m2)) with (Z.div_eucl m' (Z.pos m2)).
  pose proof (Z_div_mod m' (Z.pos m2) ltac:(lia)) as Hdiv.
  destruct (Z.div_eucl m' (Z.pos m2)) as [q r]. destruct Hdiv as [Hqr Hr].
  assert (Hq : 0 <= q) by nia.
  apply binary_round_aux_well_formed; [done|].
  assert (Hdq : d1 + sh - d2 <= Zdigits2 q).
  { destruct (digits_bounds (Z.pos m1) ltac:(lia)) as [Hd1 [Hlo1 _]].
    destruct (digits_bounds (Z.pos m2) ltac:(lia)) as [Hd2 [_ Hhi2]].
    fold d1 in Hd1, Hlo1. fold d2 in Hd2, Hhi2.
    assert (Hlo : 2 ^ (d1 - 1 + sh) <= m').
    { rewrite Hm', Z.pow_add_r by lia. apply Z.mul_le_mono_nonneg_r; lia. }
    destruct (decide (q = 0)) as [->|Hne].
    - simpl. destruct (Z_lt_le_dec 0 (d1 + sh - d2)) as [Hbig|]; [exfalso|lia].
      assert (2 ^ d2 <= 2 ^ (d1 - 1 + sh)) by (apply Z.pow_le_mono_r; lia). lia.
    - destruct (digits_bounds q ltac:(lia)) as [Hdq [_ Hhiq]].
      destruct (Z_lt_le_dec (Zdigits2 q) (d1 + sh - d2)) as [Hbig|]; [exfalso|lia].
      assert (H1 : 2 ^ (Zdigits2 q + d2) <= 2 ^ (d1 - 1 + sh)) by (apply Z.pow_le_mono_r; lia).
      rewrite Z.pow_add_r in H1 by lia.
      assert (m' < 2 ^ Zdigits2 q * 2 ^ d2); [|lia]. nia. }
  assert (Hmono : fexp (d1 + e1 - (d2 + e2)) <= fexp (Zdigits2 q + e')).
  { apply fexp_mono. lia. }
  lia.
Qed.

(** Comparison of two positive numbers of the format. *)
Lemma SFleb_canonical (ma mb : positive) (ea eb c : Z) :
  bounded prec emax ma ea = true -> bounded prec emax mb eb = true ->
  c <= ea -> c <= eb ->
  Z.pos ma * 2 ^ (ea - c) <= Z.pos mb * 2 ^ (eb - c) ->
  SFleb (S754_finite false ma ea) (S754_finite false mb eb) = true.
Proof.
  intros Ha Hb Hca Hcb Hle.
  apply andb_prop in Ha as [Ka _]. apply andb_prop in Hb as [Kb _].
  apply Z.eqb_eq in Ka, Kb.
  assert (Hexp : ea <= eb).
  { apply (canonical_exponent_le (Z.pos ma) ea (Z.pos mb) eb c); try done; lia. }
  unfold SFleb, SFcompare.
  destruct (Z.compare_spec ea eb) as [->|Hlt|Hgt]; [|done|lia].
  change (PosDef.Pos.compare_cont Eq ma mb) with (Pos.compare ma mb).
  assert (0 < 2 ^ (eb - c)) by (apply Z.pow_pos_nonneg; lia).
  destruct (Pos.compare_spec ma mb) as [->|Hlt|Hgt]; [done|done|nia].
Qed.

(** The value from which [binary_round] starts. *)
Lemma binary_round_spec (s : bool) (m : positive) (e : Z) :
  exists (mz : positive) (ez : Z),
    binary_round prec emax s m e = binary_round_aux prec emax s (Z.pos mz) ez loc_Exact /\
    ez <= e /\ Z.pos mz = Z.pos m * 2 ^ (e - ez) /\
    ez <= fexp (Zdigits2 (Z.pos mz) + ez) /\
    (ez = e \/ ez = fexp (Zdigits2 (Z.pos m) + e)).
Proof.
  unfold binary_round, shl_align. simpl Zdigits2.
  set (e' := fexp (Z.pos (digits2_pos m) + e)).
  destruct (e' - e) as [|p|p] eqn:Hd.
  - exists m, e. rewrite Z.sub_diag. change (2 ^ 0) with 1.
    split; [done|]. split; [lia|]. split; [lia|]. split; [|by left].
    simpl Zdigits2. fold e'. lia.
  - exists m, e. rewrite Z.sub_diag. change (2 ^ 0) with 1.
    split; [done|]. split; [lia|]. split; [lia|]. split; [|by left].
    simpl Zdigits2. fold e'. lia.
  - exists (Pos.iter xO m p), e'. split; [done|].
    change (PosDef.Pos.iter xO m p) with (Pos.iter xO m p).
    rewrite iter_xO. replace (e - e') with (Z.pos p) by lia.
    split; [lia|]. split; [done|]. split; [|by right].
    pose proof (digits_mul_pow (Z.pos m) (Z.pos p) ltac:(lia) ltac:(lia)) as Hdig.
    rewrite <- (iter_xO m p) in Hdig. simpl Zdigits2 in Hdig. rewrite Hdig.
    replace (Z.pos (digits2_pos m) + Z.pos p + e') with (Z.pos (digits2_pos m) + e) by lia.
    fold e'. lia.
Qed.

Lemma binary_round_representable (s : bool) (m : positive) (e : Z) (mR : positive) (eR : Z) :
  bounded prec emax mR eR = true -> e <= eR ->
  Z.pos m = Z.pos mR * 2 ^ (eR - e) ->
  binary_round prec emax s m e = S754_finite s mR eR.
Proof.
  intros Hb He Hm.
  destruct (binary_round_spec s m e) as (mz & ez & -> & Hez & Hmz & _ & _).
  apply round_representable; [done|lia|].
  rewrite Hmz, Hm, (pow_split eR e ez) by lia. ring.
Qed.

Lemma binary_round_le_representable (s : bool) (m : positive) (e : Z)
    (mR : positive) (eR c : Z) :
  bounded prec emax mR eR = true -> c <= e -> c <= eR ->
  Z.pos m * 2 ^ (e - c) <= Z.pos mR * 2 ^ (eR - c) ->
  binary_round prec emax s m e = S754_zero s \/
  exists m2 e2,
    binary_round prec emax s m e = S754_finite s m2 e2 /\
    bounded prec emax m2 e2 = true /\
    SFleb (S754_finite false m2 e2) (S754_finite false mR eR) = true.
Proof.
  intros Hb Hce HcR Hle.
  destruct (binary_round_spec s m e) as (mz & ez & -> & Hez & Hmz & Hfexp & _).
  pose proof Hb as Hb'. apply andb_prop in Hb' as [KR HeR].
  apply Z.eqb_eq in KR. apply Z.leb_le in HeR.
  destruct (round_le_representable s (Z.pos mz) ez (Z.pos mR) eR (Z.min c ez))
    as [Hz|(m2 & e2 & Hr & Hb2 & Hc2 & Hle2)]; try done; try lia.
  - rewrite Hmz, <- Z.mul_assoc, <- (pow_split e ez (Z.min c ez)) by lia.
    apply (scale_le _ _ _ _ c); [lia..|done].
  - by left.
  - right. exists m2, e2. split; [done|]. split; [done|].
    by apply (SFleb_canonical m2 mR e2 eR (Z.min c ez)); [..|lia|lia|].
Qed.

(** The product with a number that is at most 1 does not grow. *)
Lemma SFmul_le_representable (mR mE : positive) (eR eE : Z) :
  bounded prec emax mR eR = true ->
  eE <= 0 -> Z.pos mE <= 2 ^ (- eE) ->
  let x := SFmul prec emax (S754_finite false mR eR) (S754_finite false mE eE) in
  x = S754_zero false \/
  exists m2 e2,
    x = S754_finite false m2 e2 /\ bounded prec emax m2 e2 = true /\
    eR + eE <= e2 /\
    Z.pos m2 * 2 ^ (e2 - (eR + eE)) <= Z.pos mR * 2 ^ (eR - (eR + eE)).
Proof.
  intros Hb HeE HmE x. subst x. unfold SFmul. simpl xorb.
  pose proof Hb as Hb'. apply andb_prop in Hb' as [KR HeR].
  apply Z.eqb_eq in KR. apply Z.leb_le in HeR.
  destruct (round_le_representable false (Z.pos (mR * mE)) (eR + eE) (Z.pos mR) eR (eR + eE))
    as [Hz|(m2 & e2 & Hr & Hb2 & Hc2 & Hle2)]; try done; try lia.
  - pose proof (digits_mul (Z.pos mR) (Z.pos mE) ltac:(lia) ltac:(lia)) as Hd.
    destruct (digits_bounds (Z.pos mE) ltac:(lia)) as [HdE _].
    rewrite <- Pos2Z.inj_mul in Hd. simpl Zdigits2 in *.
    unfold SpecFloat.fexp in *. lia.
  - rewrite Z.sub_diag. change (2 ^ 0) with 1.
    replace (eR - (eR + eE)) with (- eE) by lia. rewrite Pos2Z.inj_mul. nia.
  - by left.
  - right. by exists m2, e2.
Qed.

End Format.
End RoundingFacts.


(** ** The kernel builder *)

Module KernelFacts.
Import Float32 Kernel.

Lemma coefficient_sigma_zero libm_pow libm_exp (s : bool) (x : Z) :
  is_finite (coefficient libm_pow libm_exp (S754_zero s) x) = false.
Proof.
  unfold coefficient.
  assert (Hinf : div (of_Z 1) (mul (S754_zero s) (sqrt (mul (of_Z 2) PACKAGE_PI)))
                 = S754_infinity s) by (destruct s; vm_compute; reflexivity).
  rewrite Hinf. simpl.
  destruct (libm_exp _) as [e|e| |e m ex]; reflexivity.
Qed.

(** *** The length of the kernel *)

Lemma binary_round_aux_sign p em s m e l : has_sign s (binary_round_aux p em s m e l).
Proof.
  unfold binary_round_aux.
  destruct (shr_fexp p em m e l) as [mrs e1].
  destruct (shr_fexp p em _ e1 loc_Exact) as [mrs' e2].
  destruct (shr_m mrs'); [done| |done].
  by destruct (e2 <=? em - p).
Qed.

Lemma binary_round_sign p em s m e : has_sign s (binary_round p em s m e).
Proof.
  unfold binary_round. destruct (shl_align _ _ _).
  apply binary_round_aux_sign.
Qed.

Lemma has_sign_not_negative x : has_sign false x -> not_negative x.
Proof. by destruct x as [[]|[]| |[] ? ?]. Qed.

Lemma sqrt_not_negative x : not_negative (sqrt x).
Proof.
  destruct x as [[]|[]| |[] m e]; try done.
  unfold sqrt, SFsqrt. destruct (SFsqrt_core_binary _ _ _ _) as [[my ey] ly].
  apply has_sign_not_negative, binary_round_aux_sign.
Qed.

Lemma mul_not_negative x y : not_negative x -> not_negative y -> not_negative (mul x y).
Proof.
  destruct x as [[]|[]| |[] mx ex], y as [[]|[]| |[] my ey]; try done.
  intros _ _. apply has_sign_not_negative. unfold mul, SFmul.
  apply binary_round_aux_sign.
Qed.

Lemma floor_not_negative x : not_negative x -> not_negative (floor x).
Proof.
  destruct x as [[]|[]| |[] m [|e|e]]; try done.
  intros _. unfold floor, binary_normalize. simpl cond_Zopp.
  pose proof (Z.div_pos (Z.pos m) (2 ^ Z.pos e) ltac:(lia) ltac:(lia)) as Hq.
  destruct (Z.pos m / 2 ^ Z.pos e) as [|q|q]; [done| |lia].
  apply has_sign_not_negative, binary_round_sign.
Qed.

Lemma trunc_not_negative x : not_negative x -> 0 <= trunc x.
Proof.
  destruct x as [[]|[]| |[] m [|e|e]]; try done; intros _; unfold trunc, cond_Zopp.
  - apply Z.mul_nonneg_nonneg; [lia|]. apply Z.pow_nonneg. lia.
  - apply Z.div_pos; lia.
Qed.

(** X19.  Whatever the C math library computes: a kernel that the builder
    returns has a radius that is not negative and [2 * radius + 1]
    coefficients. *)
Lemma kernel_odd_length libm_log libm_pow libm_exp (sigma tol : float) (k : GaussianKernel1D) :
  GaussianKernel1D_new libm_log libm_pow libm_exp sigma tol = Ok k ->
  0 <= _radius k /\ Z.of_nat (length (_data k)) = 2 * _radius k + 1.
Proof.
  unfold GaussianKernel1D_new.
  set (sigma' := if ltb sigma zero then opp sigma else sigma).
  assert (Hsigma : not_negative sigma').
  { unfold sigma'. by destruct sigma as [[]|[]| |[] m e]. }
  set (x := floor (mul sigma' (sqrt _))).
  assert (Hx : not_negative x).
  { apply floor_not_negative, mul_not_negative; [done|apply sqrt_not_negative]. }
  clearbody x. unfold to_int.
  destruct (is_finite x && _ && _); [|done]. simpl.
  destruct (_ <? _); [done|].
  intros [= <-]. simpl.
  pose proof (trunc_not_negative x Hx).
  split; [done|]. rewrite length_fmap, length_seqZ. lia.
Qed.

(** C7 fails on the code.  For [sigma = 0] (of either sign) and every
    [tol], whatever the C math library computes: the builder never fails
    with an argument error; it returns a kernel of radius 0 whose single
    coefficient is [(1 / (0 * sqrt(2 pi))) * exp(..)], an infinity times a
    number, hence an infinity or a NaN and never 1.  (The one other
    outcome is the undefined cast of a NaN radius, when
    [sqrt(2 * log(1 / tol))] is itself not finite.) *)
Theorem sigma_zero_kernel (libm_log : float -> float) (libm_pow : float -> Z -> spec_float)
    (libm_exp : spec_float -> spec_float) (s : bool) (tol : float) :
  match GaussianKernel1D_new libm_log libm_pow libm_exp (S754_zero s) tol with
  | Ok k => _radius k = 0 /\ exists c, _data k = [c] /\ is_finite c = false
  | Undefined =>
      is_finite (sqrt (mul (of_Z 2)
                   (libm_log (div (of_Z 1) (if ltb tol zero then opp tol else tol)))))
      = false
  | _ => False
  end.
Proof.
  unfold GaussianKernel1D_new.
  assert (Hs : ltb (S754_zero s) zero = false) by (by destruct s).
  rewrite Hs.
  destruct (sqrt _) as [sx|sx| |sx mx ex]; simpl; try reflexivity.
  - split; [done|]. eexists. split; [reflexivity|]. apply coefficient_sigma_zero.
  - split; [done|]. eexists. split; [reflexivity|]. apply coefficient_sigma_zero.
Qed.

(** *** Signs *)

Lemma binary_round_aux_opp p em s m e l :
  binary_round_aux p em (negb s) m e l = SFopp (binary_round_aux p em s m e l).
Proof.
  unfold binary_round_aux.
  destruct (shr_fexp p em m e l) as [mrs e1].
  destruct (shr_fexp p em _ e1 loc_Exact) as [mrs' e2].
  destruct (shr_m mrs'); [done| |done].
  by destruct (e2 <=? em - p).
Qed.

Lemma of_Z_opp (x : Z) : x <> 0 -> of_Z (- x) = opp (of_Z x).
Proof.
  intros Hx. unfold of_Z, dyadic.
  destruct x as [|q|q]; [done| |].
  - change (- Z.pos q) with (Z.neg q). unfold binary_normalize, binary_round.
    destruct (shl_align _ _ _) as [mz ez].
    apply (binary_round_aux_opp prec emax false).
  - change (- Z.neg q) with (Z.pos q). unfold binary_normalize, binary_round.
    destruct (shl_align _ _ _) as [mz ez].
    rewrite (binary_round_aux_opp prec emax false). unfold opp.
    by destruct (binary_round_aux _ _ _ _ _ _) as [[]|[]| |[] ? ?].
Qed.

Lemma div_opp (a s : float) : div (opp a) s = opp (div a s).
Proof.
  unfold div, opp.
  destruct a as [sa|sa| |sa ma ea], s as [ss|ss| |ss ms es]; simpl;
    try done; try (by destruct sa, ss).
  destruct (SFdiv_core_binary _ _ _ _ _ _) as [[mz ez] lz].
  rewrite <- binary_round_aux_opp. by destruct sa, ss.
Qed.

(** Where [pow(y, 2)] does not depend on the sign of [y], the coefficient
    for [-x] is the coefficient for [x]. *)
Lemma coefficient_even (libm_pow : float -> Z -> spec_float)
    (libm_exp : spec_float -> spec_float) (sigma : float) (x : Z) :
  (forall y, libm_pow (opp y) 2 = libm_pow y 2) ->
  coefficient libm_pow libm_exp sigma (- x) = coefficient libm_pow libm_exp sigma x.
Proof.
  intros Heven. destruct (decide (x = 0)) as [->|Hx]; [done|].
  unfold coefficient. by rewrite of_Z_opp, div_opp, Heven.
Qed.

(** X20.  Whatever the C math library computes for [log] and [exp]: if its
    [pow(y, 2)] is the same for [y] and [-y], the coefficients of a kernel
    that the builder returns are symmetric about the centre, bit for bit. *)
Theorem kernel_symmetric (libm_log : float -> float) (libm_pow : float -> Z -> spec_float)
    (libm_exp : spec_float -> spec_float) (sigma tol : float) (k : GaussianKernel1D) (i : Z) :
  (forall y, libm_pow (opp y) 2 = libm_pow y 2) ->
  GaussianKernel1D_new libm_log libm_pow libm_exp sigma tol = Ok k ->
  0 <= i <= _radius k ->
  is_Some (_data k !! Z.to_nat (_radius k + i)) /\
  _data k !! Z.to_nat (_radius k - i) = _data k !! Z.to_nat (_radius k + i).
Proof.
  intros Heven Hk Hi. unfold GaussianKernel1D_new in Hk.
  destruct (to_int _) as [r| | |]; simplify_eq/=.
  destruct (_ <? _); simplify_eq/=.
  rewrite !list_lookup_fmap, !lookup_seqZ_lt by lia.
  split; [by eexists|]. simpl. f_equal.
  replace (- r + Z.of_nat (Z.to_nat (r - i))) with (- i) by lia.
  replace (- r + Z.of_nat (Z.to_nat (r + i))) with i by lia.
  by apply coefficient_even.
Qed.

(** X21.  The arguments count by their magnitude: but for a zero, the sign of
    [sigma] and the sign of [tol] do not change the kernel. *)
Theorem kernel_of_magnitudes (libm_log : float -> float)
    (libm_pow : float -> Z -> spec_float) (libm_exp : spec_float -> spec_float)
    (sigma tol : float) :
  (forall s, sigma <> S754_zero s) -> (forall s, tol <> S754_zero s) ->
  GaussianKernel1D_new libm_log libm_pow libm_exp (opp sigma) tol
  = GaussianKernel1D_new libm_log libm_pow libm_exp sigma tol /\
  GaussianKernel1D_new libm_log libm_pow libm_exp sigma (opp tol)
  = GaussianKernel1D_new libm_log libm_pow libm_exp sigma tol.
Proof.
  assert (Habs : forall x : float, (forall s, x <> S754_zero s) ->
            (if ltb (opp x) zero then opp (opp x) else opp x)
            = (if ltb x zero then opp x else x)).
  { intros x Hx. destruct x as [s|[]| |[] m e]; try done. by destruct (Hx s). }
  intros Hsigma Htol. unfold GaussianKernel1D_new.
  by rewrite (Habs sigma Hsigma), (Habs tol Htol).
Qed.

(** Stand-ins for the C math library in examples: a constant for
    [log], the exact square for [pow(y, 2)], the identity for [exp]. *)
Local Abbreviation log_7 := (fun _ : float => of_Z 7).
Local Abbreviation square := (fun (y : float) (_ : Z) =>
  Float64.mul (Float64.of_float y) (Float64.of_float y)).
Local Abbreviation same := (fun x : spec_float => x).

Lemma square_even (y : float) : square (opp y) 2 = square y 2.
Proof.
  destruct y as [[]|[]| |[] m e]; try done;
    unfold Float64.of_float, opp, SFopp, binary_round;
    destruct (shl_align _ _ _) as [mz ez];
    rewrite (binary_round_aux_opp Float64.prec Float64.emax false);
    by destruct (binary_round_aux _ _ _ _ _ _) as [[]|[]| |[] ? ?].
Qed.

Lemma kernel_odd_length_witness :
  exists k, GaussianKernel1D_new log_7 square same (of_Z 1) (dyadic 1 (-10)) = Ok k /\
            0 <= _radius k /\ Z.of_nat (length (_data k)) = 2 * _radius k + 1.
Proof.
  destruct (GaussianKernel1D_new log_7 square same (of_Z 1) (dyadic 1 (-10)))
    as [k| | |] eqn:Hk; try (vm_compute in Hk; discriminate).
  exists k. split; [reflexivity|].
  exact (kernel_odd_length log_7 square same (of_Z 1) (dyadic 1 (-10)) k Hk).
Defined.

Lemma kernel_symmetric_witness :
  exists k, GaussianKernel1D_new log_7 square same (of_Z 1) (dyadic 1 (-10)) = Ok k /\
            0 <= 2 <= _radius k /\
            is_Some (_data k !! Z.to_nat (_radius k + 2)) /\
            _data k !! Z.to_nat (_radius k - 2) = _data k !! Z.to_nat (_radius k + 2).
Proof.
  destruct (GaussianKernel1D_new log_7 square same (of_Z 1) (dyadic 1 (-10)))
    as [k| | |] eqn:Hk; try (vm_compute in Hk; discriminate).
  assert (Hr : 0 <= 2 <= _radius k).
  { vm_compute in Hk. injection Hk as <-. simpl. lia. }
  exists k. split; [reflexivity|]. split; [exact Hr|].
  exact (kernel_symmetric log_7 square same (of_Z 1) (dyadic 1 (-10)) k 2 square_even Hk Hr).
Defined.

Lemma kernel_of_magnitudes_witness :
  GaussianKernel1D_new log_7 square same (opp (of_Z 2)) (of_Z 1)
  = GaussianKernel1D_new log_7 square same (of_Z 2) (of_Z 1) /\
  GaussianKernel1D_new log_7 square same (of_Z 2) (opp (of_Z 1))
  = GaussianKernel1D_new log_7 square same (of_Z 2) (of_Z 1).
Proof. by apply kernel_of_magnitudes. Defined.

(** *** The kernel for positive arguments *)

Lemma positive_abs (x : float) :
  ltb zero x = true -> (if ltb x zero then opp x else x) = x.
Proof. by destruct x as [[]|[]| |[] m e]. Qed.

Lemma data_symmetric libm_pow libm_exp (sigma : float) (r i : Z) :
  (forall y, libm_pow (opp y) 2 = libm_pow y 2) ->
  0 <= i <= r ->
  (coefficient libm_pow libm_exp sigma <$> seqZ (- r) (2 * r + 1)) !! Z.to_nat (r - i)
  = (coefficient libm_pow libm_exp sigma <$> seqZ (- r) (2 * r + 1)) !! Z.to_nat (r + i).
Proof.
  intros Heven Hi.
  rewrite !list_lookup_fmap, !lookup_seqZ_lt by lia. simpl. f_equal.
  replace (- r + Z.of_nat (Z.to_nat (r - i))) with (- i) by lia.
  replace (- r + Z.of_nat (Z.to_nat (r + i))) with i by lia.
  by apply coefficient_even.
Qed.

Lemma near_cases (m0 e : Z) (x : spec_float) (P : spec_float -> Prop) :
  Forall (fun d => P (S754_finite false (Z.to_pos (m0 + d)) e)) (seqZ (-4) 9) ->
  near m0 e x -> P x.
Proof.
  intros Hall (m & Hm & ->). rewrite list.Forall_forall in Hall.
  replace m with (m0 + (m - m0)) by lia. apply Hall.
  apply elem_of_seqZ. lia.
Qed.

Ltac nine_cases x :=
  let H := fresh in
  intros H; pattern x; revert H; apply near_cases;
  replace (seqZ (-4) 9) with [-4; -3; -2; -1; 0; 1; 2; 3; 4] by reflexivity;
  repeat (constructor; [vm_compute; reflexivity|]); constructor.

(** [1 / (sigma * sqrt(2 * PACKAGE_PI))] for [sigma = 1], as a [double]. *)
Local Abbreviation scale_1 :=
  (Float64.of_float (div (of_Z 1) (mul (of_Z 1) (sqrt (mul (of_Z 2) PACKAGE_PI))))).

Lemma radius_3 (L : float) :
  near 14486613 (-21) L ->
  to_int (floor (mul (of_Z 1) (sqrt (mul (of_Z 2) L)))) = Ok 3.
Proof. nine_cases L. Qed.

Lemma centre_1 : millionths (Float64.to_float (Float64.mul scale_1 (Float64.dyadic 1 0))) = 398942.
Proof. reflexivity. Qed.

Lemma beside_1 (E : spec_float) :
  near 5463142506141194 (-53) E ->
  millionths (Float64.to_float (Float64.mul scale_1 E)) = 241970.
Proof. nine_cases E. Qed.

Lemma beside_2 (E : spec_float) :
  near 4875967449235916 (-55) E ->
  millionths (Float64.to_float (Float64.mul scale_1 E)) = 53990.
Proof. nine_cases E. Qed.

Lemma beside_3 (E : spec_float) :
  near 6403900501771287 (-59) E ->
  millionths (Float64.to_float (Float64.mul scale_1 E)) = 4431.
Proof. nine_cases E. Qed.

(** The argument of [exp] for the coefficient at distance [x] from the
    centre, when [pow] squares exactly. *)
Lemma exp_argument (x : Z) :
  -3 <= x <= 3 ->
  Float64.mul (SFopp (Float64.dyadic 1 (-1))) (Float64.dyadic (x * x) 0)
  = if x =? 0 then S754_zero true else Float64.dyadic (- (x * x)) (-1).
Proof.
  intros Hx.
  assert (x = -3 \/ x = -2 \/ x = -1 \/ x = 0 \/ x = 1 \/ x = 2 \/ x = 3)
    as [-> | [-> | [-> | [-> | [-> | [-> | ->]]]]]] by lia; reflexivity.
Qed.

(** *** The centre coefficient *)

(** [1 / (sigma * sqrt(2 * PACKAGE_PI))], by which the builder scales
    every coefficient. *)
Local Abbreviation norm sigma :=
  (div (of_Z 1) (mul sigma (sqrt (mul (of_Z 2) PACKAGE_PI)))).

Lemma unit_interval_cases (E : spec_float) :
  Float64.unit_interval E = true ->
  (exists s, E = S754_zero s) \/
  exists m e, E = S754_finite false m e /\
    bounded Float64.prec Float64.emax m e = true /\ e <= 0 /\ Z.pos m <= 2 ^ (- e).
Proof.
  unfold Float64.unit_interval. intros H.
  apply andb_prop in H as [H Hle]. apply andb_prop in H as [Hb Hpos].
  destruct E as [s|[]| |[] m e]; try done; [by left; eexists|]. right.
  exists m, e. split; [done|]. simpl in Hb. split; [done|].
  change (Float64.dyadic 1 0) with (S754_finite false 4503599627370496 (-52)) in Hle.
  revert Hle. unfold SFleb, SFcompare.
  destruct (e ?= -52) eqn:Hcmp; [| |done].
  - apply Z.compare_eq in Hcmp. subst e.
    destruct (PosDef.Pos.compare_cont Eq m 4503599627370496%positive) eqn:Hp; [| |done];
      intros _; (split; [lia|]); change (2 ^ (- -52)) with (Z.pos 4503599627370496).
    + apply Pos.compare_eq in Hp. by subst m.
    + apply Pos2Z.pos_le_pos, Pos.lt_le_incl. exact Hp.
  - intros _. rewrite Z.compare_lt_iff in Hcmp. split; [lia|].
    apply andb_prop in Hb as [K _]. apply Z.eqb_eq in K.
    destruct (RoundingFacts.digits_bounds (Z.pos m) ltac:(lia)) as [_ [_ Hhi]].
    simpl Zdigits2 in Hhi.
    assert (Hd : Z.pos (digits2_pos m) <= - e).
    { unfold SpecFloat.fexp, SpecFloat.emin, Float64.prec, Float64.emax in K. lia. }
    assert (2 ^ Z.pos (digits2_pos m) <= 2 ^ (- e)) by (apply Z.pow_le_mono_r; lia).
    lia.
Qed.

Lemma norm_cases (sigma : float) :
  ltb zero sigma = true -> is_finite (norm sigma) = true ->
  norm sigma = S754_zero false \/
  exists m e, norm sigma = S754_finite false m e /\ bounded prec emax m e = true.
Proof.
  intros Hsigma.
  assert (HS : exists mS eS, sqrt (mul (of_Z 2) PACKAGE_PI) = S754_finite false mS eS)
    by (vm_compute; eauto).
  destruct HS as (mS & eS & ->).
  change (of_Z 1) with (S754_finite false 8388608 (-23)).
  destruct sigma as [[]|[]| |[] ms es]; try done; [by left|].
  unfold mul, SFmul. simpl xorb.
  pose proof (binary_round_aux_sign prec emax false (Z.pos (ms * mS)) (es + eS) loc_Exact) as Hs.
  destruct (binary_round_aux _ _ _ _ _ _) as [s|s| |s mD eD]; simpl in Hs; subst; try done.
  - by left.
  - intros Hfin.
    destruct (RoundingFacts.SFdiv_well_formed prec emax ltac:(done) false false
                8388608 mD (-23) eD) as [H|[H|(m & e & H & Hb)]].
    + by left.
    + unfold div in Hfin. by rewrite H in Hfin.
    + right. by exists m, e.
Qed.

(** The conversion to [double] and back is exact. *)
Lemma of_float_representable (m : positive) (e : Z) :
  bounded prec emax m e = true ->
  exists m' e',
    Float64.of_float (S754_finite false m e) = S754_finite false m' e' /\
    bounded Float64.prec Float64.emax m' e' = true /\
    e' <= e /\ Z.pos m' = Z.pos m * 2 ^ (e - e').
Proof.
  intros Hb. apply andb_prop in Hb as [K He]. apply Z.eqb_eq in K. apply Z.leb_le in He.
  unfold Float64.of_float.
  destruct (RoundingFacts.binary_round_spec Float64.prec Float64.emax false m e)
    as (mz & ez & Hr & Hez & Hmz & Hfexp & Hcase).
  assert (Hdig : Zdigits2 (Z.pos mz) + ez = Z.pos (digits2_pos m) + e).
  { rewrite Hmz, RoundingFacts.digits_mul_pow by lia. simpl. lia. }
  assert (Kz : SpecFloat.fexp Float64.prec Float64.emax (Zdigits2 (Z.pos mz) + ez) = ez).
  { rewrite Hdig in *. simpl Zdigits2 in Hcase. destruct Hcase as [->| ->]; [|done].
    unfold SpecFloat.fexp, SpecFloat.emin, Float64.prec, Float64.emax, prec, emax in *. lia. }
  assert (Hbz : bounded Float64.prec Float64.emax mz ez = true).
  { unfold bounded, canonical_mantissa. apply andb_true_intro. split.
    - apply Z.eqb_eq. exact Kz.
    - apply Z.leb_le. unfold Float64.prec, Float64.emax, prec, emax in *. lia. }
  exists mz, ez. split; [|done].
  rewrite Hr. apply RoundingFacts.round_representable; [done|done|lia|].
  rewrite Z.sub_diag. change (2 ^ 0) with 1. lia.
Qed.

Section Centre.
Variable libm_pow : float -> Z -> spec_float.
Variable libm_exp : spec_float -> spec_float.
Variable sigma : float.
Hypothesis Hsigma : ltb zero sigma = true.
Hypothesis Hpow : libm_pow (S754_zero false) 2 = S754_zero false.
Hypothesis Hexp : libm_exp (S754_zero true) = Float64.dyadic 1 0.
Hypothesis Hnorm : is_finite (norm sigma) = true.

(** The centre coefficient is the scale itself. *)
Lemma centre_coefficient : coefficient libm_pow libm_exp sigma 0 = norm sigma.
Proof.
  unfold coefficient.
  assert (H0 : div (of_Z 0) sigma = S754_zero false).
  { by destruct sigma as [[]|[]| |[] ms es]. }
  rewrite H0, Hpow.
  change (Float64.mul (SFopp (Float64.dyadic 1 (-1))) (S754_zero false))
    with (S754_zero true).
  rewrite Hexp.
  destruct (norm_cases sigma Hsigma Hnorm) as [->|(m & e & -> & Hb)]; [done|].
  destruct (of_float_representable m e Hb) as (m' & e' & -> & Hb' & He' & Hm').
  change (Float64.dyadic 1 0) with (S754_finite false 4503599627370496 (-52)).
  unfold Float64.mul, SFmul. simpl xorb.
  rewrite (RoundingFacts.round_representable Float64.prec Float64.emax ltac:(done)
             false _ _ m' e' Hb').
  - unfold Float64.to_float.
    by apply (RoundingFacts.binary_round_representable prec emax ltac:(done)).
  - lia.
  - rewrite Pos2Z.inj_mul. replace (e' - (e' + -52)) with 52 by lia. done.
Qed.

(** No coefficient exceeds the centre coefficient. *)
Lemma coefficient_le_centre (x : Z) :
  Float64.unit_interval
    (libm_exp (Float64.mul (SFopp (Float64.dyadic 1 (-1)))
                 (libm_pow (div (of_Z x) sigma) 2))) = true ->
  leb (coefficient libm_pow libm_exp sigma x) (coefficient libm_pow libm_exp sigma 0) = true.
Proof.
  intros HE. rewrite centre_coefficient. unfold coefficient.
  apply unit_interval_cases in HE.
  destruct (norm_cases sigma Hsigma Hnorm) as [->|(m & e & -> & Hb)].
  { destruct HE as [[s ->]|(mE & eE & -> & _)]; by destruct s || done. }
  destruct (of_float_representable m e Hb) as (m' & e' & -> & Hb' & He' & Hm').
  destruct HE as [[s ->]|(mE & eE & -> & HbE & HeE & HmE)]; [done|].
  destruct (RoundingFacts.SFmul_le_representable Float64.prec Float64.emax ltac:(done)
              m' mE e' eE Hb' HeE HmE) as [Hz|(m2 & e2 & Hr & Hb2 & Hc2 & Hle2)].
  { unfold Float64.mul. by rewrite Hz. }
  unfold Float64.mul. rewrite Hr. unfold Float64.to_float.
  destruct (RoundingFacts.binary_round_le_representable prec emax ltac:(done)
              false m2 e2 m e (e' + eE)) as [->|(m3 & e3 & -> & _ & Hle3)];
    try done; try lia.
  rewrite (RoundingFacts.pow_split e e' (e' + eE)) by lia.
  rewrite Z.mul_assoc, <- Hm'. done.
Qed.

End Centre.

(** C4, as amended.  For [sigma > 0] and [tol > 0], whatever the C math
    library computes, let [x] be [floor(sigma * sqrt(2 * log(1 / tol)))]
    as the code evaluates it in [float].  The builder returns a kernel
    exactly when [x] is finite and [2 * x + 1] is an [int]; the kernel
    then has the radius [x], which is not negative, and [2 * x + 1]
    coefficients, and they are symmetric about the centre bit for bit if
    the library's [pow(y, 2)] is the same for [y] and [-y].  The centre
    coefficient is [1 / (sigma * sqrt(2 * PACKAGE_PI))] as [float]
    arithmetic rounds it, and no coefficient of the kernel exceeds it,
    if that scale is finite, the library has [pow(0, 2) = 0] and
    [exp(-0) = 1], and its [exp] stays between 0 and 1 at the arguments
    that the builder passes.  In every other case the conversion of [x]
    or the length [2 * _radius + 1] overflows and no kernel is built.

    For [sigma = 1] and [tol = 0.001], with a library whose [log] and
    [exp] are accurate to 4 units in the last place and whose [pow]
    squares small integers exactly, at the points the builder evaluates:
    the radius is 3, and the seven coefficients, cut to six decimals, are
    0.004431, 0.053990, 0.241970, 0.398942, 0.241970, 0.053990,
    0.004431. *)
Theorem kernel_for_positive_sigma (libm_log : float -> float)
    (libm_pow : float -> Z -> spec_float) (libm_exp : spec_float -> spec_float) :
  (forall sigma tol, ltb zero sigma = true -> ltb zero tol = true ->
     let x := floor (mul sigma (sqrt (mul (of_Z 2) (libm_log (div (of_Z 1) tol))))) in
     (forall k, GaussianKernel1D_new libm_log libm_pow libm_exp sigma tol = Ok k ->
        is_finite x = true /\ _radius k = trunc x /\
        0 <= _radius k /\ 2 * _radius k + 1 <= Components.INT_MAX /\
        Z.of_nat (length (_data k)) = 2 * _radius k + 1 /\
        ((forall y, libm_pow (opp y) 2 = libm_pow y 2) ->
         forall i, 0 <= i <= _radius k ->
           is_Some (_data k !! Z.to_nat (_radius k + i)) /\
           _data k !! Z.to_nat (_radius k - i) = _data k !! Z.to_nat (_radius k + i)) /\
        (libm_pow (S754_zero false) 2 = S754_zero false ->
         libm_exp (S754_zero true) = Float64.dyadic 1 0 ->
         is_finite (div (of_Z 1) (mul sigma (sqrt (mul (of_Z 2) PACKAGE_PI)))) = true ->
         (forall i, - _radius k <= i <= _radius k ->
            Float64.unit_interval
              (libm_exp (Float64.mul (SFopp (Float64.dyadic 1 (-1)))
                           (libm_pow (div (of_Z i) sigma) 2))) = true) ->
         _data k !! Z.to_nat (_radius k)
         = Some (div (of_Z 1) (mul sigma (sqrt (mul (of_Z 2) PACKAGE_PI)))) /\
         Forall (fun c => leb c (div (of_Z 1) (mul sigma (sqrt (mul (of_Z 2) PACKAGE_PI))))
                          = true) (_data k))) /\
     (is_finite x = true -> 2 * trunc x + 1 <= Components.INT_MAX ->
        exists k, GaussianKernel1D_new libm_log libm_pow libm_exp sigma tol = Ok k) /\
     (is_finite x = false \/ Components.INT_MAX < 2 * trunc x + 1 ->
        GaussianKernel1D_new libm_log libm_pow libm_exp sigma tol = Undefined)) /\
  (near 14486613 (-21) (libm_log (div (of_Z 1) ConvolutionClr.default_tol)) ->
   (forall x, -3 <= x <= 3 ->
      libm_pow (div (of_Z x) (of_Z 1)) 2 = Float64.dyadic (x * x) 0) ->
   libm_exp (S754_zero true) = Float64.dyadic 1 0 ->
   near 5463142506141194 (-53) (libm_exp (Float64.dyadic (-1) (-1))) ->
   near 4875967449235916 (-55) (libm_exp (Float64.dyadic (-4) (-1))) ->
   near 6403900501771287 (-59) (libm_exp (Float64.dyadic (-9) (-1))) ->
   exists k,
     GaussianKernel1D_new libm_log libm_pow libm_exp (of_Z 1) ConvolutionClr.default_tol
     = Ok k /\
     _radius k = 3 /\ length (_data k) = 7%nat /\
     millionths <$> _data k = [4431; 53990; 241970; 398942; 241970; 53990; 4431]).
Proof.
  split.
  - intros sigma tol Hsigma Htol x.
    set (scale := div (of_Z 1) (mul sigma (sqrt (mul (of_Z 2) PACKAGE_PI)))).
    unfold GaussianKernel1D_new.
    rewrite (positive_abs sigma Hsigma), (positive_abs tol Htol). fold x.
    assert (Hx : not_negative x).
    { apply floor_not_negative, mul_not_negative; [|apply sqrt_not_negative].
      by destruct sigma as [[]|[]| |[] m e]. }
    pose proof (trunc_not_negative x Hx) as Hpos.
    unfold to_int, Components.INT_MAX in *.
    assert (Hlo : (-2147483648 <=? trunc x) = true) by (apply Z.leb_le; lia).
    rewrite Hlo, andb_true_r. split_and!.
    + intros k. destruct (is_finite x); [|done].
      destruct (Z.leb_spec (trunc x) 2147483647); [|done]. simpl.
      destruct (Z.ltb_spec 2147483647 (2 * trunc x + 1)); [done|].
      intros [= <-]. cbn [_radius _data]. split_and!; try done.
      * rewrite length_fmap, length_seqZ. lia.
      * intros Heven i Hi. split; [|by apply data_symmetric].
        rewrite list_lookup_fmap, lookup_seqZ_lt by lia. by eexists.
      * intros Hpow0 Hexp0 Hnorm Hunit. subst scale.
        rewrite <- (centre_coefficient libm_pow libm_exp sigma Hsigma Hpow0 Hexp0 Hnorm).
        split.
        -- rewrite list_lookup_fmap, lookup_seqZ_lt by lia. simpl. do 2 f_equal. lia.
        -- apply list.Forall_forall. intros c Hc.
           apply list_elem_of_fmap in Hc as (i & -> & Hi). apply elem_of_seqZ in Hi.
           apply coefficient_le_centre; try done. apply Hunit. lia.
    + intros -> Hfit. destruct (Z.leb_spec (trunc x) 2147483647); [|lia]. simpl.
      destruct (Z.ltb_spec 2147483647 (2 * trunc x + 1)); [lia|]. eauto.
    + intros [-> | Hbig]; [done|].
      destruct (is_finite x); [|done].
      destruct (Z.leb_spec (trunc x) 2147483647); [|done]. simpl.
      by destruct (Z.ltb_spec 2147483647 (2 * trunc x + 1)); [|lia].
  - intros Hlog Hpow Hone H1 H2 H3. unfold GaussianKernel1D_new.
    rewrite (positive_abs (of_Z 1) eq_refl), (positive_abs ConvolutionClr.default_tol eq_refl).
    rewrite (radius_3 _ Hlog). cbn [mbind result_bind].
    replace (Components.INT_MAX <? 2 * 3 + 1) with false by reflexivity.
    eexists. split; [reflexivity|]. cbn [_radius _data].
    replace (seqZ _ _) with [-3; -2; -1; 0; 1; 2; 3] by reflexivity.
    split; [done|]. split; [done|].
    cbn [fmap list_fmap]. unfold coefficient.
    rewrite !Hpow by lia. rewrite !exp_argument by lia.
    cbn [Z.eqb Pos.eqb].
    change (- (-3 * -3)) with (-9). change (- (3 * 3)) with (-9).
    change (- (-2 * -2)) with (-4). change (- (2 * 2)) with (-4).
    change (- (-1 * -1)) with (-1). change (- (1 * 1)) with (-1).
    rewrite Hone. by rewrite centre_1, (beside_1 _ H1), (beside_2 _ H2), (beside_3 _ H3).
Qed.

(** C4 fails as stated: [sigma = 2^100] is positive and [tol = 1/2] lies
    between 0 and 1, but with a [log] that is accurate to 4 units in the
    last place at 2 the radius would be about [1.5 * 10^30]; its
    conversion to [int] is undefined and no kernel is built. *)
Lemma radius_overflow_counterexample :
  ltb zero (dyadic 1 100) = true /\
  ltb zero (dyadic 1 (-1)) = true /\ ltb (dyadic 1 (-1)) (of_Z 1) = true /\
  forall (libm_log : float -> float) (libm_pow : float -> Z -> spec_float)
         (libm_exp : spec_float -> spec_float),
    near 11629080 (-24) (libm_log (div (of_Z 1) (dyadic 1 (-1)))) ->
    GaussianKernel1D_new libm_log libm_pow libm_exp (dyadic 1 100) (dyadic 1 (-1))
    = Undefined.
Proof.
  split_and!; try reflexivity.
  intros libm_log libm_pow libm_exp Hlog. unfold GaussianKernel1D_new.
  rewrite (positive_abs (dyadic 1 100) eq_refl), (positive_abs (dyadic 1 (-1)) eq_refl).
  assert (Hcast : to_int (floor (mul (dyadic 1 100)
                    (sqrt (mul (of_Z 2) (libm_log (div (of_Z 1) (dyadic 1 (-1))))))))
                  = Undefined); [|by rewrite Hcast].
  revert Hlog. generalize (libm_log (div (of_Z 1) (dyadic 1 (-1)))). intros L.
  nine_cases L.
Qed.

(** A table for the library at the points that the builder evaluates for
    [sigma = 1] and [tol = 0.001]: [log(1000)] rounded, exact squares, and
    [exp] at 0, -0.5, -2 and -4.5 rounded. *)
Local Abbreviation log_1000 := (fun _ : float => S754_finite false 14486613 (-21)).
Local Abbreviation exp_table := (fun y : spec_float =>
  if SFeqb y (Float64.dyadic (-1) (-1)) then S754_finite false 5463142506141194 (-53)
  else if SFeqb y (Float64.dyadic (-4) (-1)) then S754_finite false 4875967449235916 (-55)
  else if SFeqb y (Float64.dyadic (-9) (-1)) then S754_finite false 6403900501771287 (-59)
  else Float64.dyadic 1 0).
Local Abbreviation exact_square := (fun (y : float) (_ : Z) =>
  Float64.mul (Float64.of_float y) (Float64.of_float y)).

Lemma kernel_for_positive_sigma_witness :
  exists k,
    GaussianKernel1D_new log_1000 exact_square exp_table (of_Z 1) ConvolutionClr.default_tol
    = Ok k /\
    _radius k = 3 /\ length (_data k) = 7%nat /\
    millionths <$> _data k = [4431; 53990; 241970; 398942; 241970; 53990; 4431] /\
    _radius k = trunc (floor (mul (of_Z 1) (sqrt (mul (of_Z 2)
                         (log_1000 (div (of_Z 1) ConvolutionClr.default_tol)))))) /\
    _data k !! 0%nat = _data k !! 6%nat /\
    _data k !! 3%nat
    = Some (div (of_Z 1) (mul (of_Z 1) (sqrt (mul (of_Z 2) PACKAGE_PI)))) /\
    Forall (fun c => leb c (div (of_Z 1) (mul (of_Z 1) (sqrt (mul (of_Z 2) PACKAGE_PI))))
                     = true) (_data k).
Proof.
  destruct (kernel_for_positive_sigma log_1000 exact_square exp_table) as [Hgen Hone].
  destruct Hone as (k & Hk & Hr & Hlen & Hdata).
  - exists 14486613. split; [lia|reflexivity].
  - intros x Hx.
    assert (x = -3 \/ x = -2 \/ x = -1 \/ x = 0 \/ x = 1 \/ x = 2 \/ x = 3)
      as [-> | [-> | [-> | [-> | [-> | [-> | ->]]]]]] by lia; reflexivity.
  - reflexivity.
  - exists 5463142506141194. split; [lia|reflexivity].
  - exists 4875967449235916. split; [lia|reflexivity].
  - exists 6403900501771287. split; [lia|reflexivity].
  - exists k. split; [exact Hk|]. split; [exact Hr|]. split; [exact Hlen|].
    split; [exact Hdata|].
    destruct (Hgen (of_Z 1) ConvolutionClr.default_tol eq_refl eq_refl) as (Hshape & _ & _).
    destruct (Hshape k Hk) as (_ & Hrad & _ & _ & _ & Hsym & Hmax).
    split; [exact Hrad|].
    assert (Heven : forall y : float, exact_square (opp y) 2 = exact_square y 2)
      by apply square_even.
    destruct (Hsym Heven 3 ltac:(rewrite Hr; lia)) as [_ Heq].
    rewrite Hr in Heq. split; [exact Heq|].
    rewrite Hr in Hmax. apply Hmax; try reflexivity.
    intros i Hi.
    assert (i = -3 \/ i = -2 \/ i = -1 \/ i = 0 \/ i = 1 \/ i = 2 \/ i = 3)
      as [-> | [-> | [-> | [-> | [-> | [-> | ->]]]]]] by lia; reflexivity.
Defined.

End KernelFacts.

(** ** The managed entry point [Convolution::Convolve] *)

Module ConvolutionClrFacts.
Import Float32 Convolution Kernel ConvolutionClr SweepFacts.

Section Entry.
Variable libm_log : float -> float.
Variable libm_pow : float -> Z -> spec_float.
Variable libm_exp : spec_float -> spec_float.
Context {T : Type} {P : Pixel T}.
Variable size : Z.
Variables width height depth : nat.

Local Abbreviation pass := (pass libm_log libm_pow libm_exp size width height depth).
Local Abbreviation passes := (passes libm_log libm_pow libm_exp size width height depth).
Local Abbreviation Convolve := (Convolve libm_log libm_pow libm_exp size width height depth).
Local Abbreviation fits := (volume_fits size width height depth).

Lemma passes_app (data : Z -> T) l1 l2 :
  passes data (l1 ++ l2)
  = match passes data l1 with
    | (data1, Returns _) => passes data1 l2
    | r => r
    end.
Proof.
  revert data. induction l1 as [|[d s] l1 IH]; intros data; [done|].
  simpl. destruct (pass data d s); auto.
Qed.

(** X22.  For a volume that fits its array: two lists of passes in one call do
    what two calls do, one after the other; if the first part does not
    return, the second is not begun. *)
Theorem Convolve_in_two (data : Z -> T) (n : nat) (ds1 ds2 : list Z) (ss1 ss2 : list float) :
  fits n -> length ds1 = length ss1 -> length ds2 = length ss2 ->
  Convolve data n (ds1 ++ ds2) (ss1 ++ ss2)
  = match Convolve data n ds1 ss1 with
    | (data1, Returns _) => Convolve data1 n ds2 ss2
    | r => r
    end.
Proof.
  intros Hfits H1 H2. unfold ConvolutionClr.Convolve.
  rewrite (decide_True (P := length (ds1 ++ ds2) = length (ss1 ++ ss2)))
    by (rewrite !length_app; congruence).
  rewrite (decide_True (P := length ds1 = length ss1)) by done.
  destruct (decide (n = 0%nat)) as [Hn|Hn]; [done|].
  rewrite (zip_with_app pair ds1 ds2 ss1 ss2 H1), passes_app.
  destruct (passes data (zip ds1 ss1)) as [data1 [[]| |]]; [|done|done].
  by rewrite decide_True.
Qed.

(** X24.  For a volume that fits its array, whatever the outcome: the call has
    touched the samples of the volume and nothing else in the array. *)
Theorem Convolve_frame (data : Z -> T) (n : nat) (directions : list Z) (sigmas : list float) a :
  fits n ->
  (forall x y z, (x < width)%nat -> (y < height)%nat -> (z < depth)%nat ->
     a <> (Z.of_nat z * (Z.of_nat width * Z.of_nat height) + Z.of_nat y * Z.of_nat width
           + Z.of_nat x) * size) ->
  (Convolve data n directions sigmas).1 a = data a.
Proof.
  intros _ Ha. unfold ConvolutionClr.Convolve. destruct (decide _); [|done].
  destruct (decide _); [done|].
  generalize (zip directions sigmas). intros l. revert data.
  induction l as [|[d s] l IH]; intros data; [done|]. simpl.
  destruct (pass data d s) as [b| | |] eqn:Hp; try done.
  rewrite IH. unfold ConvolutionClr.pass in Hp.
  apply DisjointSetFacts.result_bind_Ok in Hp as (k & _ & Hp).
  apply (convolve1d_keeps _ _ _ _ _ _ _ _ _ _ _ _ _ _ Hp).
  intros x y z Hx Hy Hz Heq. apply (Ha x y z Hx Hy Hz). lia.
Qed.

End Entry.

(** Stand-ins for the C math library in examples. *)
Local Abbreviation log_7 := (fun _ : float => of_Z 7).
Local Abbreviation square := (fun (y : float) (_ : Z) =>
  Float64.mul (Float64.of_float y) (Float64.of_float y)).
Local Abbreviation same := (fun x : spec_float => x).

Lemma Convolve_in_two_witness :
  volume_fits 1 2 1 1 3 /\
  Convolve log_7 square same 1 2 1 1 (uchar_buffer [3; 5; 9]) 3 ([0] ++ [7]) ([of_Z 0] ++ [of_Z 1])
  = match Convolve log_7 square same 1 2 1 1 (uchar_buffer [3; 5; 9]) 3 [0] [of_Z 0] with
    | (data1, Returns _) => Convolve log_7 square same 1 2 1 1 data1 3 [7] [of_Z 1]
    | r => r
    end.
Proof.
  assert (Hfits : volume_fits 1 2 1 1 3) by (unfold volume_fits, Components.INT_MAX; lia).
  split; [exact Hfits|]. by apply Convolve_in_two.
Defined.

Lemma Convolve_frame_witness :
  volume_fits 1 2 1 1 3 /\
  (Convolve log_7 square same 1 2 1 1 (uchar_buffer [3; 5; 9]) 3 [0] [of_Z 1]).1 2
  = uchar_buffer [3; 5; 9] 2.
Proof.
  assert (Hfits : volume_fits 1 2 1 1 3) by (unfold volume_fits, Components.INT_MAX; lia).
  split; [exact Hfits|].
  apply Convolve_frame; [exact Hfits|]. intros x y z Hx Hy Hz. lia.
Defined.

End ConvolutionClrFacts.
